(** * Subgraph extraction and inlining in the Orchestrator script view

    A shallow embedding of [src/editor/script_view.cpp]: the boundary
    classifier ([_resolve_node_set_connections]), the bounds calculator
    ([_get_node_set_rect]), function creation ([_create_new_function]),
    extraction ([_collapse_selected_to_function]) and inlining
    ([_expand_node]).

    Conventions.  Node ids are [int]s, modelled as [Z]; port indices index a
    pin vector and are modelled as [nat].  Godot's [real_t] coordinates are
    modelled as exact rationals [Q]; rounding of the machine type is not
    modelled.  The aggregate counters of [NodeSetConnections] are [int]s,
    modelled as [Z]. *)

From Stdlib Require Import QArith Lqa.
From stdpp Require Import gmap strings list pretty.

Local Open Scope Z_scope.

(** ** Godot math types: [Vector2] and [Rect2] *)

Record Vector2 := mkVector2 { vx : Q; vy : Q }.

Definition Vector2_zero : Vector2 := mkVector2 0%Q 0%Q.

Definition Vector2_add (a b : Vector2) : Vector2 :=
  mkVector2 (vx a + vx b)%Q (vy a + vy b)%Q.

Definition Vector2_sub (a b : Vector2) : Vector2 :=
  mkVector2 (vx a - vx b)%Q (vy a - vy b)%Q.

Definition Vector2_scale (a : Vector2) (k : Q) : Vector2 :=
  mkVector2 (vx a * k)%Q (vy a * k)%Q.

Record Rect2 := mkRect2 { position : Vector2; size : Vector2 }.

(** [Rect2()]: the default-constructed rectangle. *)
Definition Rect2_default : Rect2 := mkRect2 Vector2_zero Vector2_zero.

(** [a < b] on coordinates. *)
Definition real_lt (a b : Q) : bool := negb (Qle_bool b a).

(** [Rect2::expand_to]: grow the rectangle so that it contains [p]. *)
Definition Rect2_expand_to (r : Rect2) (p : Vector2) : Rect2 :=
  let begin_ := position r in
  let end_ := Vector2_add (position r) (size r) in
  let bx := if real_lt (vx p) (vx begin_) then vx p else vx begin_ in
  let by_ := if real_lt (vy p) (vy begin_) then vy p else vy begin_ in
  let ex := if real_lt (vx end_) (vx p) then vx p else vx end_ in
  let ey := if real_lt (vy end_) (vy p) then vy p else vy end_ in
  mkRect2 (mkVector2 bx by_)
          (Vector2_sub (mkVector2 ex ey) (mkVector2 bx by_)).

(** [Rect2::get_center]: [position + size * 0.5]. *)
Definition Rect2_get_center (r : Rect2) : Vector2 :=
  Vector2_add (position r) (Vector2_scale (size r) (1 # 2)).

(** The far corner [position + size]. *)
Definition Rect2_get_end (r : Rect2) : Vector2 :=
  Vector2_add (position r) (size r).

(** [p] lies inside [r], borders included. *)
Definition Rect2_covers (r : Rect2) (p : Vector2) : Prop :=
  (vx (position r) <= vx p)%Q ∧ (vx p <= vx (Rect2_get_end r))%Q ∧
  (vy (position r) <= vy p)%Q ∧ (vy p <= vy (Rect2_get_end r))%Q.


(** ** Graph model data *)

Inductive EPinDirection := PD_Input | PD_Output.

Record OScriptNodePin := mkPin {
  pin_name : string;
  pin_type : Z;              (* Variant::Type *)
  is_execution : bool
}.

(** Node kinds the editor tests for with [Ref<T>] casts; the string is the
    name of the referenced function. *)
Inductive NodeKind :=
| FunctionEntry (fn : string)
| FunctionResult (fn : string)
| CallScriptFunction (fn : string)
| Generic.

Record OScriptNode := mkNode {
  node_id : Z;
  node_position : Vector2;
  node_kind : NodeKind;
  node_inputs : list OScriptNodePin;
  node_outputs : list OScriptNodePin;
  can_duplicate : bool
}.

Record OScriptConnection := mkConnection {
  from_node : Z;
  from_port : nat;
  to_node : Z;
  to_port : nat
}.

#[global] Instance EPinDirection_eq_dec : EqDecision EPinDirection.
Proof. solve_decision. Defined.

#[global] Instance OScriptConnection_eq_dec : EqDecision OScriptConnection.
Proof. solve_decision. Defined.

#[global] Instance NodeKind_eq_dec : EqDecision NodeKind.
Proof. solve_decision. Defined.

(** A pin seen from the other side of a connection: its owning node and its
    index among that node's pins of its direction. *)
Definition PinRef : Type := Z * nat.

(** The two ends of a connection as seen from a pin of direction [d]: the
    inner end is the pin itself, the outer end is the pin it is connected
    to. *)
Definition inner_node (d : EPinDirection) (c : OScriptConnection) : Z :=
  match d with PD_Input => to_node c | PD_Output => from_node c end.

Definition inner_port (d : EPinDirection) (c : OScriptConnection) : nat :=
  match d with PD_Input => to_port c | PD_Output => from_port c end.

Definition outer_node (d : EPinDirection) (c : OScriptConnection) : Z :=
  match d with PD_Input => from_node c | PD_Output => to_node c end.

Definition outer_port (d : EPinDirection) (c : OScriptConnection) : nat :=
  match d with PD_Input => from_port c | PD_Output => to_port c end.

(** The pins connected to pin [i] of direction [d] of node [id], read off a
    connection list. *)
Definition connected_pins (conns : list OScriptConnection) (id : Z)
    (d : EPinDirection) (i : nat) : list PinRef :=
  (λ c, (outer_node d c, outer_port d c))
    <$> filter (λ c, inner_node d c = id ∧ inner_port d c = i) conns.

(** [RBSet::insert]: no effect when the element is present.  Elements are kept
    in the order in which they arrive, which for the buckets below is the
    order of the Orchestration's connection list. *)
Definition set_insert (E : OScriptConnection) (s : list OScriptConnection)
  : list OScriptConnection :=
  if decide (E ∈ s) then s else s ++ [E].

(** [NodeSetConnections] (declared in script_view.h): three connection sets
    and four counters, all empty or zero when default-constructed. *)
Record NodeSetConnections := mkNodeSetConnections {
  connections : list OScriptConnection;
  inputs : list OScriptConnection;
  outputs : list OScriptConnection;
  input_executions : Z;
  input_data : Z;
  output_executions : Z;
  output_data : Z
}.

Definition NodeSetConnections_default : NodeSetConnections :=
  mkNodeSetConnections [] [] [] 0 0 0 0.

(** [r.input_executions++] and its three siblings, selected by the direction
    of the scanned pin and by [pin->is_execution()]. *)
Definition bump (d : EPinDirection) (exec : bool) (r : NodeSetConnections)
  : NodeSetConnections :=
  match d, exec with
  | PD_Input, true =>
      mkNodeSetConnections (connections r) (inputs r) (outputs r)
        (input_executions r + 1) (input_data r)
        (output_executions r) (output_data r)
  | PD_Input, false =>
      mkNodeSetConnections (connections r) (inputs r) (outputs r)
        (input_executions r) (input_data r + 1)
        (output_executions r) (output_data r)
  | PD_Output, true =>
      mkNodeSetConnections (connections r) (inputs r) (outputs r)
        (input_executions r) (input_data r)
        (output_executions r + 1) (output_data r)
  | PD_Output, false =>
      mkNodeSetConnections (connections r) (inputs r) (outputs r)
        (input_executions r) (input_data r)
        (output_executions r) (output_data r + 1)
  end.

Definition counter (d : EPinDirection) (exec : bool) (r : NodeSetConnections)
  : Z :=
  match d, exec with
  | PD_Input, true => input_executions r
  | PD_Input, false => input_data r
  | PD_Output, true => output_executions r
  | PD_Output, false => output_data r
  end.

Definition insert_connections (E : OScriptConnection) (r : NodeSetConnections) :=
  mkNodeSetConnections (set_insert E (connections r)) (inputs r) (outputs r)
    (input_executions r) (input_data r) (output_executions r) (output_data r).

Definition insert_inputs (E : OScriptConnection) (r : NodeSetConnections) :=
  mkNodeSetConnections (connections r) (set_insert E (inputs r)) (outputs r)
    (input_executions r) (input_data r) (output_executions r) (output_data r).

Definition insert_outputs (E : OScriptConnection) (r : NodeSetConnections) :=
  mkNodeSetConnections (connections r) (inputs r) (set_insert E (outputs r))
    (input_executions r) (input_data r) (output_executions r) (output_data r).

(** [Vector<Ref<OScriptNode>>::has] on a node reference: nodes are identified
    by their id, unique across the Orchestration. *)
Definition nodes_has (p_nodes : list OScriptNode) (id : Z) : bool :=
  bool_decide (id ∈ node_id <$> p_nodes).

(** [HashMap::has]. *)
Definition map_has (m : gmap Z OScriptNode) (id : Z) : bool :=
  bool_decide (is_Some (m !! id)).

(** ** The boundary classifier *)

Section Classifier.

(** What the classifier reads from the graph model: the pins of a node
    ([find_pins]), the pins connected to a given pin
    ([OScriptNodePin::get_connections], the pin-level back-references),
    and the Orchestration's connection list. *)
Context (find_pins : OScriptNode → EPinDirection → list OScriptNodePin)
        (get_connections : OScriptNode → EPinDirection → nat → list PinRef)
        (orchestration_connections : list OScriptConnection).

(** The innermost loop: one counter step per connected pin whose owning
    node is outside [p_nodes]. *)
Definition scan_pin (p_nodes : list OScriptNode) (d : EPinDirection)
    (exec : bool) (peers : list PinRef) (r : NodeSetConnections)
  : NodeSetConnections :=
  foldl (λ r E, if nodes_has p_nodes E.1 then r else bump d exec r) r peers.

(** The loop over [node->find_pins(d)]. *)
Definition scan_pins (p_nodes : list OScriptNode) (node : OScriptNode)
    (d : EPinDirection) (r : NodeSetConnections) : NodeSetConnections :=
  foldl (λ r ip, scan_pin p_nodes d (is_execution ip.2)
                   (get_connections node d ip.1) r)
        r (imap (λ i p, (i, p)) (find_pins node d)).

(** One iteration of the loop over [p_nodes]. *)
Definition resolve_node (p_nodes : list OScriptNode)
    (st : gmap Z OScriptNode * NodeSetConnections) (node : OScriptNode)
  : gmap Z OScriptNode * NodeSetConnections :=
  let node_map := <[node_id node := node]> st.1 in
  let r := scan_pins p_nodes node PD_Input st.2 in
  let r := scan_pins p_nodes node PD_Output r in
  (node_map, r).

(** One iteration of the loop over the Orchestration's connections. *)
Definition resolve_connection (node_map : gmap Z OScriptNode)
    (r : NodeSetConnections) (E : OScriptConnection) : NodeSetConnections :=
  let r := if map_has node_map (from_node E) && map_has node_map (to_node E)
           then insert_connections E r else r in
  let r := if negb (map_has node_map (from_node E)) && map_has node_map (to_node E)
           then insert_inputs E r else r in
  let r := if map_has node_map (from_node E) && negb (map_has node_map (to_node E))
           then insert_outputs E r else r in
  r.

Definition _resolve_node_set_connections (p_nodes : list OScriptNode)
    (r_connections : NodeSetConnections) : NodeSetConnections :=
  let st := foldl (resolve_node p_nodes) (∅, r_connections) p_nodes in
  foldl (resolve_connection st.1) st.2 orchestration_connections.

End Classifier.

(** ** The bounds calculator *)

Definition _get_node_set_rect (p_nodes : list OScriptNode) : Rect2 :=
  match p_nodes with
  | [] => Rect2_default
  | first :: _ =>
      foldl (λ area E, Rect2_expand_to area (node_position E))
            (mkRect2 (node_position first) Vector2_zero) p_nodes
  end.

(** ** The Orchestration: an arena of nodes, connections, graphs, functions *)

Record OScriptFunction := mkFunction {
  function_name : string;
  owning_node_id : Z;                (* the function's Entry node *)
  arguments : list (string * Z);     (* (name, type) *)
  has_return_value : bool;
  return_type : Z
}.

Inductive GraphFlags := GF_DEFAULT | GF_FUNCTION | GF_EVENT.

Record OScriptGraph := mkGraph {
  graph_name : string;
  graph_flags : list GraphFlags;
  graph_nodes : list Z
}.

Record Orchestration := mkOrchestration {
  _nodes : list OScriptNode;
  _connections : list OScriptConnection;
  _graphs : list OScriptGraph;
  _functions : list OScriptFunction
}.

Definition set_nodes (ns : list OScriptNode) (o : Orchestration) :=
  mkOrchestration ns (_connections o) (_graphs o) (_functions o).
Definition set_connections (cs : list OScriptConnection) (o : Orchestration) :=
  mkOrchestration (_nodes o) cs (_graphs o) (_functions o).
Definition set_graphs (gs : list OScriptGraph) (o : Orchestration) :=
  mkOrchestration (_nodes o) (_connections o) gs (_functions o).
Definition set_functions (fs : list OScriptFunction) (o : Orchestration) :=
  mkOrchestration (_nodes o) (_connections o) (_graphs o) fs.

Definition with_position (p : Vector2) (n : OScriptNode) : OScriptNode :=
  mkNode (node_id n) p (node_kind n) (node_inputs n) (node_outputs n)
         (can_duplicate n).

Definition with_id (id : Z) (n : OScriptNode) : OScriptNode :=
  mkNode id (node_position n) (node_kind n) (node_inputs n) (node_outputs n)
         (can_duplicate n).

Definition with_arguments (a : list (string * Z)) (f : OScriptFunction) :=
  mkFunction (function_name f) (owning_node_id f) a (has_return_value f)
             (return_type f).

Definition with_graph_nodes (ns : list Z) (g : OScriptGraph) :=
  mkGraph (graph_name g) (graph_flags g) ns.

Definition is_entry (n : OScriptNode) : bool :=
  match node_kind n with FunctionEntry _ => true | _ => false end.

Definition is_result (n : OScriptNode) : bool :=
  match node_kind n with FunctionResult _ => true | _ => false end.

Definition has_id (id : Z) (n : OScriptNode) : bool :=
  bool_decide (node_id n = id).

Module Orchestration.

(** Modelled from the spec: the Graph Model's node arena, "nodes keyed by
    a stable integer id".  [get_node] is missing from the sources; a
    reference that does not resolve is [None]. *)
Definition get_node (o : Orchestration) (id : Z) : option OScriptNode :=
  List.find (has_id id) (_nodes o).

(** Modelled from the spec: node-id allocation is "unique across the whole
    Orchestration"; the allocator is missing from the sources and is taken
    as the successor of the largest id in use. *)
Definition get_available_id (o : Orchestration) : Z :=
  1 + foldr Z.max (-1) (node_id <$> _nodes o).

Definition get_connections (o : Orchestration) : list OScriptConnection :=
  _connections o.

Definition find_function (o : Orchestration) (name : string)
  : option OScriptFunction :=
  List.find (λ f, bool_decide (function_name f = name)) (_functions o).

Definition get_function_names (o : Orchestration) : list string :=
  function_name <$> _functions o.

Definition has_graph (o : Orchestration) (name : string) : bool :=
  bool_decide (name ∈ graph_name <$> _graphs o).

(** Modelled from the spec: "subgraph creation failure" on a "name
    collision"; [create_graph] is missing from the sources. *)
Definition create_graph (name : string) (flags : list GraphFlags)
    (o : Orchestration) : option Orchestration :=
  if has_graph o name then None
  else Some (set_graphs (_graphs o ++ [mkGraph name flags []]) o).

Definition update_node (id : Z) (f : OScriptNode → OScriptNode)
    (o : Orchestration) : Orchestration :=
  set_nodes ((λ n, if has_id id n then f n else n) <$> _nodes o) o.

Definition update_function (name : string)
    (f : OScriptFunction → OScriptFunction) (o : Orchestration) :=
  set_functions
    ((λ fn, if bool_decide (function_name fn = name) then f fn else fn)
       <$> _functions o) o.

Definition update_graph (name : string) (f : list Z → list Z)
    (o : Orchestration) :=
  set_graphs
    ((λ g, if bool_decide (graph_name g = name)
           then with_graph_nodes (f (graph_nodes g)) g else g)
       <$> _graphs o) o.

(** Modelled from the spec: removing a node destroys it together with the
    connections that touch it ("dangling connections are forbidden");
    [remove_node] is missing from the sources. *)
Definition remove_node (id : Z) (o : Orchestration) : Orchestration :=
  mkOrchestration
    (filter (λ n, node_id n ≠ id) (_nodes o))
    (filter (λ c, from_node c ≠ id ∧ to_node c ≠ id) (_connections o))
    ((λ g, with_graph_nodes (filter (λ k, k ≠ id) (graph_nodes g)) g)
       <$> _graphs o)
    (_functions o).

End Orchestration.

Module OScriptFunction.
Import Orchestration.

Definition function_arguments (o : Orchestration) (name : string) :=
  match find_function o name with
  | Some f => arguments f
  | None => []
  end.

Definition get_argument_count (o : Orchestration) (name : string) : nat :=
  length (function_arguments o name).

(** Modelled from the spec: the Function's "ordered argument list of
    (name, type) pairs"; its mutators are missing from the sources.
    Resizing truncates or pads with unnamed arguments of type NIL. *)
Definition resize_argument_list (name : string) (size : nat)
    (o : Orchestration) : Orchestration :=
  update_function name
    (λ f, with_arguments
            (take size (arguments f)
             ++ replicate (size - length (arguments f))%nat (EmptyString, 0))
            f) o.

Definition set_argument_name (name : string) (i : nat) (s : string)
    (o : Orchestration) : Orchestration :=
  update_function name
    (λ f, with_arguments (alter (λ a, (s, a.2)) i (arguments f)) f) o.

Definition set_argument_type (name : string) (i : nat) (t : Z)
    (o : Orchestration) : Orchestration :=
  update_function name
    (λ f, with_arguments (alter (λ a, (a.1, t)) i (arguments f)) f) o.

Definition set_has_return_value (name : string) (b : bool)
    (o : Orchestration) : Orchestration :=
  update_function name
    (λ f, mkFunction (function_name f) (owning_node_id f) (arguments f) b
                     (return_type f)) o.

Definition set_return_type (name : string) (t : Z)
    (o : Orchestration) : Orchestration :=
  update_function name
    (λ f, mkFunction (function_name f) (owning_node_id f) (arguments f)
                     (has_return_value f) t) o.

End OScriptFunction.

Module OScriptNode.
Import Orchestration OScriptFunction.

Definition execution_pin (name : string) : OScriptNodePin :=
  mkPin name 0 true.

Definition argument_pin (a : string * Z) : OScriptNodePin :=
  mkPin a.1 a.2 false.

Definition return_pins (o : Orchestration) (name : string)
  : list OScriptNodePin :=
  match find_function o name with
  | Some f => if has_return_value f
              then [mkPin "return_value" (return_type f) false] else []
  | None => []
  end.

(** Modelled from the spec: [find_pins] is missing from the sources.  A
    generic node owns its pins; an Entry node "has only output pins", a
    Result node "has only input pins" and a Call node "mirrors [the
    function's] parameter/return pins": port 0 is the execution pin, the
    data ports follow from port 1 in argument order. *)
Definition find_pins (o : Orchestration) (n : OScriptNode)
    (d : EPinDirection) : list OScriptNodePin :=
  match node_kind n, d with
  | Generic, PD_Input => node_inputs n
  | Generic, PD_Output => node_outputs n
  | FunctionEntry f, PD_Input => []
  | FunctionEntry f, PD_Output =>
      execution_pin "ExecOut" :: (argument_pin <$> function_arguments o f)
  | FunctionResult f, PD_Input =>
      execution_pin "ExecIn" :: return_pins o f
  | FunctionResult f, PD_Output => []
  | CallScriptFunction f, PD_Input =>
      execution_pin "ExecIn" :: (argument_pin <$> function_arguments o f)
  | CallScriptFunction f, PD_Output =>
      execution_pin "ExecOut" :: return_pins o f
  end.

(** [node->find_pin(index, direction)]. *)
Definition find_pin (o : Orchestration) (n : OScriptNode) (i : nat)
    (d : EPinDirection) : option OScriptNodePin :=
  find_pins o n d !! i.

(** Modelled from the spec: the pin-level back-references are "derived
    indexes rebuilt from the canonical connection list";
    [OScriptNodePin::get_connections] is missing from the sources. *)
Definition get_connections (o : Orchestration) (n : OScriptNode)
    (d : EPinDirection) (i : nat) : list PinRef :=
  connected_pins (_connections o) (node_id n) d i.

Definition has_any_connections (o : Orchestration) (n : OScriptNode)
    (d : EPinDirection) (i : nat) : bool :=
  match get_connections o n d i with [] => false | _ => true end.

(** [node->set_position(p)] through a reference; [None] stands for the
    dereference of a null reference. *)
Definition set_position (id : Z) (p : Vector2) (o : Orchestration)
  : option Orchestration :=
  match get_node o id with
  | Some _ => Some (update_node id (with_position p) o)
  | None => None
  end.

End OScriptNode.

Module OScriptGraph.
Import Orchestration.

(** Modelled from the spec: [link] creates the connection record "(source
    node id, source port index, destination node id, destination port
    index)" in the global connection list, the "single source of truth";
    [link] is missing from the sources.  The list is a set. *)
Definition link (graph : string) (from : Z) (from_p : nat) (to : Z)
    (to_p : nat) (o : Orchestration) : Orchestration :=
  set_connections (set_insert (mkConnection from from_p to to_p)
                              (_connections o)) o.

(** Modelled from the spec: [unlink] removes "the global record and the
    pin back-references" (the latter are derived here). *)
Definition unlink (graph : string) (from : Z) (from_p : nat) (to : Z)
    (to_p : nat) (o : Orchestration) : Orchestration :=
  set_connections
    (filter (λ c, c ≠ mkConnection from from_p to to_p) (_connections o)) o.

(** Modelled from the spec: "ownership transfer between subgraphs is a
    first-class, atomic move operation ... preserving internal connections
    and relative node positions"; [move_node_to] is missing from the
    sources. *)
Definition move_node_to (source : string) (id : Z) (target : string)
    (o : Orchestration) : Orchestration :=
  update_graph target (λ ns, ns ++ [id])
    (update_graph source (filter (λ k, k ≠ id)) o).

(** [graph->get_nodes()]: the nodes the graph owns, resolved. *)
Definition get_nodes (o : Orchestration) (graph : string)
  : list OScriptNode :=
  g ← filter (λ g, graph_name g = graph) (_graphs o);
  omap (get_node o) (graph_nodes g).

(** Modelled from the spec: [create_node] is missing from the sources; the
    node gets the next available id and is owned by the graph.  Creation
    always succeeds. *)
Definition create_node (graph : string) (kind : NodeKind)
    (position : Vector2) (duplicable : bool) (o : Orchestration)
  : OScriptNode * Orchestration :=
  let id := get_available_id o in
  let n := mkNode id position kind [] [] duplicable in
  (n, update_graph graph (λ ns, ns ++ [id]) (set_nodes (_nodes o ++ [n]) o)).

(** Creating a function's Entry node also registers the Function, with the
    Entry node as its owning node and the signature of [context.method]:
    no argument, no return value. *)
Definition create_function_entry (graph : string) (method : string)
    (o : Orchestration) : OScriptNode * Orchestration :=
  let '(n, o) := create_node graph (FunctionEntry method) Vector2_zero
                             false o in
  (n, set_functions
        (_functions o ++ [mkFunction method (node_id n) [] false 0]) o).

(** Modelled from the spec: "duplicate each collected node into the target
    subgraph at [node.position + offset]"; [duplicate_node] is missing from
    the sources.  The copy gets the next available id; [None] is the null
    reference returned for an id that does not resolve. *)
Definition duplicate_node (graph : string) (id : Z) (delta : Vector2)
    (o : Orchestration) : option (OScriptNode * Orchestration) :=
  n ← get_node o id;
  let id' := get_available_id o in
  let n' := with_id id' (with_position (Vector2_add (node_position n) delta) n) in
  Some (n', update_graph graph (λ ns, ns ++ [id'])
              (set_nodes (_nodes o ++ [n']) o)).

(** [function->get_return_node()]: the Result node of the function's
    graph, when there is one. *)
Definition get_return_node (o : Orchestration) (function : string)
  : option OScriptNode :=
  List.find is_result (get_nodes o function).

End OScriptGraph.

(** ** The script view: the Orchestration and what the user gets to see *)

Inductive Event :=
| ErrPrint (msg : string)             (* ERR_FAIL_MSG, ERR_PRINT, ... *)
| ErrEditor (msg : string)            (* ERR_FAIL_COND_EDMSG *)
| FunctionsUpdate                     (* _functions->update() *)
| FunctionsFindAndEdit (name : string)
| NodeChanged (id : Z).               (* node->emit_changed() *)

Record View := mkView {
  _orchestration : Orchestration;
  log : list Event
}.

Definition on_orchestration (f : Orchestration → Orchestration) (v : View) :=
  mkView (f (_orchestration v)) (log v).

Definition emit (e : Event) (v : View) : View :=
  mkView (_orchestration v) (log v ++ [e]).

Definition is_error (e : Event) : bool :=
  match e with ErrPrint _ | ErrEditor _ => true | _ => false end.

(** [OrchestratorGraphEdit]: the editor tab of one graph.
    Modelled from the spec: it hands over its graph and "a selection (a set
    of node identifiers)", resolved to node references. *)
Record OrchestratorGraphEdit := mkGraphEdit {
  owning_graph : string;
  selected_ids : list Z
}.

Definition get_selected_script_nodes (o : Orchestration)
    (p_graph : OrchestratorGraphEdit) : list OScriptNode :=
  omap (Orchestration.get_node o) (selected_ids p_graph).

(** How a [void] member function ends; [A] is what a run that reaches the
    last statement leaves behind. *)
Inductive outcome (A : Type) :=
| Done (a : A)         (* ran to its last statement *)
| Return (v : View)    (* left early: [return] or an [ERR_FAIL] macro *)
| Fault.               (* null reference or vector index out of range *)

Arguments Done {A} a.
Arguments Return {A} v.
Arguments Fault {A}.

Definition outcome_map {A B : Type} (f : A → B) (x : outcome A) : outcome B :=
  match x with
  | Done a => Done (f a)
  | Return v => Return v
  | Fault => Fault
  end.

(** Range-based [for] over a body that may fault, locals threaded. *)
Fixpoint for_each {A S : Type} (body : S → A → option S) (s : S) (l : list A)
  : option S :=
  match l with
  | [] => Some s
  | x :: l => s' ← body s x; for_each body s' l
  end.

Import Orchestration OScriptFunction OScriptGraph.

Definition resolve (o : Orchestration) (p_nodes : list OScriptNode)
  : NodeSetConnections :=
  _resolve_node_set_connections (OScriptNode.find_pins o)
    (OScriptNode.get_connections o) (get_connections o) p_nodes
    NodeSetConnections_default.

(** ** [_create_new_function] *)

Definition _create_new_function (p_name : string) (p_add_return_node : bool)
    (v : View) : option string * View :=
  if has_graph (_orchestration v) p_name then
    (None, emit (ErrPrint ("Script already has graph named " +:+ p_name)) v)
  else
    match create_graph p_name [GF_FUNCTION; GF_DEFAULT] (_orchestration v) with
    | None =>
        (None, emit (ErrPrint ("Failed to create new function graph named "
                               +:+ p_name)) v)
    | Some o =>
        let '(entry, o) := create_function_entry p_name p_name o in
        let o :=
          if p_add_return_node then
            let position :=
              Vector2_add (node_position entry) (mkVector2 300 0) in
            (create_node p_name (FunctionResult p_name) position false o).2
          else o in
        (Some p_name, emit FunctionsUpdate (mkView o (log v)))
    end.

(** ** [_collapse_selected_to_function] *)

(** The locals of the loop over [connections.inputs]. *)
Record InputWiring := mkInputWiring {
  input_index : nat;
  call_input_index : nat;
  input_execution_wired : bool;
  call_execution_wired : bool;
  entry_positioned : bool
}.

(** The locals of the loop over [connections.outputs] that feeds the Result
    node. *)
Record ResultWiring := mkResultWiring {
  output_execution_wired : bool;
  output_data_wired : bool;
  positioned : bool
}.

(** The locals of the loop that wires the outputs of the Call node. *)
Record CallOutputWiring := mkCallOutputWiring {
  call_output_index : nat;
  call_output_execution_wired : bool
}.

Section Collapse.

Context (source_graph target_graph function : string)
        (call_node entry : Z).

Definition wire_input (st : InputWiring * Orchestration * list Event)
    (E : OScriptConnection)
  : option (InputWiring * Orchestration * list Event) :=
  let '(w, o, ev) := st in
  (* The exterior node connected to the selected node *)
  source ← get_node o (from_node E);
  source_pin ← OScriptNode.find_pins o source PD_Output !! from_port E;
  let '(w, o) :=
    if is_execution source_pin && negb (call_execution_wired w) then
      (mkInputWiring (input_index w) (call_input_index w)
         (input_execution_wired w) true (entry_positioned w),
       link source_graph (from_node E) (from_port E) call_node 0 o)
    else if negb (is_execution source_pin) then
      (mkInputWiring (input_index w) (S (call_input_index w))
         (input_execution_wired w) (call_execution_wired w)
         (entry_positioned w),
       link source_graph (from_node E) (from_port E) call_node
            (call_input_index w) o)
    else (w, o) in
  (* The selected node that is connected from the outside *)
  target ← get_node o (to_node E);
  target_pin ← OScriptNode.find_pins o target PD_Input !! to_port E;
  '(w, o, ev) ←
    (if negb (entry_positioned w) then
       o ← OScriptNode.set_position entry
             (Vector2_sub (node_position target) (mkVector2 250 0)) o;
       Some (mkInputWiring (input_index w) (call_input_index w)
               (input_execution_wired w) (call_execution_wired w) true,
             o, ev ++ [NodeChanged entry])
     else Some (w, o, ev));
  if negb (is_execution target_pin) then
    let size := (get_argument_count o function + 1)%nat in
    let o := resize_argument_list function size o in
    let o := set_argument_name function (size - 1) (pin_name target_pin) o in
    let o := set_argument_type function (size - 1) (pin_type target_pin) o in
    (* Wire entry data output to this connection *)
    Some (mkInputWiring (S (input_index w)) (call_input_index w)
            (input_execution_wired w) (call_execution_wired w)
            (entry_positioned w),
          link target_graph entry (input_index w) (to_node E) (to_port E) o,
          ev)
  else if negb (input_execution_wired w) then
    (* Wire entry execution output to this connection *)
    Some (mkInputWiring (input_index w) (call_input_index w) true
            (call_execution_wired w) (entry_positioned w),
          link target_graph entry 0 (to_node E) (to_port E) o, ev)
  else Some (w, o, ev).

Definition wire_result (result : Z)
    (st : ResultWiring * Orchestration * list Event)
    (E : OScriptConnection)
  : option (ResultWiring * Orchestration * list Event) :=
  let '(w, o, ev) := st in
  (* The selected node that is connected from the outside world *)
  source ← get_node o (from_node E);
  source_pin ← OScriptNode.find_pins o source PD_Output !! from_port E;
  '(w, o, ev) ←
    (if negb (positioned w) then
       o ← OScriptNode.set_position result
             (Vector2_add (node_position source) (mkVector2 250 0)) o;
       Some (mkResultWiring (output_execution_wired w) (output_data_wired w)
               true, o, ev ++ [NodeChanged result])
     else Some (w, o, ev));
  if is_execution source_pin && negb (output_execution_wired w) then
    Some (mkResultWiring true (output_data_wired w) (positioned w),
          link target_graph (from_node E) (from_port E) result 0 o, ev)
  else if negb (is_execution source_pin) && negb (output_data_wired w) then
    let o := set_has_return_value function true o in
    let o := set_return_type function (pin_type source_pin) o in
    Some (mkResultWiring (output_execution_wired w) true (positioned w),
          link target_graph (from_node E) (from_port E) result 1 o, ev)
  else Some (w, o, ev).

(** The block after the Result loop: a function whose Result node has no
    execution input and whose Entry node has no execution output gets a
    direct link between the two. *)
Definition link_entry_to_result (result : Z)
    (st : Orchestration * list Event) : option (Orchestration * list Event) :=
  let '(o, ev) := st in
  result_node ← get_node o result;
  match OScriptNode.find_pin o result_node 0 PD_Input with
  | Some result_exec =>
      if negb (OScriptNode.has_any_connections o result_node PD_Input 0) then
        entry_node ← get_node o entry;
        match OScriptNode.find_pin o entry_node 0 PD_Output with
        | Some entry_exec =>
            if negb (OScriptNode.has_any_connections o entry_node PD_Output 0)
            then
              (* entry_exec->link(result_exec) *)
              let o := link target_graph entry 0 result 0 o in
              entry_node ← get_node o entry;
              if bool_decide
                   (length (OScriptNode.find_pins o entry_node PD_Output) = 1%nat)
              then
                result_node ← get_node o result;
                o ← OScriptNode.set_position entry
                      (Vector2_sub (node_position result_node)
                                   (mkVector2 250 0)) o;
                Some (o, ev ++ [NodeChanged entry])
              else Some (o, ev)
            else Some (o, ev)
        | None => Some (o, ev)
        end
      else Some (o, ev)
  | None => Some (o, ev)
  end.

Definition wire_call_output (st : CallOutputWiring * Orchestration)
    (E : OScriptConnection) : option (CallOutputWiring * Orchestration) :=
  let '(w, o) := st in
  (* The exterior node connected to the selected node *)
  target ← get_node o (to_node E);
  target_pin ← OScriptNode.find_pins o target PD_Input !! to_port E;
  if is_execution target_pin && negb (call_output_execution_wired w) then
    Some (mkCallOutputWiring (call_output_index w) true,
          link source_graph call_node 0 (to_node E) (to_port E) o)
  else if negb (is_execution target_pin) then
    Some (mkCallOutputWiring (S (call_output_index w))
            (call_output_execution_wired w),
          link source_graph call_node (call_output_index w) (to_node E)
               (to_port E) o)
  else Some (w, o).

End Collapse.

Definition unlink_all (graph : string) (l : list OScriptConnection)
    (o : Orchestration) : Orchestration :=
  foldl (λ o E, unlink graph (from_node E) (from_port E) (to_node E)
                       (to_port E) o) o l.

Definition move_all (source : string) (l : list OScriptNode) (target : string)
    (o : Orchestration) : Orchestration :=
  foldl (λ o E, move_node_to source (node_id E) target o) o l.

(** A completed extraction with its locals: the new function, the Call,
    Entry and Result nodes, the two boundary buckets, the Orchestration as it
    is after the loops that feed the Entry and Result nodes (line 284), and
    the view at the end. *)
Record CollapseRun := mkCollapseRun {
  run_function : string;
  run_call_node : Z;
  run_entry : Z;
  run_result : option Z;
  run_inputs : list OScriptConnection;
  run_outputs : list OScriptConnection;
  run_rewired : Orchestration;
  run_final : View
}.

(** Lines 179 to 201: sever the boundary, move the nodes, create the Call
    node. *)
Definition collapse_move (function : string) (source_graph : string)
    (selected : list OScriptNode) (connections : NodeSetConnections)
    (o : Orchestration) : Z * Orchestration :=
  let target_graph := function in
  (* Calculate the area of the original nodes *)
  let area := _get_node_set_rect selected in
  (* Sever the connections to the outside world *)
  let o := unlink_all source_graph (inputs connections) o in
  let o := unlink_all source_graph (outputs connections) o in
  (* Move node between the two graphs *)
  let o := move_all source_graph selected target_graph o in
  let '(call_node, o) :=
    create_node source_graph (CallScriptFunction function)
                (Rect2_get_center area) true o in
  (node_id call_node, o).

(** Everything after the preconditions and the creation of the function:
    lines 179 to 322.  [None] is a fault. *)
Definition collapse_into (function : string) (source_graph : string)
    (selected : list OScriptNode) (connections : NodeSetConnections)
    (v : View) : option CollapseRun :=
  let target_graph := function in
  let '(call_node, o) :=
    collapse_move function source_graph selected connections
                  (_orchestration v) in
  f ← find_function o function;
  let entry := owning_node_id f in
  let result := node_id <$> get_return_node o function in
  '(_, o, ev) ←
    for_each (wire_input source_graph target_graph function call_node entry)
             (mkInputWiring 1 1 false false false, o, log v)
             (inputs connections);
  '(rewired, ev) ←
    match result with
    | Some result =>
        '(_, o, ev) ←
          for_each (wire_result target_graph function result)
                   (mkResultWiring false false false, o, ev)
                   (outputs connections);
        Some (o, ev)
    | None => Some (o, ev)
    end;
  '(o, ev) ←
    match result with
    | Some result => link_entry_to_result target_graph entry result (rewired, ev)
    | None => Some (rewired, ev)
    end;
  (* Wire call node *)
  '(_, o) ←
    for_each (wire_call_output source_graph call_node)
             (mkCallOutputWiring 1 false, o) (outputs connections);
  Some (mkCollapseRun function call_node entry result (inputs connections)
          (outputs connections) rewired
          (mkView o (ev ++ [NodeChanged call_node;
                            FunctionsFindAndEdit function]))).

Section CollapseToFunction.

(** [NameUtils::create_unique_name], which is outside these sources: the
    "uniqueness-checked name generator for new functions". *)
Context (create_unique_name : string → list string → string).

(** The body of [_collapse_selected_to_function], locals kept. *)
Definition collapse (p_graph : OrchestratorGraphEdit) (v : View)
  : outcome CollapseRun :=
  let selected := get_selected_script_nodes (_orchestration v) p_graph in
  match selected with
  | [] => Return v
  | _ =>
      match List.find (λ n, negb (can_duplicate n)) selected with
      | Some node =>
          Return (emit (ErrPrint ("Cannot collapse because node "
                                  +:+ pretty (node_id node)
                                  +:+ " cannot be duplicated.")) v)
      | None =>
          (* Capture connections based on the selected nodes *)
          let connections := resolve (_orchestration v) selected in
          if bool_decide (1 < input_executions connections) then
            Return (emit (ErrEditor "Cannot collapse to function with more than one external input execution wire.") v)
          else if bool_decide (1 < output_executions connections) then
            Return (emit (ErrEditor "Cannot collapse to function with more than one external output execution wire.") v)
          else if bool_decide (2 < length (outputs connections))%nat then
            Return (emit (ErrEditor "Cannot output more than one execution and one data pin.") v)
          else
            let new_function_name :=
              create_unique_name "NewFunction"
                (get_function_names (_orchestration v)) in
            match _create_new_function new_function_name true v with
            | (None, v) => Return v
            | (Some function, v) =>
                match collapse_into function (owning_graph p_graph)
                                    selected connections v with
                | Some run => Done run
                | None => Fault
                end
            end
      end
  end.

Definition _collapse_selected_to_function (p_graph : OrchestratorGraphEdit)
    (v : View) : outcome View :=
  outcome_map run_final (collapse p_graph v).

End CollapseToFunction.

(** ** [_expand_node] *)

(** One iteration of the duplication loop, [node_remap] threaded. *)
Definition duplicate_into (graph : string) (pos_delta : Vector2)
    (st : gmap Z Z * Orchestration) (node : OScriptNode)
  : option (gmap Z Z * Orchestration) :=
  '(duplicate, o) ← duplicate_node graph (node_id node) pos_delta st.2;
  (* Record mapping between old and new nodes *)
  Some (<[node_id node := node_id duplicate]> st.1, o).

(** [node_remap[k]]: a key that is absent reads as the default value. *)
Definition remap (node_remap : gmap Z Z) (k : Z) : Z :=
  default 0 (node_remap !! k).

Definition relink (graph : string) (node_remap : gmap Z Z)
    (l : list OScriptConnection) (o : Orchestration) : Orchestration :=
  foldl (λ o E, link graph (remap node_remap (from_node E)) (from_port E)
                     (remap node_remap (to_node E)) (to_port E) o) o l.

(** The nodes of a function body the inliner copies. *)
Definition body_nodes (o : Orchestration) (function : string)
  : list OScriptNode :=
  List.filter (λ n, negb (is_entry n) && negb (is_result n) && can_duplicate n)
              (get_nodes o function).

(** A completed inlining with its locals. *)
Record ExpandRun := mkExpandRun {
  expand_selected : list OScriptNode;
  expand_pos_delta : Vector2;
  expand_node_remap : gmap Z Z;
  expand_final : View
}.

(** The body of [_expand_node], locals kept. *)
Definition expand (p_node_id : Z) (p_graph : OrchestratorGraphEdit)
    (v : View) : outcome ExpandRun :=
  let o := _orchestration v in
  match get_node o p_node_id with
  | None => Return v
  | Some call_node =>
      match node_kind call_node with
      | CallScriptFunction fname =>
          match find_function o fname with
          | None => Return v
          | Some function =>
              let function_graph := function_name function in
              let selected := body_nodes o function_graph in
              match selected with
              | [] => Return v
              | _ =>
                  let area := _get_node_set_rect selected in
                  let pos_delta :=
                    Vector2_sub (node_position call_node)
                                (Rect2_get_center area) in
                  match for_each (duplicate_into (owning_graph p_graph)
                                                 pos_delta)
                                 (∅, o) selected with
                  | None => Fault
                  | Some (node_remap, o) =>
                      (* Record connections *)
                      let connections' := resolve o selected in
                      (* Reapply connections among pasted nodes *)
                      let o := relink (owning_graph p_graph) node_remap
                                      (connections connections') o in
                      (* Remove call node *)
                      Done (mkExpandRun selected pos_delta node_remap
                              (mkView (remove_node (node_id call_node) o)
                                      (log v)))
                  end
              end
          end
      | _ => Return v
      end
  end.

Definition _expand_node (p_node_id : Z) (p_graph : OrchestratorGraphEdit)
    (v : View) : outcome View :=
  outcome_map expand_final (expand p_node_id p_graph v).

(** ** Vocabulary of the statements *)

(** Two classification records hold the same three connection sets. *)
Definition same_buckets (r r' : NodeSetConnections) : Prop :=
  connections r' = connections r ∧ inputs r' = inputs r
  ∧ outputs r' = outputs r.

(** A rectangle whose size has no negative component. *)
Definition nonnegative_size (r : Rect2) : Prop :=
  (0 <= vx (size r))%Q ∧ (0 <= vy (size r))%Q.

(** The pin of a selected node at the inside end of a boundary connection,
    [d] being the direction of that pin. *)
Definition inside_pin
    (find_pins : OScriptNode → EPinDirection → list OScriptNodePin)
    (p_nodes : list OScriptNode) (d : EPinDirection) (c : OScriptConnection)
  : option OScriptNodePin :=
  n ← List.find (has_id (inner_node d c)) p_nodes;
  find_pins n d !! inner_port d c.

(** The bucket of boundary connections whose inside pin has direction [d]. *)
Definition bucket (d : EPinDirection) (r : NodeSetConnections)
  : list OScriptConnection :=
  match d with PD_Input => inputs r | PD_Output => outputs r end.

(** The data the classifier reads is consistent: the connection list is a
    set, the selection is a set of nodes, the back-references of every pin of
    a selected node list exactly the connections of that pin, and every
    connection at a selected node ends at a pin the node has. *)
Definition consistent_backrefs
    (find_pins : OScriptNode → EPinDirection → list OScriptNodePin)
    (get_connections : OScriptNode → EPinDirection → nat → list PinRef)
    (conns : list OScriptConnection) (p_nodes : list OScriptNode) : Prop :=
  NoDup conns
  ∧ NoDup (node_id <$> p_nodes)
  ∧ (∀ n d i, n ∈ p_nodes →
       get_connections n d i ≡ₚ connected_pins conns (node_id n) d i)
  ∧ (∀ n d c, n ∈ p_nodes → c ∈ conns → inner_node d c = node_id n →
       (inner_port d c < length (find_pins n d))%nat).

(** The connected pins that the innermost loop of the classifier counts:
    those owned by a node outside [p]. *)
Definition outside_peers (p : list OScriptNode) (peers : list PinRef) : nat :=
  length (filter (λ E : PinRef, E.1 ∉ (node_id <$> p)) peers).

(** What the scan of direction [d] of node [n] adds to the counter of that
    direction and of pin kind [e]. *)
Definition node_crossings
    (find_pins : OScriptNode → EPinDirection → list OScriptNodePin)
    (get_connections : OScriptNode → EPinDirection → nat → list PinRef)
    (p : list OScriptNode) (d : EPinDirection) (e : bool) (n : OScriptNode)
  : nat :=
  sum_list_with
    (λ ip : nat * OScriptNodePin,
       if bool_decide (is_execution ip.2 = e)
       then outside_peers p (get_connections n d ip.1) else 0%nat)
    (imap (λ i q, (i, q)) (find_pins n d)).

(** A connection crosses the boundary of [p] at a pin of direction [d] and of
    kind [e] of a selected node. *)
Definition crossing
    (find_pins : OScriptNode → EPinDirection → list OScriptNodePin)
    (p : list OScriptNode) (d : EPinDirection) (e : bool)
    (c : OScriptConnection) : Prop :=
  (outer_node d c ∉ (node_id <$> p))
  ∧ (is_execution <$> inside_pin find_pins p d c) = Some e.

#[global] Instance crossing_dec find_pins p d e c :
  Decision (crossing find_pins p d e c).
Proof. unfold crossing. apply _. Defined.

(** The contribution of one connection to the scan of pin [ip] of direction
    [d] of node [n], for the counter of pin kind [e]. *)
Definition pin_crossing (p : list OScriptNode) (d : EPinDirection) (e : bool)
    (c : OScriptConnection) (n : OScriptNode) (ip : nat * OScriptNodePin)
  : nat :=
  if bool_decide (is_execution ip.2 = e
                  ∧ (inner_node d c = node_id n ∧ inner_port d c = ip.1)
                  ∧ outer_node d c ∉ (node_id <$> p))
  then 1%nat else 0%nat.

(** An operation stopped early, told the user why with one error message,
    and left the Orchestration as it was. *)
Definition rejected_with_error (v : View) (out : outcome View) : Prop :=
  ∃ v', out = Return v'
        ∧ _orchestration v' = _orchestration v
        ∧ ∃ e, is_error e = true ∧ log v' = log v ++ [e].


(** *** Well-formed Orchestrations *)

(** The function a node refers to, if it is an Entry, Result or Call node. *)
Definition references (n : OScriptNode) : option string :=
  match node_kind n with
  | FunctionEntry f | FunctionResult f | CallScriptFunction f => Some f
  | Generic => None
  end.

(** The invariants of the data model that extraction relies on: every
    function is bound to a graph of its name; a node that refers to a
    function refers to one that exists; no connection dangles; Entry and
    Result nodes cannot be duplicated. *)
Record well_formed (o : Orchestration) : Prop := mkWellFormed {
  wf_functions :
    ∀ fn, fn ∈ _functions o → function_name fn ∈ graph_name <$> _graphs o;
  wf_references :
    ∀ n f, n ∈ _nodes o → references n = Some f →
           f ∈ Orchestration.get_function_names o;
  wf_connections :
    ∀ c, c ∈ _connections o →
         from_node c ∈ node_id <$> _nodes o ∧ to_node c ∈ node_id <$> _nodes o;
  wf_terminators :
    ∀ n, n ∈ _nodes o → is_entry n || is_result n = true →
         can_duplicate n = false
}.

(** *** Pins at the two ends of a connection *)

Definition source_pin (o : Orchestration) (c : OScriptConnection)
  : option OScriptNodePin :=
  n ← Orchestration.get_node o (from_node c);
  OScriptNode.find_pins o n PD_Output !! from_port c.

Definition target_pin (o : Orchestration) (c : OScriptConnection)
  : option OScriptNodePin :=
  n ← Orchestration.get_node o (to_node c);
  OScriptNode.find_pins o n PD_Input !! to_port c.

(** The pin is there and is an execution pin ([k = true]) or a data pin
    ([k = false]). *)
Definition pin_is (k : bool) (q : option OScriptNodePin) : bool :=
  bool_decide ((is_execution <$> q) = Some k).

Definition exec_source (o : Orchestration) (c : OScriptConnection) : bool :=
  pin_is true (source_pin o c).
Definition data_source (o : Orchestration) (c : OScriptConnection) : bool :=
  pin_is false (source_pin o c).
Definition exec_target (o : Orchestration) (c : OScriptConnection) : bool :=
  pin_is true (target_pin o c).
Definition data_target (o : Orchestration) (c : OScriptConnection) : bool :=
  pin_is false (target_pin o c).

(** The argument a data pin gives rise to: its name and its type. *)
Definition argument_of (q : OScriptNodePin) : string * Z :=
  (pin_name q, pin_type q).

(** *** The links an extraction makes, said declaratively *)

(** At most one link, for the first element that satisfies [P], unless the
    wiring is already done. *)
Definition first_link (wired : bool) (P : OScriptConnection → bool)
    (mk : OScriptConnection → OScriptConnection)
    (l : list OScriptConnection) : list OScriptConnection :=
  if wired then []
  else match List.find P l with Some E => [mk E] | None => [] end.

(** One link for each element that satisfies [P], on consecutive ports from
    [k] on, in the order of the list. *)
Definition numbered_links (k : nat) (P : OScriptConnection → bool)
    (mk : nat → OScriptConnection → OScriptConnection)
    (l : list OScriptConnection) : list OScriptConnection :=
  imap (λ i E, mk (k + i)%nat E) (List.filter P l).

(** From the source of [E] to port [i] of node [n]. *)
Definition link_into (n : Z) (i : nat) (E : OScriptConnection) :=
  mkConnection (from_node E) (from_port E) n i.

(** From port [i] of node [n] to the destination of [E]. *)
Definition link_out_of (n : Z) (i : nat) (E : OScriptConnection) :=
  mkConnection n i (to_node E) (to_port E).

(** *** What a step of extraction leaves alone *)

(** A node without its position. *)
Definition node_shape (n : OScriptNode) : OScriptNode :=
  with_position Vector2_zero n.

(** A function without its signature. *)
Definition function_identity (fn : OScriptFunction) : string * Z :=
  (function_name fn, owning_node_id fn).

(** From [o] to [o'] the nodes are the same up to the positions of the nodes
    in [moved], the graphs are the same, and the functions are the same up
    to the signature of [f]. *)
Record frame (f : string) (moved : list Z) (o o' : Orchestration) : Prop :=
  mkFrame {
  frame_ids : node_id <$> _nodes o' = node_id <$> _nodes o;
  frame_fixed :
    ∀ id, id ∉ moved →
          Orchestration.get_node o' id = Orchestration.get_node o id;
  frame_shape :
    ∀ id, node_shape <$> Orchestration.get_node o' id
          = node_shape <$> Orchestration.get_node o id;
  frame_graphs : _graphs o' = _graphs o;
  frame_functions :
    ∀ g, g ≠ f →
         Orchestration.find_function o' g = Orchestration.find_function o g;
  frame_function :
    function_identity <$> Orchestration.find_function o' f
    = function_identity <$> Orchestration.find_function o f
}.

(** The two ends of [E] are nodes of [o] that are not in [moved] and do not
    refer to [f]: nothing an extraction does changes their pins. *)
Definition stable_ends (f : string) (moved : list Z) (o : Orchestration)
    (E : OScriptConnection) : Prop :=
  ∃ s t, Orchestration.get_node o (from_node E) = Some s
         ∧ Orchestration.get_node o (to_node E) = Some t
         ∧ (from_node E ∉ moved) ∧ (to_node E ∉ moved)
         ∧ references s ≠ Some f ∧ references t ≠ Some f.

(** The return value of the function named [f], when the function exists. *)
Definition return_info (o : Orchestration) (f : string) : option (bool * Z) :=
  (λ fn, (has_return_value fn, return_type fn))
    <$> Orchestration.find_function o f.

(** The node ids of the graph named [g], when there is exactly one such
    graph. *)
Definition sole_graph (o : Orchestration) (g : string) : option (list Z) :=
  match filter (λ gr, graph_name gr = g) (_graphs o) with
  | [gr] => Some (graph_nodes gr)
  | _ => None
  end.

(** The nodes an extraction creates. *)
Definition entry_node (id : Z) (f : string) : OScriptNode :=
  mkNode id Vector2_zero (FunctionEntry f) [] [] false.

Definition result_node (id : Z) (f : string) : OScriptNode :=
  mkNode id (Vector2_add Vector2_zero (mkVector2 300 0)) (FunctionResult f)
         [] [] false.

Definition call_node (id : Z) (f : string) (p : Vector2) : OScriptNode :=
  mkNode id p (CallScriptFunction f) [] [] true.

(** No connection of [o] ends at port [i] of direction [d] of node [id]. *)
Definition pin_free (o : Orchestration) (id : Z) (d : EPinDirection)
    (i : nat) : Prop :=
  ∀ c, c ∈ _connections o → ¬ (inner_node d c = id ∧ inner_port d c = i).

(** *** The links of a completed extraction *)

(** Caller side, inbound: the first execution source to port 0 of the Call
    node, the data sources to its ports 1, 2, ... *)
Definition call_input_links (o : Orchestration) (call : Z)
    (ins : list OScriptConnection) : list OScriptConnection :=
  first_link false (exec_source o) (link_into call 0) ins
  ++ numbered_links 1 (data_source o) (link_into call) ins.

(** Function side, inbound: port 0 of the Entry node to the first execution
    destination, its ports 1, 2, ... to the data destinations. *)
Definition entry_links (o : Orchestration) (entry : Z)
    (ins : list OScriptConnection) : list OScriptConnection :=
  first_link false (exec_target o) (link_out_of entry 0) ins
  ++ numbered_links 1 (data_target o) (link_out_of entry) ins.

(** Function side, outbound: the first execution source to port 0 of the
    Result node, the first data source to its port 1. *)
Definition result_links (o : Orchestration) (result : Z)
    (outs : list OScriptConnection) : list OScriptConnection :=
  first_link false (exec_source o) (link_into result 0) outs
  ++ first_link false (data_source o) (link_into result 1) outs.

(** Caller side, outbound: port 0 of the Call node to the first execution
    destination, its ports 1, 2, ... to the data destinations. *)
Definition call_output_links (o : Orchestration) (call : Z)
    (outs : list OScriptConnection) : list OScriptConnection :=
  first_link false (exec_target o) (link_out_of call 0) outs
  ++ numbered_links 1 (data_target o) (link_out_of call) outs.

(** The arguments the inbound connections give rise to. *)
Definition inbound_arguments (o : Orchestration)
    (ins : list OScriptConnection) : list (string * Z) :=
  omap (λ E, argument_of <$> target_pin o E) (List.filter (data_target o) ins).

(** The return value the outbound connections give rise to. *)
Definition outbound_return (o : Orchestration)
    (outs : list OScriptConnection) : option (bool * Z) :=
  match List.find (data_source o) outs with
  | Some E => (λ q, (true, pin_type q)) <$> source_pin o E
  | None => Some (false, 0)
  end.

(** What a completed extraction of [sel] out of the graph [src] of [o] has
    done. *)
Record extracted (o : Orchestration) (sel : list OScriptNode) (src : string)
    (run : CollapseRun) : Prop := mkExtracted {
  ex_inputs : run_inputs run = inputs (resolve o sel);
  ex_outputs : run_outputs run = outputs (resolve o sel);
  ex_fresh_name : Orchestration.find_function o (run_function run) = None;
  ex_fresh_graph : Orchestration.has_graph o (run_function run) = false;
  ex_entry : run_entry run = Orchestration.get_available_id o;
  ex_result : run_result run = Some (Orchestration.get_available_id o + 1);
  ex_call_node : run_call_node run = Orchestration.get_available_id o + 2;
  ex_pins :
    ∀ E, E ∈ run_inputs run ∨ E ∈ run_outputs run →
         is_Some (source_pin o E) ∧ is_Some (target_pin o E);
  ex_rewired :
    ∀ c, c ∈ _connections (run_rewired run)
         ↔ (c ∈ _connections o ∧ (c ∉ run_inputs run)
            ∧ (c ∉ run_outputs run))
           ∨ c ∈ call_input_links o (run_call_node run) (run_inputs run)
           ∨ c ∈ entry_links o (run_entry run) (run_inputs run)
           ∨ c ∈ result_links o (Orchestration.get_available_id o + 1)
                              (run_outputs run);
  ex_final :
    ∀ c, c ∈ _connections (_orchestration (run_final run))
         ↔ c ∈ _connections (run_rewired run)
           ∨ (pin_free (run_rewired run)
                       (Orchestration.get_available_id o + 1) PD_Input 0
              ∧ pin_free (run_rewired run) (run_entry run) PD_Output 0
              ∧ c = mkConnection (run_entry run) 0
                      (Orchestration.get_available_id o + 1) 0)
           ∨ c ∈ call_output_links o (run_call_node run) (run_outputs run);
  ex_function :
    ∃ fn, Orchestration.find_function (_orchestration (run_final run))
                                      (run_function run) = Some fn
          ∧ owning_node_id fn = run_entry run
          ∧ arguments fn = inbound_arguments o (run_inputs run)
          ∧ Some (has_return_value fn, return_type fn)
            = outbound_return o (run_outputs run);
  ex_functions :
    ∀ g, g ≠ run_function run →
         Orchestration.find_function (_orchestration (run_final run)) g
         = Orchestration.find_function o g;
  ex_ids :
    node_id <$> _nodes (_orchestration (run_final run))
    = (node_id <$> _nodes o)
      ++ [Orchestration.get_available_id o;
          Orchestration.get_available_id o + 1;
          Orchestration.get_available_id o + 2];
  ex_old :
    ∀ id n, Orchestration.get_node o id = Some n →
            Orchestration.get_node (_orchestration (run_final run)) id
            = Some n;
  ex_entry_node :
    node_shape <$> Orchestration.get_node (_orchestration (run_final run))
                                          (run_entry run)
    = Some (entry_node (run_entry run) (run_function run));
  ex_result_node :
    node_shape <$> Orchestration.get_node (_orchestration (run_final run))
                     (Orchestration.get_available_id o + 1)
    = Some (node_shape (result_node (Orchestration.get_available_id o + 1)
                                    (run_function run)));
  ex_call :
    Orchestration.get_node (_orchestration (run_final run))
                           (run_call_node run)
    = Some (call_node (run_call_node run) (run_function run)
                      (Rect2_get_center (_get_node_set_rect sel)));
  ex_graph :
    ∃ rest, sole_graph (_orchestration (run_final run)) (run_function run)
            = Some (Orchestration.get_available_id o
                    :: (Orchestration.get_available_id o + 1) :: rest)
            ∧ (src ≠ run_function run → rest = node_id <$> sel);
  ex_reposition :
    pin_free (run_rewired run) (Orchestration.get_available_id o + 1)
             PD_Input 0 →
    pin_free (run_rewired run) (run_entry run) PD_Output 0 →
    inbound_arguments o (run_inputs run) = [] →
    ∃ en rn,
      Orchestration.get_node (_orchestration (run_final run))
                             (run_entry run) = Some en
      ∧ Orchestration.get_node (_orchestration (run_final run))
                               (Orchestration.get_available_id o + 1)
        = Some rn
      ∧ node_position en
        = Vector2_sub (node_position rn) (mkVector2 250 0);
  ex_graphs :
    graph_name <$> _graphs (_orchestration (run_final run))
    = (graph_name <$> _graphs o) ++ [run_function run]
}.

(** *** The statements about a completed extraction *)




(** *** The statements about a completed inlining *)

(** The copy of [n] with the id [k], moved by [delta]. *)
Definition copy_of (k : Z) (delta : Vector2) (n : OScriptNode) : OScriptNode :=
  with_id k (with_position (Vector2_add (node_position n) delta) n).

(** [c] with its two ends renamed by [node_remap]. *)
Definition remapped (node_remap : gmap Z Z) (c : OScriptConnection)
  : OScriptConnection :=
  mkConnection (remap node_remap (from_node c)) (from_port c)
               (remap node_remap (to_node c)) (to_port c).

(** Both ends of [c] are nodes of [sel]. *)
Definition internal (sel : list OScriptNode) (c : OScriptConnection) : Prop :=
  from_node c ∈ node_id <$> sel ∧ to_node c ∈ node_id <$> sel.

(** The graphs named [graph] own the node [id]. *)
Definition owned_by (o : Orchestration) (graph : string) (id : Z) : Prop :=
  ∀ g, g ∈ _graphs o → graph_name g = graph → id ∈ graph_nodes g.

(** What a completed inlining of the Call node [call] of [o], whose function
    has the graph [function_graph], into the graph [target] has done. *)
Record inlined (o : Orchestration) (call : OScriptNode)
    (function_graph target : string) (run : ExpandRun) : Prop := mkInlined {
  il_selected : expand_selected run = body_nodes o function_graph;
  il_pos_delta :
    expand_pos_delta run
    = Vector2_sub (node_position call)
        (Rect2_get_center (_get_node_set_rect (expand_selected run)));
  il_copies :
    ∀ n, n ∈ expand_selected run →
         ∃ k, expand_node_remap run !! node_id n = Some k
              ∧ Orchestration.get_available_id o ≤ k
              ∧ Orchestration.get_node (_orchestration (expand_final run)) k
                = Some (copy_of k (expand_pos_delta run) n)
              ∧ owned_by (_orchestration (expand_final run)) target k;
  il_distinct :
    NoDup (node_id <$> expand_selected run) →
    ∀ n n', n ∈ expand_selected run → n' ∈ expand_selected run →
            remap (expand_node_remap run) (node_id n)
            = remap (expand_node_remap run) (node_id n') →
            n = n';
  il_links :
    ∀ c, c ∈ _connections o → internal (expand_selected run) c →
         remapped (expand_node_remap run) c
         ∈ _connections (_orchestration (expand_final run));
  il_connections :
    ∀ c', c' ∈ _connections (_orchestration (expand_final run))
          ↔ (c' ∈ _connections o ∧ from_node c' ≠ node_id call
             ∧ to_node c' ≠ node_id call)
            ∨ ∃ c, c ∈ _connections o ∧ internal (expand_selected run) c
                   ∧ c' = remapped (expand_node_remap run) c;
  il_removed :
    Orchestration.get_node (_orchestration (expand_final run)) (node_id call)
    = None;
  il_others :
    ∀ id n, Orchestration.get_node o id = Some n → id ≠ node_id call →
            Orchestration.get_node (_orchestration (expand_final run)) id
            = Some n;
  il_graphs :
    graph_name <$> _graphs (_orchestration (expand_final run))
    = graph_name <$> _graphs o;
  il_functions : _functions (_orchestration (expand_final run)) = _functions o
}.

(** *** Extraction followed by inlining *)

(** The node [id] is one of the copies that the inlining [run] has made of
    the nodes of [sel]. *)
Definition restored (run : ExpandRun) (sel : list OScriptNode) (id : Z)
  : Prop :=
  ∃ n, n ∈ sel ∧ id = remap (expand_node_remap run) (node_id n).

(** The inlining [run] has given back the selection [sel] of [o] to the
    graph [src]: one copy for each selected node, under a fresh id, all
    copies moved by one offset (which is zero); the copies are connected to
    each other as the selected nodes were, and to nothing else. *)
Definition round_trip (o : Orchestration) (sel : list OScriptNode)
    (src : string) (run : ExpandRun) : Prop :=
  let final := _orchestration (expand_final run) in
  let new id := remap (expand_node_remap run) id in
  let delta := expand_pos_delta run in
  expand_selected run = sel
  (* one copy for each selected node *)
  ∧ (∀ n, n ∈ sel →
          Orchestration.get_node o (new (node_id n)) = None
          ∧ Orchestration.get_node final (new (node_id n))
            = Some (copy_of (new (node_id n)) delta n)
          ∧ owned_by final src (new (node_id n)))
  ∧ (∀ n n', n ∈ sel → n' ∈ sel → new (node_id n) = new (node_id n') →
             n = n')
  ∧ Orchestration.has_graph final src = true
  (* the common offset *)
  ∧ (vx delta == 0)%Q ∧ (vy delta == 0)%Q
  (* the same connections between the copies *)
  ∧ (∀ n n' p q, n ∈ sel → n' ∈ sel →
       mkConnection (new (node_id n)) p (new (node_id n')) q
         ∈ _connections final
       ↔ mkConnection (node_id n) p (node_id n') q ∈ _connections o)
  (* no connection between a copy and another node *)
  ∧ (∀ c, c ∈ _connections final →
          restored run sel (from_node c) ↔ restored run sel (to_node c)).

(** ** A worked scenario

    The scenario of the specification: a print node and an add node are
    selected; an external node (an event, which cannot be duplicated)
    triggers the print node, a constant feeds the add node, and the sum goes
    to an external sink. *)

Module Scenario.

Definition data_pin (name : string) : OScriptNodePin := mkPin name 3 false.
Definition exec_pin (name : string) : OScriptNodePin := mkPin name 0 true.

Definition external : OScriptNode :=
  mkNode 1 (mkVector2 0 0) Generic [] [exec_pin "out"] false.
Definition print : OScriptNode :=
  mkNode 2 (mkVector2 100 0) Generic [exec_pin "in"] [exec_pin "out"] true.
Definition constant : OScriptNode :=
  mkNode 3 (mkVector2 0 100) Generic [] [data_pin "value"] true.
Definition add : OScriptNode :=
  mkNode 4 (mkVector2 100 100) Generic [data_pin "a"; data_pin "b"]
         [data_pin "sum"] true.
Definition sink : OScriptNode :=
  mkNode 5 (mkVector2 200 100) Generic [data_pin "x"] [] true.

Definition wires : list OScriptConnection :=
  [mkConnection 1 0 2 0; mkConnection 3 0 4 1; mkConnection 4 0 5 0].

Definition script : Orchestration :=
  mkOrchestration [external; print; constant; add; sink] wires
    [mkGraph "EventGraph" [GF_DEFAULT; GF_EVENT] [1; 2; 3; 4; 5]] [].

Definition view : View := mkView script [].

(** The tab of the event graph with the print and add nodes selected, and
    with nothing selected. *)
Definition tab : OrchestratorGraphEdit := mkGraphEdit "EventGraph" [2; 4].
Definition idle_tab : OrchestratorGraphEdit := mkGraphEdit "EventGraph" [].


(** A name generator good enough for a script without functions. *)
Definition unique_name (base : string) (names : list string) : string :=
  base.

(** The pins as the nodes store them. *)
Definition stored_pins (n : OScriptNode) (d : EPinDirection)
  : list OScriptNodePin :=
  match d with PD_Input => node_inputs n | PD_Output => node_outputs n end.

End Scenario.

(** The scenario after the extraction of the selection of a tab. *)
Definition extraction_of (tab : OrchestratorGraphEdit) : View :=
  match _collapse_selected_to_function Scenario.unique_name tab Scenario.view
  with
  | Done v => v
  | _ => Scenario.view
  end.

(** The Call node and the function that the extraction of [Scenario.tab]
    leaves behind. *)
Definition extracted_call : OScriptNode :=
  call_node 8 "NewFunction"
    (Rect2_get_center (_get_node_set_rect [Scenario.print; Scenario.add])).

Definition extracted_function : OScriptFunction :=
  mkFunction "NewFunction" 6 [("b", 3)] true 3.

(** ** Vocabulary of the further statements *)





(** The Entry node and, when asked for, the Result node of a new function
    named [f], with the ids [a] and [a + 1]. *)
Definition new_function_nodes (a : Z) (f : string) (with_result : bool)
  : list OScriptNode :=
  entry_node a f :: (if with_result then [result_node (a + 1) f] else []).

(** From [o] to [o'] the nodes are the same up to their positions, the
    graphs are the same, and the functions are the same up to their
    signatures. *)
Definition same_shapes (o o' : Orchestration) : Prop :=
  node_shape <$> _nodes o' = node_shape <$> _nodes o
  ∧ _graphs o' = _graphs o
  ∧ function_name <$> _functions o' = function_name <$> _functions o.

(** The log [ev'] is the log [ev] followed by notifications of changed
    nodes, and by nothing else. *)
Definition only_changes (ev ev' : list Event) : Prop :=
  ∃ evs, ev' = ev ++ evs ∧ Forall (λ e, ∃ id, e = NodeChanged id) evs.

(** The scenario with one more graph, which has the name that the name
    generator of the scenario proposes for a new function. *)
Definition taken_view : View :=
  mkView
    (mkOrchestration (_nodes Scenario.script) Scenario.wires
       (_graphs Scenario.script ++ [mkGraph "NewFunction" [GF_DEFAULT] []])
       [])
    [].

(** The ids of the Entry, Result and Call nodes of an extraction out of
    [o]. *)
Definition created_ids (o : Orchestration) : list Z :=
  [Orchestration.get_available_id o; Orchestration.get_available_id o + 1;
   Orchestration.get_available_id o + 2].


(** ** The tabs of the script view *)

(** [Orchestration::get_graph], which is outside these sources: the graph of
    the given name, a null reference when there is none. *)
Definition get_graph (o : Orchestration) (name : string)
  : option OScriptGraph :=
  List.find (λ g, bool_decide (graph_name g = name)) (_graphs o).

(** [OScriptGraph::has_node]. *)
Definition has_node (g : OScriptGraph) (id : Z) : bool :=
  bool_decide (id ∈ graph_nodes g).

(** The editor tab of a graph as a child of the tab container: the name of
    its scene-tree node and the tab itself. *)
Record GraphTab := mkGraphTab {
  tab_name : string;
  tab_edit : OrchestratorGraphEdit
}.

(** A child of the tab container: [Object::cast_to<OrchestratorGraphEdit>]
    succeeds on the first kind only. *)
Inductive TabChild :=
| IsGraphEdit (graph : GraphTab)
| OtherControl.

(** The calls into the tab bar and into the tabs that the view makes. *)
Inductive UiCall :=
| SetCurrentTab (index : Z)
| SetTabIcon (index : Z) (icon : string)
| FocusNode (tab : string) (id : Z).

(** [_tabs]: the children of the tab container, in tab order, and the calls
    made so far. *)
Record Tabs := mkTabs {
  tab_children : list TabChild;
  ui_calls : list UiCall
}.

Definition get_tab_count (t : Tabs) : Z := Z.of_nat (length (tab_children t)).

(** [_tabs->get_child(i)] and [_tabs->get_tab_control(i)]: a null reference
    when the index is out of range. *)
Definition get_tab_control (t : Tabs) (i : Z) : option TabChild :=
  if bool_decide (0 ≤ i) then tab_children t !! Z.to_nat i else None.

Definition cast_to_graph_edit (c : option TabChild) : option GraphTab :=
  match c with Some (IsGraphEdit g) => Some g | _ => None end.

Definition ui_call (c : UiCall) (t : Tabs) : Tabs :=
  mkTabs (tab_children t) (ui_calls t ++ [c]).

Definition add_child (c : TabChild) (t : Tabs) : Tabs :=
  mkTabs (tab_children t ++ [c]) (ui_calls t).

Definition remove_child (i : Z) (t : Tabs) : Tabs :=
  mkTabs (delete (Z.to_nat i) (tab_children t)) (ui_calls t).

Section TabManagement.

(** What the tab functions take from outside these sources:
    [String::match] ([s.match(pattern)]), the constructor of
    [OrchestratorGraphEdit] and its [is_function]. *)
Context (String_match : string → string → bool)
        (new_graph_edit : OScriptGraph → GraphTab)
        (is_function : GraphTab → bool).

(** The loop of [_get_tab_index_by_name], from tab [i] on. *)
Fixpoint tab_index_from (i : Z) (l : list TabChild) (p_name : string) : Z :=
  match l with
  | [] => -1
  | IsGraphEdit graph :: rest =>
      if String_match p_name (tab_name graph) then i
      else tab_index_from (i + 1) rest p_name
  | OtherControl :: rest => tab_index_from (i + 1) rest p_name
  end.

Definition _get_tab_index_by_name (t : Tabs) (p_name : string) : Z :=
  tab_index_from 0 (tab_children t) p_name.

Definition _get_or_create_tab (o : Orchestration) (t : Tabs)
    (p_tab_name : string) (p_focus p_create : bool)
  : option GraphTab * Tabs :=
  (* Lookup graph tab *)
  let tab_index := _get_tab_index_by_name t p_tab_name in
  if bool_decide (0 ≤ tab_index) then
    (* Tab found *)
    let t := if p_focus then ui_call (SetCurrentTab tab_index) t else t in
    (cast_to_graph_edit (get_tab_control t tab_index), t)
  else if negb p_create then (None, t)
  else
    (* Create the graph and add it as a tab *)
    match get_graph o p_tab_name with
    | None => (None, t)
    | Some script_graph =>
        let graph := new_graph_edit script_graph in
        let t := add_child (IsGraphEdit graph) t in
        let tab_icon :=
          if is_function graph then "MemberMethod" else "ClassList" in
        let t :=
          ui_call (SetTabIcon (_get_tab_index_by_name t p_tab_name) tab_icon)
                  t in
        let t :=
          if p_focus then ui_call (SetCurrentTab (get_tab_count t - 1)) t
          else t in
        (Some graph, t)
    end.

Definition _close_tab (t : Tabs) (p_tab_index : Z) : Tabs :=
  match cast_to_graph_edit (get_tab_control t p_tab_index) with
  | Some graph =>
      (* Don't allow closing the main event graph tab *)
      if String_match (tab_name graph) "EventGraph" then t
      else remove_child p_tab_index t
  | None => t
  end.

Definition _on_close_tab_requested (t : Tabs) (p_tab_index : Z) : Tabs :=
  if bool_decide (0 ≤ p_tab_index) && bool_decide (p_tab_index < get_tab_count t)
  then _close_tab t p_tab_index
  else t.

Definition _on_show_graph (o : Orchestration) (t : Tabs)
    (p_graph_name : string) : Tabs :=
  (_get_or_create_tab o t p_graph_name true true).2.

Definition _on_close_graph (t : Tabs) (p_graph_name : string) : Tabs :=
  let tab_index := _get_tab_index_by_name t p_graph_name in
  if bool_decide (0 ≤ tab_index) then _close_tab t tab_index else t.

Definition _on_focus_node (o : Orchestration) (t : Tabs)
    (p_graph_name : string) (p_node_id : Z) : Tabs :=
  match _get_or_create_tab o t p_graph_name true true with
  | (Some graph, t) => ui_call (FocusNode (tab_name graph) p_node_id) t
  | (None, t) => t
  end.

(** The loop of [goto_node] over the graphs. *)
Fixpoint goto_node_in (o : Orchestration) (graphs : list OScriptGraph)
    (t : Tabs) (p_node_id : Z) : Tabs :=
  match graphs with
  | [] => t
  | graph :: rest =>
      if has_node graph p_node_id then
        match _get_or_create_tab o t (graph_name graph) true true with
        | (Some ed_graph, t) =>
            ui_call (FocusNode (tab_name ed_graph) p_node_id) t
        | (None, t) => goto_node_in o rest t p_node_id
        end
      else goto_node_in o rest t p_node_id
  end.

Definition goto_node (o : Orchestration) (t : Tabs) (p_node_id : Z) : Tabs :=
  match Orchestration.get_node o p_node_id with
  | Some node => goto_node_in o (_graphs o) t p_node_id
  | None => t
  end.

(** A request to close a tab, from the tab bar or from a panel. *)
Inductive CloseRequest :=
| CloseIndex (p_tab_index : Z)
| CloseGraph (p_graph_name : string).

Definition close (t : Tabs) (r : CloseRequest) : Tabs :=
  match r with
  | CloseIndex i => _on_close_tab_requested t i
  | CloseGraph name => _on_close_graph t name
  end.

(** The tabs that [_close_tab] protects. *)
Definition event_graph_tabs (t : Tabs) : list GraphTab :=
  omap (λ c, match c with
             | IsGraphEdit graph =>
                 if String_match (tab_name graph) "EventGraph"
                 then Some graph else None
             | OtherControl => None
             end) (tab_children t).

End TabManagement.

(** A stand-in for the three outside functions: names match when they are
    equal, and a new tab takes the name of its graph. *)
Definition plain_match (s pattern : string) : bool := String.eqb s pattern.

Definition plain_graph_edit (g : OScriptGraph) : GraphTab :=
  mkGraphTab (graph_name g) (mkGraphEdit (graph_name g) []).

Definition plain_is_function (g : GraphTab) : bool := false.

(** * Properties *)

(** ** Sets as duplicate-free lists *)

Lemma set_insert_elem (E c : OScriptConnection) s :
  c ∈ set_insert E s ↔ c ∈ s ∨ c = E.
Proof.
  unfold set_insert. destruct (decide (E ∈ s)) as [Hin|Hin].
  - split; [auto|]. intros [?| ->]; auto.
  - rewrite elem_of_app, list_elem_of_singleton. tauto.
Qed.

Lemma set_insert_NoDup (E : OScriptConnection) s :
  NoDup s → NoDup (set_insert E s).
Proof.
  intros Hs. unfold set_insert. destruct (decide (E ∈ s)); [done|].
  apply NoDup_app. split_and!; [done| |apply NoDup_singleton].
  intros x Hx ->%list_elem_of_singleton. done.
Qed.

Lemma set_insert_fresh (E : OScriptConnection) s :
  E ∉ s → set_insert E s = s ++ [E].
Proof. intros. unfold set_insert. by rewrite decide_False. Qed.

(** ** The classifier: the pass over the selected nodes *)

Section ClassifierFacts.

Context (find_pins : OScriptNode → EPinDirection → list OScriptNodePin)
        (get_connections : OScriptNode → EPinDirection → nat → list PinRef)
        (conns : list OScriptConnection).

Lemma bump_buckets d e r : same_buckets r (bump d e r).
Proof. by destruct d, e. Qed.

Lemma same_buckets_trans r1 r2 r3 :
  same_buckets r1 r2 → same_buckets r2 r3 → same_buckets r1 r3.
Proof. intros (?&?&?) (?&?&?). split_and!; congruence. Qed.

Lemma scan_pin_buckets p d e peers r :
  same_buckets r (scan_pin p d e peers r).
Proof.
  revert r. induction peers as [|E peers IH]; intros r; [done|].
  simpl. eapply same_buckets_trans; [|apply IH].
  destruct (nodes_has p E.1); [done|apply bump_buckets].
Qed.

Lemma scan_pins_buckets p n d r :
  same_buckets r (scan_pins find_pins get_connections p n d r).
Proof.
  unfold scan_pins. generalize (imap (λ i q, (i, q)) (find_pins n d)).
  intros l. revert r. induction l as [|x l IH]; intros r; [done|].
  simpl. eapply same_buckets_trans; [|apply IH]. apply scan_pin_buckets.
Qed.

Lemma resolve_nodes_buckets p l m r :
  same_buckets r
    (foldl (resolve_node find_pins get_connections p) (m, r) l).2.
Proof.
  revert m r. induction l as [|n l IH]; intros m r; [done|].
  simpl. destruct (resolve_node find_pins get_connections p (m, r) n)
    as [m' r'] eqn:Hn.
  injection Hn as _ <-. eapply same_buckets_trans; [|apply IH]. simpl.
  eapply same_buckets_trans; apply scan_pins_buckets.
Qed.

Lemma resolve_nodes_map p l m r id :
  is_Some ((foldl (resolve_node find_pins get_connections p) (m, r) l).1 !! id)
  ↔ is_Some (m !! id) ∨ id ∈ node_id <$> l.
Proof.
  revert m r. induction l as [|n l IH]; intros m r; simpl.
  - rewrite elem_of_nil. tauto.
  - destruct (resolve_node find_pins get_connections p (m, r) n)
      as [m' r'] eqn:Hn.
    injection Hn as <- _. rewrite IH, elem_of_cons, lookup_insert_is_Some.
    simpl. destruct (decide (node_id n = id)); intuition congruence.
Qed.

Lemma resolve_nodes_has p r id :
  map_has (foldl (resolve_node find_pins get_connections p) (∅, r) p).1 id
  = nodes_has p id.
Proof.
  unfold map_has, nodes_has. apply bool_decide_ext.
  rewrite resolve_nodes_map, lookup_empty. split; [intros [[? [=]]|]|]; auto.
Qed.

(** *** The pass over the Orchestration's connections *)

(** The three bucket tests as predicates on a connection. *)
Lemma resolve_connection_counters m r E d e :
  counter d e (resolve_connection m r E) = counter d e r.
Proof.
  unfold resolve_connection.
  destruct (map_has m (from_node E)), (map_has m (to_node E)), d, e; done.
Qed.

Lemma resolve_connections_counters m l r d e :
  counter d e (foldl (resolve_connection m) r l) = counter d e r.
Proof.
  revert r. induction l as [|E l IH]; intros r; [done|]. simpl.
  by rewrite IH, resolve_connection_counters.
Qed.

Lemma resolve_connection_step m r E :
  let f := map_has m (from_node E) in
  let t := map_has m (to_node E) in
  connections (resolve_connection m r E)
    = (if f && t then set_insert E (connections r) else connections r)
  ∧ inputs (resolve_connection m r E)
    = (if negb f && t then set_insert E (inputs r) else inputs r)
  ∧ outputs (resolve_connection m r E)
    = (if f && negb t then set_insert E (outputs r) else outputs r).
Proof.
  unfold resolve_connection.
  destruct (map_has m (from_node E)), (map_has m (to_node E)); done.
Qed.

Lemma resolve_connections_elem m l r c :
  (c ∈ connections (foldl (resolve_connection m) r l)
     ↔ c ∈ connections r
       ∨ (c ∈ l ∧ map_has m (from_node c) = true ∧ map_has m (to_node c) = true))
  ∧ (c ∈ inputs (foldl (resolve_connection m) r l)
     ↔ c ∈ inputs r
       ∨ (c ∈ l ∧ map_has m (from_node c) = false ∧ map_has m (to_node c) = true))
  ∧ (c ∈ outputs (foldl (resolve_connection m) r l)
     ↔ c ∈ outputs r
       ∨ (c ∈ l ∧ map_has m (from_node c) = true ∧ map_has m (to_node c) = false)).
Proof.
  revert r. induction l as [|E l IH]; intros r; simpl.
  - rewrite !elem_of_nil. tauto.
  - destruct (IH (resolve_connection m r E)) as (I1 & I2 & I3).
    rewrite I1, I2, I3.
    destruct (resolve_connection_step m r E) as (-> & -> & ->).
    rewrite !elem_of_cons.
    destruct (map_has m (from_node E)) eqn:Hf, (map_has m (to_node E)) eqn:Ht;
      simpl; rewrite ?set_insert_elem;
      intuition (subst; try congruence; auto).
Qed.

Lemma resolve_connections_NoDup m l r :
  NoDup (connections r) → NoDup (inputs r) → NoDup (outputs r) →
  NoDup (connections (foldl (resolve_connection m) r l))
  ∧ NoDup (inputs (foldl (resolve_connection m) r l))
  ∧ NoDup (outputs (foldl (resolve_connection m) r l)).
Proof.
  revert r. induction l as [|E l IH]; intros r H1 H2 H3; [done|]. simpl.
  destruct (resolve_connection_step m r E) as (E1 & E2 & E3).
  apply IH; [rewrite E1|rewrite E2|rewrite E3];
    match goal with |- NoDup (if ?b then _ else _) => destruct b end;
    auto using set_insert_NoDup.
Qed.

End ClassifierFacts.

(** The three buckets, by membership. *)
Lemma resolve_buckets_elem
    (find_pins : OScriptNode → EPinDirection → list OScriptNodePin)
    (get_connections : OScriptNode → EPinDirection → nat → list PinRef)
    (conns : list OScriptConnection) (p_nodes : list OScriptNode) :
  let r := _resolve_node_set_connections find_pins get_connections conns
             p_nodes NodeSetConnections_default in
  let selected id := id ∈ node_id <$> p_nodes in
  (∀ c, c ∈ connections r
        ↔ c ∈ conns ∧ selected (from_node c) ∧ selected (to_node c))
  ∧ (∀ c, c ∈ inputs r
          ↔ c ∈ conns ∧ ¬ selected (from_node c) ∧ selected (to_node c))
  ∧ (∀ c, c ∈ outputs r
          ↔ c ∈ conns ∧ selected (from_node c) ∧ ¬ selected (to_node c)).
Proof.
  intros r selected.
  assert (Hb : ∀ id, map_has
     (foldl (resolve_node find_pins get_connections p_nodes)
            (∅, NodeSetConnections_default) p_nodes).1 id = true ↔ selected id).
  { intros id. rewrite resolve_nodes_has. unfold nodes_has.
    by rewrite bool_decide_eq_true. }
  assert (Hb' : ∀ id, map_has
     (foldl (resolve_node find_pins get_connections p_nodes)
            (∅, NodeSetConnections_default) p_nodes).1 id = false ↔ ¬ selected id).
  { intros id. rewrite <- Hb. by destruct (map_has _ id). }
  destruct (resolve_nodes_buckets find_pins get_connections p_nodes p_nodes ∅
              NodeSetConnections_default) as (B1 & B2 & B3). simpl in B1, B2, B3.
  assert (H1 : ∀ c, c ∈ connections r
                ↔ c ∈ conns ∧ selected (from_node c) ∧ selected (to_node c)).
  { intros c. unfold r, _resolve_node_set_connections.
    rewrite (proj1 (resolve_connections_elem _ _ _ c)), B1, !Hb, elem_of_nil.
    tauto. }
  assert (H2 : ∀ c, c ∈ inputs r
                ↔ c ∈ conns ∧ ¬ selected (from_node c) ∧ selected (to_node c)).
  { intros c. unfold r, _resolve_node_set_connections.
    rewrite (proj1 (proj2 (resolve_connections_elem _ _ _ c))), B2, Hb, Hb',
      elem_of_nil. tauto. }
  assert (H3 : ∀ c, c ∈ outputs r
                ↔ c ∈ conns ∧ selected (from_node c) ∧ ¬ selected (to_node c)).
  { intros c. unfold r, _resolve_node_set_connections.
    rewrite (proj2 (proj2 (resolve_connections_elem _ _ _ c))), B3, Hb, Hb',
      elem_of_nil. tauto. }
  done.
Qed.

(** C4: the three buckets of the boundary classifier are exactly the
    connections of the Orchestration with both ends selected, with only the
    destination selected, and with only the source selected; no connection is
    in two buckets, the union of the buckets is exactly the set of connections
    with a selected end, and no bucket lists a connection twice. *)
Theorem classification_partition
    (find_pins : OScriptNode → EPinDirection → list OScriptNodePin)
    (get_connections : OScriptNode → EPinDirection → nat → list PinRef)
    (conns : list OScriptConnection) (p_nodes : list OScriptNode) :
  let r := _resolve_node_set_connections find_pins get_connections conns
             p_nodes NodeSetConnections_default in
  let selected id := id ∈ node_id <$> p_nodes in
  (∀ c, c ∈ connections r
        ↔ c ∈ conns ∧ selected (from_node c) ∧ selected (to_node c))
  ∧ (∀ c, c ∈ inputs r
          ↔ c ∈ conns ∧ ¬ selected (from_node c) ∧ selected (to_node c))
  ∧ (∀ c, c ∈ outputs r
          ↔ c ∈ conns ∧ selected (from_node c) ∧ ¬ selected (to_node c))
  ∧ (∀ c, ¬ (c ∈ connections r ∧ c ∈ inputs r)
          ∧ ¬ (c ∈ connections r ∧ c ∈ outputs r)
          ∧ ¬ (c ∈ inputs r ∧ c ∈ outputs r))
  ∧ (∀ c, c ∈ connections r ∨ c ∈ inputs r ∨ c ∈ outputs r
          ↔ c ∈ conns ∧ (selected (from_node c) ∨ selected (to_node c)))
  ∧ NoDup (connections r) ∧ NoDup (inputs r) ∧ NoDup (outputs r).
Proof.
  intros r selected.
  destruct (resolve_buckets_elem find_pins get_connections conns p_nodes)
    as (H1 & H2 & H3). fold r selected in H1, H2, H3.
  destruct (resolve_nodes_buckets find_pins get_connections p_nodes p_nodes ∅
              NodeSetConnections_default) as (B1 & B2 & B3). simpl in B1, B2, B3.
  split_and!; try done.
  - intros c. rewrite H1, H2, H3. tauto.
  - intros c. rewrite H1, H2, H3.
    destruct (decide (selected (from_node c))), (decide (selected (to_node c)));
      tauto.
  - unfold r, _resolve_node_set_connections.
    apply resolve_connections_NoDup; rewrite ?B1, ?B2, ?B3; apply NoDup_nil_2.
  - unfold r, _resolve_node_set_connections.
    apply resolve_connections_NoDup; rewrite ?B1, ?B2, ?B3; apply NoDup_nil_2.
  - unfold r, _resolve_node_set_connections.
    apply resolve_connections_NoDup; rewrite ?B1, ?B2, ?B3; apply NoDup_nil_2.
Qed.

(** ** The bounds calculator *)

Lemma real_lt_spec (a b : Q) :
  (real_lt a b = true ∧ (a < b)%Q) ∨ (real_lt a b = false ∧ (b <= a)%Q).
Proof.
  unfold real_lt. destruct (Qle_bool b a) eqn:H; simpl.
  - right. split; [done|]. by apply Qle_bool_iff.
  - left. split; [done|]. apply Qnot_le_lt. intros H'%Qle_bool_iff. congruence.
Qed.

Ltac real_cases :=
  repeat match goal with
  | |- context [real_lt ?a ?b] =>
      let H := fresh "H" in
      destruct (real_lt_spec a b) as [[-> H]|[-> H]]
  end.

Lemma expand_to_size r p : nonnegative_size r → nonnegative_size (Rect2_expand_to r p).
Proof.
  destruct r as [[px py] [sx sy]], p as [x y].
  unfold nonnegative_size, Rect2_expand_to. simpl. intros [? ?].
  real_cases; simpl; split; lra.
Qed.




Lemma expand_all_size l r :
  nonnegative_size r →
  nonnegative_size (foldl (λ area E, Rect2_expand_to area (node_position E)) r l).
Proof.
  revert r. induction l as [|n l IH]; intros r Hr; [done|].
  simpl. apply IH. by apply expand_to_size.
Qed.






(** ** The classifier: the counters of the pass over the pins *)

Lemma sum_list_with_add {A} (f g : A → nat) (l : list A) :
  sum_list_with (λ x, f x + g x)%nat l
  = (sum_list_with f l + sum_list_with g l)%nat.
Proof. induction l as [|x l IH]; simpl; [done|]. rewrite IH. lia. Qed.

Lemma sum_list_with_ext_in {A} (f g : A → nat) (l : list A) :
  (∀ x, x ∈ l → f x = g x) → sum_list_with f l = sum_list_with g l.
Proof.
  induction l as [|x l IH]; intros H; simpl; [done|].
  rewrite (H x), IH; [done| |apply elem_of_cons; by left].
  intros y Hy. apply H, elem_of_cons. by right.
Qed.

Lemma sum_list_with_zero {A} (f : A → nat) (l : list A) :
  (∀ x, x ∈ l → f x = 0%nat) → sum_list_with f l = 0%nat.
Proof.
  induction l as [|x l IH]; intros H; simpl; [done|].
  rewrite (H x), IH; [done| |apply elem_of_cons; by left].
  intros y Hy. apply H, elem_of_cons. by right.
Qed.

(** A sum with a single non-zero term. *)
Lemma sum_list_with_single {A} (f : A → nat) (l : list A) (x : A) :
  NoDup l → x ∈ l → (∀ y, y ∈ l → y ≠ x → f y = 0%nat) →
  sum_list_with f l = f x.
Proof.
  induction l as [|a l IH]; intros Hnd Hx Hz; [by apply elem_of_nil in Hx|].
  apply NoDup_cons in Hnd as [Ha Hnd]. simpl.
  apply elem_of_cons in Hx as [->|Hx].
  - rewrite sum_list_with_zero; [lia|]. intros y Hy. apply Hz.
    + apply elem_of_cons. by right.
    + intros ->. done.
  - rewrite IH; [|done|done|].
    + rewrite (Hz a); [done|apply elem_of_cons; by left|]. intros ->. done.
    + intros y Hy. apply Hz, elem_of_cons. by right.
Qed.

Section Counters.

Context (find_pins : OScriptNode → EPinDirection → list OScriptNodePin)
        (get_connections : OScriptNode → EPinDirection → nat → list PinRef)
        (conns : list OScriptConnection) (p : list OScriptNode).

Lemma counter_bump d e d' e' r :
  counter d' e' (bump d e r)
  = counter d' e' r + (if bool_decide (d = d' ∧ e = e') then 1 else 0).
Proof. destruct d, e, d', e'; simpl; lia. Qed.

Lemma scan_pin_counter d e peers d' e' r :
  counter d' e' (scan_pin p d e peers r)
  = counter d' e' r
    + (if bool_decide (d = d' ∧ e = e')
       then Z.of_nat (outside_peers p peers) else 0).
Proof.
  unfold outside_peers. revert r.
  induction peers as [|E peers IH]; intros r; simpl.
  - case_bool_decide; simpl; lia.
  - rewrite IH. unfold nodes_has. rewrite filter_cons.
    destruct (decide (E.1 ∉ (node_id <$> p))) as [Hout|Hin].
    + rewrite (bool_decide_eq_false_2 (E.1 ∈ _)) by done.
      rewrite counter_bump.
      case_bool_decide; simpl; lia.
    + rewrite (bool_decide_eq_true_2 (E.1 ∈ _)) by (by apply dec_stable).
      done.
Qed.

Lemma scan_pins_counter n d d' e' r :
  counter d' e' (scan_pins find_pins get_connections p n d r)
  = counter d' e' r
    + (if bool_decide (d = d') then Z.of_nat (node_crossings find_pins get_connections p d e' n) else 0).
Proof.
  unfold scan_pins, node_crossings.
  generalize (imap (λ i q, (i, q)) (find_pins n d)). intros l. revert r.
  induction l as [|ip l IH]; intros r; simpl.
  - case_bool_decide; lia.
  - rewrite IH, scan_pin_counter.
    repeat case_bool_decide; try lia; exfalso; intuition congruence.
Qed.

Lemma resolve_nodes_counter l m r d e :
  counter d e
    (foldl (resolve_node find_pins get_connections p) (m, r) l).2
  = counter d e r + Z.of_nat (sum_list_with (node_crossings find_pins get_connections p d e) l).
Proof.
  revert m r. induction l as [|n l IH]; intros m r; simpl; [lia|].
  destruct (resolve_node find_pins get_connections p (m, r) n)
    as [m' r'] eqn:Hn.
  injection Hn as _ <-. rewrite IH. simpl. rewrite !scan_pins_counter.
  destruct d; simpl; lia.
Qed.

End Counters.

(** ** The classifier: the two passes count the same crossings *)

Lemma NoDup_imap_pair {A} (l : list A) : NoDup (imap (λ i q, (i, q)) l).
Proof.
  apply NoDup_alt. intros i j x Hi Hj.
  rewrite list_lookup_imap in Hi, Hj.
  destruct (l !! i); [|done]. destruct (l !! j); [|done].
  simpl in *. congruence.
Qed.

Lemma NoDup_fmap_elem_inj {A B} (f : A → B) (l : list A) x y :
  NoDup (f <$> l) → x ∈ l → y ∈ l → f x = f y → x = y.
Proof.
  induction l as [|a l IH]; intros Hnd Hx Hy Hf; [by apply elem_of_nil in Hx|].
  rewrite fmap_cons in Hnd. apply NoDup_cons in Hnd as [Ha Hnd].
  apply elem_of_cons in Hx as [->|Hx]; apply elem_of_cons in Hy as [->|Hy];
    auto.
  - destruct Ha. rewrite Hf. apply list_elem_of_fmap. eauto.
  - destruct Ha. rewrite <- Hf. apply list_elem_of_fmap. eauto.
Qed.

Lemma find_has_id_Some p id n :
  List.find (has_id id) p = Some n → n ∈ p ∧ node_id n = id.
Proof.
  intros [Hin Hid]%find_some. split; [by apply list_elem_of_In|].
  unfold has_id in Hid. by apply bool_decide_eq_true in Hid.
Qed.

Lemma find_has_id_None p id :
  List.find (has_id id) p = None ↔ id ∉ (node_id <$> p).
Proof.
  split.
  - intros Hnone (n & -> & Hn)%list_elem_of_fmap.
    apply list_elem_of_In in Hn.
    pose proof (find_none _ _ Hnone n Hn) as Hf. unfold has_id in Hf.
    by rewrite bool_decide_eq_true_2 in Hf.
  - intros Hnot. destruct (List.find (has_id id) p) as [n|] eqn:Hf; [|done].
    apply find_has_id_Some in Hf as [Hin <-]. destruct Hnot.
    apply list_elem_of_fmap. eauto.
Qed.

Lemma find_has_id_unique p n :
  NoDup (node_id <$> p) → n ∈ p → List.find (has_id (node_id n)) p = Some n.
Proof.
  intros Hnd Hn. destruct (List.find (has_id (node_id n)) p) as [n'|] eqn:Hf.
  - apply find_has_id_Some in Hf as [Hin Hid]. f_equal.
    eapply (NoDup_fmap_elem_inj node_id); eauto.
  - apply find_has_id_None in Hf. destruct Hf. apply list_elem_of_fmap. eauto.
Qed.

Lemma outside_connected_pins p conns id d i :
  outside_peers p (connected_pins conns id d i)
  = length (filter (λ c, (inner_node d c = id ∧ inner_port d c = i)
                         ∧ outer_node d c ∉ (node_id <$> p)) conns).
Proof.
  unfold outside_peers, connected_pins.
  induction conns as [|c conns IH]; [done|].
  rewrite !filter_cons.
  destruct (decide (inner_node d c = id ∧ inner_port d c = i)) as [Hc|Hc].
  - rewrite fmap_cons, filter_cons. simpl.
    destruct (decide (outer_node d c ∉ (node_id <$> p))).
    + rewrite decide_True by done. simpl. by rewrite IH.
    + rewrite decide_False by tauto. done.
  - rewrite decide_False by tauto. done.
Qed.

Lemma indicator_ext (P Q : Prop) `{!Decision P, !Decision Q} :
  (P ↔ Q) →
  (if bool_decide P then 1%nat else 0%nat)
  = (if bool_decide Q then 1%nat else 0%nat).
Proof. intros H. by rewrite (bool_decide_ext P Q H). Qed.

Lemma indicator_zero (P : Prop) `{!Decision P} :
  ¬ P → (if bool_decide P then 1%nat else 0%nat) = 0%nat.
Proof. intros H. by rewrite bool_decide_eq_false_2. Qed.

Section TwoPasses.

Context (find_pins : OScriptNode → EPinDirection → list OScriptNodePin)
        (p : list OScriptNode).
Context (Hnd : NoDup (node_id <$> p)).
Context (d : EPinDirection) (e : bool).

(** One connection is counted at one pin of one node, or nowhere. *)
Lemma pin_crossing_pins c n :
  n ∈ p →
  (inner_node d c = node_id n →
   (inner_port d c < length (find_pins n d))%nat) →
  sum_list_with (pin_crossing p d e c n)
                (imap (λ i q, (i, q)) (find_pins n d))
  = if bool_decide (inner_node d c = node_id n ∧ crossing find_pins p d e c)
    then 1%nat else 0%nat.
Proof.
  intros Hn Hport.
  destruct (decide (inner_node d c = node_id n
                    ∧ outer_node d c ∉ (node_id <$> p))) as [[Hid Hout]|Hno].
  - destruct (lookup_lt_is_Some_2 (find_pins n d) (inner_port d c))
      as [q Hq]; [auto|].
    rewrite (sum_list_with_single _ _ (inner_port d c, q)).
    + unfold pin_crossing. apply indicator_ext.
      unfold crossing, inside_pin. simpl.
      rewrite Hid, (find_has_id_unique p n Hnd Hn). simpl. rewrite Hq. simpl.
      intuition congruence.
    + apply NoDup_imap_pair.
    + by apply (elem_of_lookup_imap_2 (λ i q, (i, q))).
    + intros [j q'] (i & y & [= -> ->] & Hy)%elem_of_lookup_imap Hne.
      unfold pin_crossing. simpl. apply indicator_zero.
      intros (_ & (_ & Hp) & _). subst. congruence.
  - rewrite sum_list_with_zero.
    + rewrite bool_decide_eq_false_2; [done|]. unfold crossing. tauto.
    + intros ip _. unfold pin_crossing. apply indicator_zero. tauto.
Qed.

(** Summed over the selected nodes, a connection counts once if it crosses
    the boundary at a pin of kind [e], and does not count otherwise. *)
Lemma pin_crossing_nodes c :
  (∀ n, n ∈ p → inner_node d c = node_id n →
        (inner_port d c < length (find_pins n d))%nat) →
  sum_list_with
    (λ n, sum_list_with (pin_crossing p d e c n)
                        (imap (λ i q, (i, q)) (find_pins n d))) p
  = if bool_decide (crossing find_pins p d e c) then 1%nat else 0%nat.
Proof.
  intros Hport.
  destruct (List.find (has_id (inner_node d c)) p) as [n0|] eqn:Hf.
  - apply find_has_id_Some in Hf as [Hn0 Hid].
    rewrite (sum_list_with_single _ _ n0);
      [|by eapply NoDup_fmap_1|done|].
    + rewrite pin_crossing_pins by auto.
      apply indicator_ext. intuition.
    + intros n Hn Hne. rewrite pin_crossing_pins by auto.
      apply indicator_zero. intros [Hid' _]. apply Hne.
      eapply (NoDup_fmap_elem_inj node_id); eauto. congruence.
  - rewrite sum_list_with_zero.
    + rewrite bool_decide_eq_false_2; [done|].
      unfold crossing, inside_pin. rewrite Hf. simpl. intros [_ [=]].
    + intros n Hn. rewrite pin_crossing_pins; [|done|auto].
      apply indicator_zero. intros [Hid _].
      apply find_has_id_None in Hf. apply Hf, list_elem_of_fmap. eauto.
Qed.

(** The pin pass over derived back-references, unfolded connection by
    connection. *)
Lemma crossings_by_connection cs :
  (∀ n c, n ∈ p → c ∈ cs → inner_node d c = node_id n →
          (inner_port d c < length (find_pins n d))%nat) →
  sum_list_with
    (node_crossings find_pins (λ n, connected_pins cs (node_id n)) p d e) p
  = length (filter (crossing find_pins p d e) cs).
Proof.
  induction cs as [|c cs IH]; intros Hport.
  - apply sum_list_with_zero. intros n _. unfold node_crossings.
    apply sum_list_with_zero. intros ip _. by case_bool_decide.
  - rewrite filter_cons.
    transitivity
      (sum_list_with
         (λ n, sum_list_with (pin_crossing p d e c n)
                             (imap (λ i q, (i, q)) (find_pins n d))
               + node_crossings find_pins
                   (λ n, connected_pins cs (node_id n)) p d e n)%nat p).
    + apply sum_list_with_ext_in. intros n Hn. unfold node_crossings.
      rewrite <- sum_list_with_add. apply sum_list_with_ext_in.
      intros ip _. rewrite !outside_connected_pins, filter_cons.
      unfold pin_crossing.
      destruct (decide (is_execution ip.2 = e)) as [He|He].
      * rewrite (bool_decide_eq_true_2 (is_execution _ = _)) by done.
        case_decide.
        -- rewrite bool_decide_eq_true_2 by tauto. done.
        -- rewrite bool_decide_eq_false_2 by tauto. done.
      * rewrite (bool_decide_eq_false_2 (is_execution _ = _)) by done.
        rewrite bool_decide_eq_false_2 by tauto. done.
    + rewrite sum_list_with_add, IH, pin_crossing_nodes.
      * case_decide.
        -- rewrite bool_decide_eq_true_2 by done. done.
        -- rewrite bool_decide_eq_false_2 by done. done.
      * intros n Hn. apply Hport; [done|]. apply elem_of_cons. by left.
      * intros n c' Hn Hc'. apply Hport; [done|]. apply elem_of_cons.
        by right.
Qed.

End TwoPasses.

Section Buckets.

Context (conns : list OScriptConnection) (m : gmap Z OScriptNode).

(** On a duplicate-free connection list a bucket is a filter of the list:
    the order of the Orchestration's connections is kept. *)
Lemma insert_filtered (P : OScriptConnection → bool) l s :
  NoDup l → (∀ c, c ∈ l → c ∉ s) →
  foldl (λ s E, if P E then set_insert E s else s) s l
  = s ++ List.filter P l.
Proof.
  revert s. induction l as [|E l IH]; intros s Hnd Hs; simpl.
  - by rewrite app_nil_r.
  - apply NoDup_cons in Hnd as [HE Hnd]. destruct (P E).
    + rewrite IH; [|done|].
      * rewrite set_insert_fresh by (apply Hs, elem_of_cons; by left).
        by rewrite <- app_assoc.
      * intros c Hc. rewrite set_insert_elem. intros [Hin| ->]; [|done].
        eapply Hs; [|done]. apply elem_of_cons. by right.
    + apply IH; [done|]. intros c Hc. apply Hs, elem_of_cons. by right.
Qed.

Lemma resolve_connections_fold l r :
  connections (foldl (resolve_connection m) r l)
  = foldl (λ s E, if map_has m (from_node E) && map_has m (to_node E)
                  then set_insert E s else s) (connections r) l
  ∧ inputs (foldl (resolve_connection m) r l)
    = foldl (λ s E, if negb (map_has m (from_node E)) && map_has m (to_node E)
                    then set_insert E s else s) (inputs r) l
  ∧ outputs (foldl (resolve_connection m) r l)
    = foldl (λ s E, if map_has m (from_node E) && negb (map_has m (to_node E))
                    then set_insert E s else s) (outputs r) l.
Proof.
  revert r. induction l as [|E l IH]; intros r; [done|]. simpl.
  destruct (IH (resolve_connection m r E)) as (-> & -> & ->).
  by destruct (resolve_connection_step m r E) as (-> & -> & ->).
Qed.

End Buckets.

(** The buckets of the classifier, in closed form. *)
Lemma resolve_buckets_filter find_pins get_connections conns p :
  NoDup conns →
  let r := _resolve_node_set_connections find_pins get_connections conns p
             NodeSetConnections_default in
  connections r
    = List.filter (λ c, nodes_has p (from_node c) && nodes_has p (to_node c))
                  conns
  ∧ inputs r
    = List.filter (λ c, negb (nodes_has p (from_node c))
                        && nodes_has p (to_node c)) conns
  ∧ outputs r
    = List.filter (λ c, nodes_has p (from_node c)
                        && negb (nodes_has p (to_node c))) conns.
Proof.
  intros Hnd r. unfold r, _resolve_node_set_connections.
  destruct (resolve_nodes_buckets find_pins get_connections p p ∅
              NodeSetConnections_default) as (B1 & B2 & B3).
  simpl in B1, B2, B3.
  destruct (resolve_connections_fold
    (foldl (resolve_node find_pins get_connections p)
           (∅, NodeSetConnections_default) p).1 conns
    (foldl (resolve_node find_pins get_connections p)
           (∅, NodeSetConnections_default) p).2) as (-> & -> & ->).
  rewrite B1, B2, B3.
  rewrite !insert_filtered; try done; try (intros ? _; apply not_elem_of_nil).
  simpl. split_and!; apply List.filter_ext; intros c;
    by rewrite !resolve_nodes_has.
Qed.

Lemma length_filter_filter {A} (P Q : A → Prop) `{!∀ x, Decision (P x)}
    `{!∀ x, Decision (Q x)} (b : A → bool) (l : list A) :
  (∀ x, x ∈ l → P x ∧ b x = true ↔ Q x) →
  length (filter P (List.filter b l)) = length (filter Q l).
Proof.
  induction l as [|x l IH]; intros Hiff; [done|]. simpl.
  assert (Hx := Hiff x ltac:(apply elem_of_cons; by left)).
  assert (IH' : length (filter P (List.filter b l)) = length (filter Q l)).
  { apply IH. intros y Hy. apply Hiff, elem_of_cons. by right. }
  rewrite (filter_cons Q). destruct (b x).
  - rewrite filter_cons. destruct (decide (P x)), (decide (Q x));
      simpl; try (exfalso; tauto); by rewrite IH'.
  - rewrite decide_False; [done|]. intros HQ. apply Hx in HQ as [_ [=]].
Qed.

Lemma length_split_kinds {A} (f : A → option bool) (l : list A) :
  (∀ x, x ∈ l → is_Some (f x)) →
  length l = (length (filter (λ x, f x = Some true) l)
              + length (filter (λ x, f x = Some false) l))%nat.
Proof.
  induction l as [|x l IH]; intros H; [done|].
  rewrite !filter_cons. simpl. rewrite IH.
  - destruct (H x) as [[|] Hx]; [apply elem_of_cons; by left| |];
      rewrite Hx; repeat case_decide; try congruence; simpl; lia.
  - intros y Hy. apply H, elem_of_cons. by right.
Qed.

Lemma bucket_filter find_pins get_connections conns p d :
  NoDup conns →
  bucket d (_resolve_node_set_connections find_pins get_connections conns p
              NodeSetConnections_default)
  = List.filter (λ c, negb (nodes_has p (outer_node d c))
                      && nodes_has p (inner_node d c)) conns.
Proof.
  intros Hnd.
  destruct (resolve_buckets_filter find_pins get_connections conns p Hnd)
    as (_ & Hi & Ho).
  destruct d; simpl; [done|]. rewrite Ho. apply List.filter_ext. intros c.
  apply andb_comm.
Qed.

(** C10: when the back-references of the pins agree with the
    Orchestration's connection list, each of the four counters of the pin
    pass is the number of connections of the matching bucket whose inside
    pin has the matching kind, and the counters of a direction add up to the
    size of its bucket. *)
Theorem counters_agree_with_buckets
    (find_pins : OScriptNode → EPinDirection → list OScriptNodePin)
    (get_connections : OScriptNode → EPinDirection → nat → list PinRef)
    (conns : list OScriptConnection) (p_nodes : list OScriptNode) :
  consistent_backrefs find_pins get_connections conns p_nodes →
  let r := _resolve_node_set_connections find_pins get_connections conns
             p_nodes NodeSetConnections_default in
  let kind d c := is_execution <$> inside_pin find_pins p_nodes d c in
  input_executions r
    = Z.of_nat (length (filter (λ c, kind PD_Input c = Some true) (inputs r)))
  ∧ input_data r
    = Z.of_nat (length (filter (λ c, kind PD_Input c = Some false) (inputs r)))
  ∧ output_executions r
    = Z.of_nat (length (filter (λ c, kind PD_Output c = Some true) (outputs r)))
  ∧ output_data r
    = Z.of_nat (length (filter (λ c, kind PD_Output c = Some false) (outputs r)))
  ∧ input_executions r + input_data r = Z.of_nat (length (inputs r))
  ∧ output_executions r + output_data r = Z.of_nat (length (outputs r)).
Proof.
  intros (Hconns & Hids & Hrefs & Hports) r kind.
  assert (Hcount : ∀ d e,
    counter d e r
    = Z.of_nat (length (filter (λ c, kind d c = Some e) (bucket d r)))).
  { intros d e. unfold r at 1, _resolve_node_set_connections.
    rewrite resolve_connections_counters, resolve_nodes_counter.
    replace (counter d e NodeSetConnections_default) with 0 by by destruct d, e.
    rewrite Z.add_0_l. f_equal.
    rewrite (sum_list_with_ext_in _
      (node_crossings find_pins (λ n, connected_pins conns (node_id n))
                      p_nodes d e)).
    - rewrite (crossings_by_connection find_pins p_nodes Hids d e conns)
        by (intros; eapply Hports; eauto).
      unfold r. rewrite bucket_filter by done. symmetry.
      apply length_filter_filter. intros c _. unfold crossing, kind, nodes_has.
      rewrite andb_true_iff, negb_true_iff, bool_decide_eq_false,
        bool_decide_eq_true.
      split; [tauto|]. intros [Hout Hk]. split_and!; try done.
      unfold inside_pin in Hk.
      destruct (List.find (has_id (inner_node d c)) p_nodes) as [n|] eqn:Hf;
        [|done].
      apply find_has_id_Some in Hf as [Hn <-]. apply list_elem_of_fmap. eauto.
    - intros n Hn. unfold node_crossings. apply sum_list_with_ext_in.
      intros ip _. case_bool_decide; [|done]. unfold outside_peers.
      by rewrite (Hrefs n d ip.1 Hn). }
  assert (Htotal : ∀ d,
    length (bucket d r)
    = (length (filter (λ c, kind d c = Some true) (bucket d r))
       + length (filter (λ c, kind d c = Some false) (bucket d r)))%nat).
  { intros d. apply length_split_kinds. intros c Hc. unfold r in Hc.
    rewrite bucket_filter in Hc by done.
    apply list_elem_of_In, filter_In in Hc as [Hc Hb].
    apply list_elem_of_In in Hc.
    apply andb_true_iff in Hb as [_ Hin]. unfold nodes_has in Hin.
    apply bool_decide_eq_true in Hin.
    apply list_elem_of_fmap in Hin as (n & Hid & Hn).
    unfold kind, inside_pin. rewrite Hid, (find_has_id_unique _ _ Hids Hn).
    simpl. destruct (lookup_lt_is_Some_2 (find_pins n d) (inner_port d c))
      as [q ->]; [eauto|]. by eexists. }
  pose proof (Hcount PD_Input true) as H1.
  pose proof (Hcount PD_Input false) as H2.
  pose proof (Hcount PD_Output true) as H3.
  pose proof (Hcount PD_Output false) as H4.
  pose proof (Htotal PD_Input) as H5. pose proof (Htotal PD_Output) as H6.
  simpl in *. split_and!; try done; lia.
Qed.

Lemma counters_agree_with_buckets_witness :
  let r := _resolve_node_set_connections Scenario.stored_pins
             (λ n, connected_pins Scenario.wires (node_id n)) Scenario.wires
             [Scenario.print; Scenario.add] NodeSetConnections_default in
  input_executions r + input_data r = Z.of_nat (length (inputs r))
  ∧ output_executions r + output_data r = Z.of_nat (length (outputs r)).
Proof.
  assert (H : consistent_backrefs Scenario.stored_pins
                (λ n, connected_pins Scenario.wires (node_id n))
                Scenario.wires [Scenario.print; Scenario.add]).
  { split_and!.
    - apply (bool_decide_unpack _). vm_compute. exact I.
    - apply (bool_decide_unpack _). vm_compute. exact I.
    - intros n d i _. reflexivity.
    - intros n d c Hn Hc Hid.
      repeat (apply elem_of_cons in Hn as [->|Hn]);
        [| |by apply elem_of_nil in Hn];
        repeat (apply elem_of_cons in Hc as [->|Hc]);
        try (by apply elem_of_nil in Hc);
        destruct d; simpl in *; try discriminate; lia. }
  pose proof (counters_agree_with_buckets _ _ _ _ H) as (_ & _ & _ & _ & H1 & H2).
  split; [exact H1|exact H2].
Defined.

(** ** Rejected extractions and inlinings *)

Lemma find_not_duplicable l :
  (∃ n, n ∈ l ∧ can_duplicate n = false) →
  ∃ n, List.find (λ n, negb (can_duplicate n)) l = Some n.
Proof.
  intros (n & Hn & Hd).
  destruct (List.find (λ n, negb (can_duplicate n)) l) as [n'|] eqn:Hf; [eauto|].
  apply list_elem_of_In in Hn. pose proof (find_none _ _ Hf n Hn) as H.
  simpl in H. rewrite Hd in H. done.
Qed.

Lemma rejected_emit v e :
  is_error e = true → rejected_with_error v (Return (emit e v)).
Proof. intros He. exists (emit e v). split_and!; [done|done|]. by exists e. Qed.

(** C1, as the code has it: an extraction on an empty selection returns at
    once, without a message, and leaves the view as it is; on a non-empty
    selection with a node that cannot be duplicated, with more than one
    inbound or more than one outbound execution crossing, or with more than
    two outbound connections, it reports one error and leaves the
    Orchestration as it is. *)
Theorem collapse_rejects_invalid_selection
    (create_unique_name : string → list string → string)
    (p_graph : OrchestratorGraphEdit) (v : View) :
  let selected := get_selected_script_nodes (_orchestration v) p_graph in
  let found := resolve (_orchestration v) selected in
  (selected = [] →
   _collapse_selected_to_function create_unique_name p_graph v = Return v)
  ∧ (selected ≠ [] →
     (∃ n, n ∈ selected ∧ can_duplicate n = false)
     ∨ 1 < input_executions found
     ∨ 1 < output_executions found
     ∨ (2 < length (outputs found))%nat →
     rejected_with_error v
       (_collapse_selected_to_function create_unique_name p_graph v)).
Proof.
  intros selected found.
  unfold _collapse_selected_to_function, collapse. fold selected. fold found.
  split.
  - intros ->. done.
  - intros Hne Hbad. destruct selected as [|n0 rest] eqn:Hsel; [done|].
    destruct (List.find (λ n, negb (can_duplicate n)) (n0 :: rest))
      as [n|] eqn:Hf.
    { by apply rejected_emit. }
    destruct Hbad as [Hdup|Hbad].
    { apply find_not_duplicable in Hdup as [? ?]. congruence. }
    case_bool_decide; [by apply rejected_emit|].
    case_bool_decide; [by apply rejected_emit|].
    case_bool_decide; [by apply rejected_emit|].
    exfalso. destruct Hbad as [?|[?|?]]; done.
Qed.

Lemma collapse_rejects_invalid_selection_witness :
  rejected_with_error Scenario.view
    (_collapse_selected_to_function Scenario.unique_name
       (mkGraphEdit "EventGraph" [1; 3]) Scenario.view).
Proof.
  apply (collapse_rejects_invalid_selection Scenario.unique_name
           (mkGraphEdit "EventGraph" [1; 3]) Scenario.view).
  - done.
  - left. exists Scenario.external. split; [|done].
    apply list_elem_of_In. left. reflexivity.
Defined.

(** C1, as it is stated, fails on the empty selection: the extraction
    returns without reporting an error. *)
Lemma collapse_empty_selection_is_silent :
  get_selected_script_nodes (_orchestration Scenario.view) Scenario.idle_tab
  = []
  ∧ ¬ rejected_with_error Scenario.view
        (_collapse_selected_to_function Scenario.unique_name
           Scenario.idle_tab Scenario.view).
Proof.
  split; [done|]. intros (v' & Hret & _ & e & _ & Hlog).
  injection Hret as <-. apply (f_equal length) in Hlog.
  rewrite length_app in Hlog. simpl in Hlog. lia.
Qed.



(** ** The graph model primitives *)

Lemma find_snoc {A} (P : A → bool) (l : list A) (x : A) :
  List.find P (l ++ [x])
  = match List.find P l with
    | Some y => Some y
    | None => if P x then Some x else None
    end.
Proof.
  induction l as [|a l IH]; simpl; [done|]. by destruct (P a).
Qed.

Lemma find_fmap_same {A} (P : A → bool) (h : A → A) (l : list A) :
  (∀ x, P (h x) = P x) → List.find P (h <$> l) = h <$> List.find P l.
Proof.
  intros HP. induction l as [|a l IH]; simpl; [done|].
  rewrite HP. by destruct (P a).
Qed.

Lemma get_node_Some o id n :
  get_node o id = Some n → n ∈ _nodes o ∧ node_id n = id.
Proof. apply find_has_id_Some. Qed.

Lemma get_node_None o id :
  get_node o id = None ↔ id ∉ (node_id <$> _nodes o).
Proof. apply find_has_id_None. Qed.

Lemma get_node_is_Some o id :
  is_Some (get_node o id) ↔ id ∈ node_id <$> _nodes o.
Proof.
  rewrite <- not_eq_None_Some, get_node_None.
  split; [apply dec_stable|auto].
Qed.

Lemma max_id_bound (l : list Z) x : x ∈ l → x ≤ foldr Z.max (-1) l.
Proof.
  induction l as [|a l IH]; intros Hx; [by apply elem_of_nil in Hx|].
  apply elem_of_cons in Hx as [->|Hx]; simpl; [lia|]. apply IH in Hx. lia.
Qed.

Lemma available_above o id :
  id ∈ node_id <$> _nodes o → id < get_available_id o.
Proof. intros H%max_id_bound. unfold get_available_id. lia. Qed.

Lemma get_node_below o id n : get_node o id = Some n → id < get_available_id o.
Proof.
  intros H. apply available_above, get_node_is_Some. by eexists.
Qed.

Lemma find_function_Some o name fn :
  find_function o name = Some fn → fn ∈ _functions o ∧ function_name fn = name.
Proof.
  intros [Hin Hn]%find_some. split; [by apply list_elem_of_In|].
  by apply bool_decide_eq_true in Hn.
Qed.

Lemma find_function_None o name :
  find_function o name = None ↔ name ∉ get_function_names o.
Proof.
  split.
  - intros Hnone (fn & -> & Hfn)%list_elem_of_fmap.
    apply list_elem_of_In in Hfn.
    pose proof (find_none _ _ Hnone fn Hfn) as H. simpl in H.
    by rewrite bool_decide_eq_true_2 in H.
  - intros Hnot. destruct (find_function o name) as [fn|] eqn:Hf; [|done].
    apply find_function_Some in Hf as [Hin <-]. destruct Hnot.
    apply list_elem_of_fmap. eauto.
Qed.

Lemma get_node_update_node o k g id :
  (∀ n, node_id (g n) = node_id n) →
  get_node (update_node k g o) id
  = (λ n, if has_id k n then g n else n) <$> get_node o id.
Proof.
  intros Hg. unfold get_node, update_node. simpl.
  apply find_fmap_same. intros n. unfold has_id.
  destruct (bool_decide (node_id n = k)); by rewrite ?Hg.
Qed.

Lemma find_function_update o name g h :
  (∀ fn, function_name (g fn) = function_name fn) →
  find_function (update_function name g o) h
  = (λ fn, if bool_decide (function_name fn = name) then g fn else fn)
      <$> find_function o h.
Proof.
  intros Hg. unfold find_function, update_function. simpl.
  apply (find_fmap_same (λ f, bool_decide (function_name f = h))).
  intros fn. destruct (bool_decide (function_name fn = name)); by rewrite ?Hg.
Qed.

(** *** Frames *)

Lemma frame_refl f moved o : frame f moved o o.
Proof. by split. Qed.

Lemma frame_trans f moved o1 o2 o3 :
  frame f moved o1 o2 → frame f moved o2 o3 → frame f moved o1 o3.
Proof.
  intros [A1 A2 A3 A4 A5 A6] [B1 B2 B3 B4 B5 B6]. split.
  - congruence.
  - intros id Hid. by rewrite B2, A2.
  - intros id. by rewrite B3, A3.
  - congruence.
  - intros g Hg. by rewrite B5, A5.
  - congruence.
Qed.

(** A step that only touches the connections. *)
Lemma frame_connections f moved o cs : frame f moved o (set_connections cs o).
Proof. by split. Qed.

Lemma frame_link f moved o g a ap b bp : frame f moved o (link g a ap b bp o).
Proof. apply frame_connections. Qed.

Lemma frame_set_position f moved o id p o' :
  id ∈ moved → OScriptNode.set_position id p o = Some o' → frame f moved o o'.
Proof.
  intros Hid. unfold OScriptNode.set_position.
  destruct (get_node o id) as [n|]; [|done]. intros [= <-]. split; try done.
  - unfold update_node. simpl. rewrite <- list_fmap_compose.
    apply list_fmap_ext. intros i x _. simpl. by destruct (has_id id x).
  - intros k Hk. rewrite get_node_update_node by done.
    destruct (get_node o k) as [m|] eqn:Hm; [|done]. simpl. f_equal.
    apply get_node_Some in Hm as [_ <-]. unfold has_id.
    rewrite bool_decide_eq_false_2; [done|]. intros Heq.
    by rewrite Heq in Hk.
  - intros k. rewrite get_node_update_node by done.
    destruct (get_node o k) as [m|]; [|done]. simpl. f_equal.
    by destruct (has_id id m).
Qed.

Lemma frame_update_function f moved o g :
  (∀ fn, function_identity (g fn) = function_identity fn) →
  frame f moved o (update_function f g o).
Proof.
  intros Hg. assert (Hname : ∀ fn, function_name (g fn) = function_name fn).
  { intros fn. specialize (Hg fn). unfold function_identity in Hg. congruence. }
  split; try done.
  - intros h Hh. rewrite find_function_update by done.
    destruct (find_function o h) as [fn|] eqn:Hfn; [|done]. simpl. f_equal.
    apply find_function_Some in Hfn as [_ <-].
    by rewrite bool_decide_eq_false_2.
  - rewrite find_function_update by done.
    destruct (find_function o f) as [fn|]; [|done]. simpl. f_equal.
    by destruct (bool_decide (function_name fn = f)).
Qed.

(** *** Pins are stable along a frame *)

Lemma find_pins_frame f moved o o' n d :
  frame f moved o o' → references n ≠ Some f →
  OScriptNode.find_pins o' n d = OScriptNode.find_pins o n d.
Proof.
  intros Hfr Href. unfold OScriptNode.find_pins, references in *.
  destruct (node_kind n) as [g|g|g|]; [| | |done];
    assert (g ≠ f) by congruence;
    unfold function_arguments, OScriptNode.return_pins;
    by rewrite (frame_functions _ _ _ _ Hfr g).
Qed.

(** ** The loops of the extraction *)

Lemma for_each_cons {A S} (body : S → A → option S) s x l :
  for_each body s (x :: l) = body s x ≫= λ s', for_each body s' l.
Proof. done. Qed.

Lemma first_link_cons wired P mk E l c :
  c ∈ first_link wired P mk (E :: l)
  ↔ (wired = false ∧ P E = true ∧ c = mk E)
    ∨ c ∈ first_link (wired || P E) P mk l.
Proof.
  unfold first_link. simpl. destruct wired; simpl.
  - rewrite elem_of_nil. intuition congruence.
  - destruct (P E); simpl.
    + rewrite list_elem_of_singleton, elem_of_nil. intuition congruence.
    + intuition congruence.
Qed.

Lemma numbered_links_cons k P mk E l c :
  c ∈ numbered_links k P mk (E :: l)
  ↔ (P E = true ∧ c = mk k E)
    ∨ c ∈ numbered_links (if P E then S k else k) P mk l.
Proof.
  unfold numbered_links. simpl. destruct (P E); simpl.
  - rewrite elem_of_cons, Nat.add_0_r.
    erewrite (imap_ext _ (λ i E0, mk (S k + i)%nat E0)).
    + intuition congruence.
    + intros i x _. simpl. f_equal. lia.
  - intuition congruence.
Qed.

Lemma first_link_nil wired P mk c : c ∈ first_link wired P mk [] ↔ False.
Proof. unfold first_link. destruct wired; simpl; by rewrite elem_of_nil. Qed.

Lemma numbered_links_nil k P mk c : c ∈ numbered_links k P mk [] ↔ False.
Proof. unfold numbered_links. simpl. by rewrite elem_of_nil. Qed.

Lemma link_connections g a ap b bp o c :
  c ∈ _connections (link g a ap b bp o)
  ↔ c ∈ _connections o ∨ c = mkConnection a ap b bp.
Proof. unfold link. simpl. apply set_insert_elem. Qed.

Lemma pin_is_Some k q : pin_is k (Some q) = bool_decide (is_execution q = k).
Proof. unfold pin_is. simpl. apply bool_decide_ext. split; congruence. Qed.

Lemma find_function_update_same o f g fn :
  (∀ fn, function_name (g fn) = function_name fn) →
  find_function o f = Some fn →
  find_function (update_function f g o) f = Some (g fn).
Proof.
  intros Hg Hfn. rewrite find_function_update, Hfn by done. simpl.
  apply find_function_Some in Hfn as [_ Hname].
  by rewrite bool_decide_eq_true_2.
Qed.

Lemma function_arguments_Some o f fn :
  find_function o f = Some fn → function_arguments o f = arguments fn.
Proof. intros H. unfold function_arguments. by rewrite H. Qed.

(** Appending an argument: the three calls of lines 236 to 239. *)
Lemma append_argument f moved o fn s t :
  find_function o f = Some fn →
  let size := (get_argument_count o f + 1)%nat in
  let o' := set_argument_type f (size - 1) t
              (set_argument_name f (size - 1) s
                 (resize_argument_list f size o)) in
  find_function o' f = Some (with_arguments (arguments fn ++ [(s, t)]) fn)
  ∧ frame f moved o o'.
Proof.
  intros Hfn size o'. split.
  - unfold o', set_argument_type, set_argument_name, resize_argument_list.
    erewrite find_function_update_same; [|done|].
    2:{ erewrite find_function_update_same; [done|done|].
        erewrite find_function_update_same; [done|done|exact Hfn]. }
    f_equal. unfold with_arguments. simpl. f_equal.
    assert (size = S (length (arguments fn))) as ->.
    { unfold size, get_argument_count.
      rewrite (function_arguments_Some _ _ _ Hfn). lia. }
    rewrite take_ge by lia.
    replace (S (length (arguments fn)) - length (arguments fn))%nat
      with 1%nat by lia.
    replace (S (length (arguments fn)) - 1)%nat
      with (length (arguments fn) + 0)%nat by lia.
    simpl. by rewrite !alter_app_r.
  - unfold o'. eapply frame_trans; [eapply frame_trans|];
      apply frame_update_function; done.
Qed.

Section Stable.

Context (f : string) (moved : list Z) (base : Orchestration).

Lemma pins_at_frame o E :
  frame f moved base o → stable_ends f moved base E →
  ∃ s t, get_node o (from_node E) = Some s
         ∧ get_node o (to_node E) = Some t
         ∧ (OScriptNode.find_pins o s PD_Output !! from_port E
            = source_pin base E)
         ∧ (OScriptNode.find_pins o t PD_Input !! to_port E
            = target_pin base E).
Proof.
  intros Hfr (s & t & Hs & Ht & Hsm & Htm & Hsf & Htf).
  exists s, t. unfold source_pin, target_pin. rewrite Hs, Ht. simpl.
  rewrite !(frame_fixed _ _ _ _ Hfr) by done.
  by rewrite !(find_pins_frame _ _ _ _ _ _ Hfr).
Qed.

Lemma frame_found o :
  frame f moved base o → is_Some (find_function base f) →
  is_Some (find_function o f).
Proof.
  intros Hfr [fn Hfn]. pose proof (frame_function _ _ _ _ Hfr) as H.
  rewrite Hfn in H. destruct (find_function o f); [by eexists|done].
Qed.

End Stable.

Lemma same_functions o o' g :
  _functions o' = _functions o →
  find_function o' g = find_function o g
  ∧ function_arguments o' g = function_arguments o g
  ∧ return_info o' g = return_info o g.
Proof.
  intros H. unfold return_info, function_arguments, find_function.
  by rewrite H.
Qed.

Lemma set_position_fields id p o o' :
  OScriptNode.set_position id p o = Some o' →
  _connections o' = _connections o ∧ _functions o' = _functions o.
Proof.
  unfold OScriptNode.set_position. destruct (get_node o id); [|done].
  by intros [= <-].
Qed.

Lemma pin_is_true q : pin_is true (Some q) = is_execution q.
Proof. rewrite pin_is_Some. by destruct (is_execution q). Qed.

Lemma pin_is_false q : pin_is false (Some q) = negb (is_execution q).
Proof. rewrite pin_is_Some. by destruct (is_execution q). Qed.

Ltac crush_links :=
  split; intros ?; destruct_or?; destruct_and?; simplify_eq; auto 10.

Section InputLoop.

Context (f src tgt : string) (call entry : Z) (moved : list Z)
        (base : Orchestration).
Context (Hentry : entry ∈ moved).
Context (Hbase : is_Some (find_function base f)).

Lemma wire_input_step w o ev E w1 o1 ev1 :
  frame f moved base o → stable_ends f moved base E →
  wire_input src tgt f call entry (w, o, ev) E = Some (w1, o1, ev1) →
  ∃ sp tp,
    source_pin base E = Some sp ∧ target_pin base E = Some tp
    ∧ frame f moved o o1
    ∧ input_index w1
      = (if is_execution tp then input_index w else S (input_index w))
    ∧ call_input_index w1
      = (if is_execution sp then call_input_index w
         else S (call_input_index w))
    ∧ input_execution_wired w1
      = input_execution_wired w || is_execution tp
    ∧ call_execution_wired w1 = call_execution_wired w || is_execution sp
    ∧ (∀ c, c ∈ _connections o1
            ↔ c ∈ _connections o
              ∨ (is_execution sp = true ∧ call_execution_wired w = false
                 ∧ c = link_into call 0 E)
              ∨ (is_execution sp = false
                 ∧ c = link_into call (call_input_index w) E)
              ∨ (is_execution tp = true ∧ input_execution_wired w = false
                 ∧ c = link_out_of entry 0 E)
              ∨ (is_execution tp = false
                 ∧ c = link_out_of entry (input_index w) E))
    ∧ function_arguments o1 f
      = function_arguments o f
        ++ (if is_execution tp then [] else [argument_of tp])
    ∧ return_info o1 f = return_info o f.
Proof.
  intros Hfr Hst H. unfold wire_input in H.
  destruct (pins_at_frame f moved base o E Hfr Hst)
    as (s & t0 & Hs & _ & Hsp & _).
  rewrite Hs in H. simpl in H. rewrite Hsp in H.
  destruct (source_pin base E) as [sp|] eqn:Hsp0; [|done]. simpl in H.
  (* the Call side *)
  match type of H with (let '(_, _) := ?e in _) = _ =>
    destruct e as [wa oa] eqn:Hcall end.
  assert (Ha : frame f moved o oa
               ∧ _functions oa = _functions o
               ∧ input_index wa = input_index w
               ∧ call_input_index wa
                 = (if is_execution sp then call_input_index w
                    else S (call_input_index w))
               ∧ input_execution_wired wa = input_execution_wired w
               ∧ call_execution_wired wa
                 = call_execution_wired w || is_execution sp
               ∧ entry_positioned wa = entry_positioned w
               ∧ ∀ c, c ∈ _connections oa
                      ↔ c ∈ _connections o
                        ∨ (is_execution sp = true
                           ∧ call_execution_wired w = false
                           ∧ c = link_into call 0 E)
                        ∨ (is_execution sp = false
                           ∧ c = link_into call (call_input_index w) E)).
  { destruct (is_execution sp), (call_execution_wired w) eqn:Hw;
      simpl in Hcall; injection Hcall as <- <-; simpl;
      (split_and!; [apply frame_link || apply frame_refl|done..|]);
      intros c; unfold link; simpl; rewrite ?set_insert_elem;
      unfold link_into;
      (split; intros Hc; destruct_or?; destruct_and?; subst;
       try done; auto 10). }
  destruct Ha as (Hfa & Hfna & Ha1 & Ha2 & Ha3 & Ha4 & Ha5 & Hca).
  (* the selected node *)
  destruct (pins_at_frame f moved base oa E (frame_trans _ _ _ _ _ Hfr Hfa) Hst)
    as (_ & t & _ & Ht & _ & Htp).
  rewrite Ht in H. simpl in H. rewrite Htp in H.
  destruct (target_pin base E) as [tp|] eqn:Htp0; [|done]. simpl in H.
  exists sp, tp. split; [done|]. split; [done|].
  (* the position of the Entry node *)
  match type of H with (?e ≫= _) = _ =>
    destruct e as [[[wb ob] evb]|] eqn:Hpos; [|done] end.
  simpl in H.
  assert (Hb : frame f moved oa ob ∧ _functions ob = _functions oa
               ∧ _connections ob = _connections oa
               ∧ input_index wb = input_index wa
               ∧ call_input_index wb = call_input_index wa
               ∧ input_execution_wired wb = input_execution_wired wa
               ∧ call_execution_wired wb = call_execution_wired wa).
  { destruct (entry_positioned wa); simpl in Hpos.
    - injection Hpos as <- <- <-. split_and!; try done; apply frame_refl.
    - destruct (OScriptNode.set_position entry _ oa) as [ob'|] eqn:Hset;
        [|done]. simpl in Hpos. injection Hpos as <- <- <-.
      destruct (set_position_fields _ _ _ _ Hset) as [? ?].
      split_and!; try done; by eapply frame_set_position. }
  destruct Hb as (Hfb & Hfnb & Hcb & Hb1 & Hb2 & Hb3 & Hb4).
  assert (Hfob : frame f moved base ob)
    by (eapply frame_trans; [eapply frame_trans|]; eassumption).
  destruct (frame_found f moved base ob Hfob Hbase) as [fn Hfn].
  destruct (same_functions o oa f Hfna) as (_ & Harg_a & Hret_a).
  destruct (same_functions oa ob f Hfnb) as (_ & Harg_b & Hret_b).
  (* the Entry side *)
  assert (Hfo : frame f moved o ob) by (eapply frame_trans; eassumption).
  destruct (is_execution tp) eqn:Htpe; simpl in H.
  - destruct (input_execution_wired wb) eqn:Hwb; simpl in H;
      injection H as <- <- <-; simpl.
    + assert (input_execution_wired w = true) as Hw by congruence.
      rewrite Hw. split_and!; rewrite ?orb_true_r, ?orb_false_r,
        ?app_nil_r; try congruence.
      intros c. rewrite Hcb, Hca. crush_links.
    + assert (input_execution_wired w = false) as Hw by congruence.
      rewrite Hw. split_and!; rewrite ?orb_true_r, ?orb_false_r,
        ?app_nil_r; try congruence.
      * eapply frame_trans; [exact Hfo|apply frame_link].
      * intros c. rewrite set_insert_elem, Hcb, Hca. unfold link_out_of.
        crush_links.
      * transitivity (function_arguments ob f); [done|congruence].
      * transitivity (return_info ob f); [done|congruence].
  - destruct (append_argument f moved ob fn (pin_name tp) (pin_type tp) Hfn)
      as [Hfn' Hfr'].
    injection H as <- <- <-. cbn [input_index call_input_index
      input_execution_wired call_execution_wired].
    split_and!; rewrite ?orb_true_r, ?orb_false_r; try congruence.
    + eapply frame_trans; [exact Hfo|].
      eapply frame_trans; [exact Hfr'|apply frame_link].
    + intros c. rewrite link_connections.
      match goal with |- context [_connections ?x] =>
        change (_connections x) with (_connections ob) end.
      rewrite Hcb, Hca. unfold link_out_of. rewrite Hb1, Ha1.
      crush_links.
    + rewrite <- Harg_a, <- Harg_b.
      rewrite (function_arguments_Some _ _ _ Hfn).
      unfold link.
      match goal with |- function_arguments (set_connections _ ?x) f = _ =>
        change (function_arguments (set_connections _ x) f)
          with (function_arguments x f) end.
      by rewrite (function_arguments_Some _ _ _ Hfn').
    + rewrite <- Hret_a, <- Hret_b. unfold return_info, link.
      match goal with |- _ <$> find_function (set_connections _ ?x) f = _ =>
        change (find_function (set_connections _ x) f)
          with (find_function x f) end.
      by rewrite Hfn', Hfn.
Qed.

Lemma wire_inputs l : ∀ w o ev w' o' ev',
  frame f moved base o →
  (∀ E, E ∈ l → stable_ends f moved base E) →
  for_each (wire_input src tgt f call entry) (w, o, ev) l
  = Some (w', o', ev') →
  frame f moved o o'
  ∧ (∀ E, E ∈ l →
          is_Some (source_pin base E) ∧ is_Some (target_pin base E))
  ∧ (∀ c, c ∈ _connections o'
          ↔ c ∈ _connections o
            ∨ c ∈ first_link (call_execution_wired w) (exec_source base)
                             (link_into call 0) l
            ∨ c ∈ numbered_links (call_input_index w) (data_source base)
                                 (link_into call) l
            ∨ c ∈ first_link (input_execution_wired w) (exec_target base)
                             (link_out_of entry 0) l
            ∨ c ∈ numbered_links (input_index w) (data_target base)
                                 (link_out_of entry) l)
  ∧ function_arguments o' f
    = function_arguments o f
      ++ omap (λ E, argument_of <$> target_pin base E)
              (List.filter (data_target base) l)
  ∧ return_info o' f = return_info o f.
Proof.
  induction l as [|E l IH]; intros w o ev w' o' ev' Hfr Hst Hrun.
  - injection Hrun as <- <- <-. split_and!.
    + apply frame_refl.
    + intros E HE. by apply elem_of_nil in HE.
    + intros c. rewrite !first_link_nil, !numbered_links_nil. tauto.
    + simpl. by rewrite app_nil_r.
    + done.
  - rewrite for_each_cons in Hrun.
    destruct (wire_input src tgt f call entry (w, o, ev) E)
      as [[[w1 o1] ev1]|] eqn:Hstep; [|discriminate]. simpl in Hrun.
    destruct (wire_input_step _ _ _ _ _ _ _ Hfr
                (Hst E ltac:(apply elem_of_cons; by left)) Hstep)
      as (sp & tp & Hsp & Htp & Hfr1 & Hw1 & Hw2 & Hw3 & Hw4 & Hc1
          & Ha1 & Hr1).
    destruct (IH _ _ _ _ _ _ (frame_trans _ _ _ _ _ Hfr Hfr1)
                (λ E' HE', Hst E' ltac:(apply elem_of_cons; by right)) Hrun)
      as (Hfr2 & Hpins & Hc2 & Ha2 & Hr2).
    split_and!.
    + eapply frame_trans; eassumption.
    + intros E' [->|HE']%elem_of_cons; [|by apply Hpins].
      rewrite Hsp, Htp. split; by eexists.
    + intros c. rewrite Hc2, Hc1, !first_link_cons, !numbered_links_cons.
      unfold exec_source, data_source, exec_target, data_target.
      rewrite Hsp, Htp, !pin_is_true, !pin_is_false, Hw1, Hw2, Hw3, Hw4.
      destruct (is_execution sp), (is_execution tp); simpl; crush_links.
    + rewrite Ha2, Ha1, <- app_assoc. f_equal. simpl.
      unfold data_target at 2. rewrite Htp, pin_is_false.
      destruct (is_execution tp); simpl; [done|]. by rewrite Htp.
    + congruence.
Qed.

End InputLoop.

Section OutputLoops.

Context (f src tgt : string) (call entry result : Z) (moved : list Z)
        (base : Orchestration).
Context (Hresult : result ∈ moved).
Context (Hbase : is_Some (find_function base f)).

Lemma set_return_info o fn t :
  find_function o f = Some fn →
  let o' := set_return_type f t (set_has_return_value f true o) in
  frame f moved o o'
  ∧ function_arguments o' f = function_arguments o f
  ∧ return_info o' f = Some (true, t)
  ∧ _connections o' = _connections o.
Proof.
  intros Hfn o'.
  assert (find_function o' f
          = Some (mkFunction (function_name fn) (owning_node_id fn)
                             (arguments fn) true t)) as Hfn'.
  { unfold o', set_return_type, set_has_return_value.
    erewrite find_function_update_same; [|done|].
    2:{ erewrite find_function_update_same; [done|done|exact Hfn]. }
    done. }
  split_and!.
  - unfold o'. eapply frame_trans; apply frame_update_function; done.
  - by rewrite (function_arguments_Some _ _ _ Hfn),
      (function_arguments_Some _ _ _ Hfn').
  - unfold return_info. by rewrite Hfn'.
  - done.
Qed.

Lemma wire_result_step w o ev E w1 o1 ev1 :
  frame f moved base o → stable_ends f moved base E →
  wire_result tgt f result (w, o, ev) E = Some (w1, o1, ev1) →
  ∃ sp,
    source_pin base E = Some sp
    ∧ frame f moved o o1
    ∧ output_execution_wired w1
      = output_execution_wired w || is_execution sp
    ∧ output_data_wired w1 = output_data_wired w || negb (is_execution sp)
    ∧ (∀ c, c ∈ _connections o1
            ↔ c ∈ _connections o
              ∨ (is_execution sp = true ∧ output_execution_wired w = false
                 ∧ c = link_into result 0 E)
              ∨ (is_execution sp = false ∧ output_data_wired w = false
                 ∧ c = link_into result 1 E))
    ∧ function_arguments o1 f = function_arguments o f
    ∧ return_info o1 f
      = (if negb (is_execution sp) && negb (output_data_wired w)
         then Some (true, pin_type sp) else return_info o f).
Proof.
  intros Hfr Hst H. unfold wire_result in H.
  destruct (pins_at_frame f moved base o E Hfr Hst)
    as (s & t0 & Hs & _ & Hsp & _).
  rewrite Hs in H. simpl in H. rewrite Hsp in H.
  destruct (source_pin base E) as [sp|] eqn:Hsp0; [|done]. simpl in H.
  exists sp. split; [done|].
  match type of H with (?e ≫= _) = _ =>
    destruct e as [[[wb ob] evb]|] eqn:Hpos; [|done] end.
  simpl in H.
  assert (Hb : frame f moved o ob ∧ _functions ob = _functions o
               ∧ _connections ob = _connections o
               ∧ output_execution_wired wb = output_execution_wired w
               ∧ output_data_wired wb = output_data_wired w).
  { destruct (positioned w); simpl in Hpos.
    - injection Hpos as <- <- <-. split_and!; try done; apply frame_refl.
    - destruct (OScriptNode.set_position result _ o) as [ob'|] eqn:Hset;
        [|done]. simpl in Hpos. injection Hpos as <- <- <-.
      destruct (set_position_fields _ _ _ _ Hset) as [? ?].
      split_and!; try done; by eapply frame_set_position. }
  destruct Hb as (Hfb & Hfnb & Hcb & Hb1 & Hb2).
  destruct (frame_found f moved base ob (frame_trans _ _ _ _ _ Hfr Hfb) Hbase)
    as [fn Hfn].
  destruct (same_functions o ob f Hfnb) as (_ & Harg & Hret).
  destruct (is_execution sp) eqn:Hspe; simpl in H.
  - destruct (output_execution_wired wb) eqn:Hwb; simpl in H;
      injection H as <- <- <-; simpl.
    + assert (output_execution_wired w = true) as Hw by congruence.
      rewrite Hw. split_and!; rewrite ?orb_true_r, ?orb_false_r;
        try congruence.
      intros c. rewrite Hcb. crush_links.
    + assert (output_execution_wired w = false) as Hw by congruence.
      rewrite Hw. split_and!; rewrite ?orb_true_r, ?orb_false_r;
        try congruence.
      * eapply frame_trans; [exact Hfb|apply frame_link].
      * intros c. rewrite set_insert_elem, Hcb. unfold link_into.
        crush_links.
      * exact Harg.
      * exact Hret.
  - destruct (output_data_wired wb) eqn:Hwb; simpl in H;
      injection H as <- <- <-; simpl.
    + assert (output_data_wired w = true) as Hw by congruence.
      rewrite Hw. simpl. split_and!; rewrite ?orb_true_r, ?orb_false_r;
        try congruence.
      intros c. rewrite Hcb. crush_links.
    + assert (output_data_wired w = false) as Hw by congruence.
      rewrite Hw. simpl.
      destruct (set_return_info ob fn (pin_type sp) Hfn)
        as (Hfr' & Harg' & Hret' & Hc').
      split_and!.
      * eapply frame_trans; [exact Hfb|].
        eapply frame_trans; [exact Hfr'|apply frame_link].
      * rewrite ?orb_false_r. congruence.
      * done.
      * intros c. rewrite set_insert_elem, ?Hc', ?Hcb. unfold link_into.
        crush_links.
      * unfold link.
        change (function_arguments (set_connections ?cs ?x) f)
          with (function_arguments x f).
        congruence.
      * unfold link.
        change (return_info (set_connections ?cs ?x) f)
          with (return_info x f).
        done.
Qed.

Lemma wire_results l : ∀ w o ev w' o' ev',
  frame f moved base o →
  (∀ E, E ∈ l → stable_ends f moved base E) →
  for_each (wire_result tgt f result) (w, o, ev) l = Some (w', o', ev') →
  frame f moved o o'
  ∧ (∀ E, E ∈ l → is_Some (source_pin base E))
  ∧ (∀ c, c ∈ _connections o'
          ↔ c ∈ _connections o
            ∨ c ∈ first_link (output_execution_wired w) (exec_source base)
                             (link_into result 0) l
            ∨ c ∈ first_link (output_data_wired w) (data_source base)
                             (link_into result 1) l)
  ∧ function_arguments o' f = function_arguments o f
  ∧ return_info o' f
    = (if output_data_wired w then return_info o f
       else match List.find (data_source base) l with
            | Some E => (λ q, (true, pin_type q)) <$> source_pin base E
            | None => return_info o f
            end).
Proof.
  induction l as [|E l IH]; intros w o ev w' o' ev' Hfr Hst Hrun.
  - injection Hrun as <- <- <-. split_and!.
    + apply frame_refl.
    + intros E HE. by apply elem_of_nil in HE.
    + intros c. rewrite !first_link_nil. tauto.
    + done.
    + simpl. by destruct (output_data_wired w).
  - rewrite for_each_cons in Hrun.
    destruct (wire_result tgt f result (w, o, ev) E)
      as [[[w1 o1] ev1]|] eqn:Hstep; [|discriminate]. simpl in Hrun.
    destruct (wire_result_step _ _ _ _ _ _ _ Hfr
                (Hst E ltac:(apply elem_of_cons; by left)) Hstep)
      as (sp & Hsp & Hfr1 & Hw1 & Hw2 & Hc1 & Ha1 & Hr1).
    destruct (IH _ _ _ _ _ _ (frame_trans _ _ _ _ _ Hfr Hfr1)
                (λ E' HE', Hst E' ltac:(apply elem_of_cons; by right)) Hrun)
      as (Hfr2 & Hpins & Hc2 & Ha2 & Hr2).
    split_and!.
    + eapply frame_trans; eassumption.
    + intros E' [->|HE']%elem_of_cons; [|by apply Hpins].
      rewrite Hsp. by eexists.
    + intros c. rewrite Hc2, Hc1, !first_link_cons.
      unfold exec_source, data_source.
      rewrite Hsp, !pin_is_true, !pin_is_false, Hw1, Hw2.
      destruct (is_execution sp); simpl; crush_links.
    + congruence.
    + rewrite Hr2, Hr1, Hw2. simpl. unfold data_source at 2.
      rewrite Hsp, pin_is_false.
      destruct (output_data_wired w), (is_execution sp); simpl; try done.
      by rewrite Hsp.
Qed.

Lemma wire_call_output_step w o E w1 o1 :
  frame f moved base o → stable_ends f moved base E →
  wire_call_output src call (w, o) E = Some (w1, o1) →
  ∃ tp,
    target_pin base E = Some tp
    ∧ _nodes o1 = _nodes o ∧ _graphs o1 = _graphs o
    ∧ _functions o1 = _functions o
    ∧ call_output_index w1
      = (if is_execution tp then call_output_index w
         else S (call_output_index w))
    ∧ call_output_execution_wired w1
      = call_output_execution_wired w || is_execution tp
    ∧ (∀ c, c ∈ _connections o1
            ↔ c ∈ _connections o
              ∨ (is_execution tp = true
                 ∧ call_output_execution_wired w = false
                 ∧ c = link_out_of call 0 E)
              ∨ (is_execution tp = false
                 ∧ c = link_out_of call (call_output_index w) E)).
Proof.
  intros Hfr Hst H. unfold wire_call_output in H.
  destruct (pins_at_frame f moved base o E Hfr Hst)
    as (s & t & _ & Ht & _ & Htp).
  rewrite Ht in H. simpl in H. rewrite Htp in H.
  destruct (target_pin base E) as [tp|] eqn:Htp0; [|done]. simpl in H.
  exists tp. split; [done|].
  destruct (is_execution tp), (call_output_execution_wired w) eqn:Hw;
    simpl in H; injection H as <- <-; simpl; split_and!; try done;
    intros c; unfold link; simpl; rewrite ?set_insert_elem;
    unfold link_out_of; crush_links.
Qed.

Lemma frame_same o o' :
  _nodes o' = _nodes o → _graphs o' = _graphs o →
  _functions o' = _functions o → frame f moved o o'.
Proof.
  intros Hn Hg Hf. split; unfold get_node, find_function;
    rewrite ?Hn, ?Hg, ?Hf; done.
Qed.

Lemma wire_call_outputs l : ∀ w o w' o',
  frame f moved base o →
  (∀ E, E ∈ l → stable_ends f moved base E) →
  for_each (wire_call_output src call) (w, o) l = Some (w', o') →
  _nodes o' = _nodes o ∧ _graphs o' = _graphs o
  ∧ _functions o' = _functions o
  ∧ (∀ E, E ∈ l → is_Some (target_pin base E))
  ∧ (∀ c, c ∈ _connections o'
          ↔ c ∈ _connections o
            ∨ c ∈ first_link (call_output_execution_wired w)
                             (exec_target base) (link_out_of call 0) l
            ∨ c ∈ numbered_links (call_output_index w) (data_target base)
                                 (link_out_of call) l).
Proof.
  induction l as [|E l IH]; intros w o w' o' Hfr Hst Hrun.
  - injection Hrun as <- <-. split_and!; try done.
    + intros E HE. by apply elem_of_nil in HE.
    + intros c. rewrite first_link_nil, numbered_links_nil. tauto.
  - rewrite for_each_cons in Hrun.
    destruct (wire_call_output src call (w, o) E)
      as [[w1 o1]|] eqn:Hstep; [|discriminate]. simpl in Hrun.
    destruct (wire_call_output_step _ _ _ _ _ Hfr
                (Hst E ltac:(apply elem_of_cons; by left)) Hstep)
      as (tp & Htp & Hn1 & Hg1 & Hf1 & Hw1 & Hw2 & Hc1).
    destruct (IH _ _ _ _
                (frame_trans _ _ _ _ _ Hfr (frame_same _ _ Hn1 Hg1 Hf1))
                (λ E' HE', Hst E' ltac:(apply elem_of_cons; by right)) Hrun)
      as (Hn2 & Hg2 & Hf2 & Hpins & Hc2).
    split_and!; try congruence.
    + intros E' [->|HE']%elem_of_cons; [|by apply Hpins].
      rewrite Htp. by eexists.
    + intros c. rewrite Hc2, Hc1, first_link_cons, numbered_links_cons.
      unfold exec_target, data_target.
      rewrite Htp, !pin_is_true, !pin_is_false, Hw1, Hw2.
      destruct (is_execution tp); simpl; crush_links.
Qed.

End OutputLoops.

(** ** Creating the function and moving the nodes *)

Lemma max_id_snoc (l : list Z) x :
  foldr Z.max (-1) (l ++ [x]) = Z.max (foldr Z.max (-1) l) x.
Proof. induction l as [|a l IH]; simpl; [lia|]. rewrite IH. lia. Qed.

Lemma available_snoc o n :
  node_id n = get_available_id o →
  get_available_id (set_nodes (_nodes o ++ [n]) o) = get_available_id o + 1.
Proof.
  unfold get_available_id, set_nodes. cbn [_nodes].
  rewrite fmap_app. change (node_id <$> [n]) with [node_id n].
  rewrite max_id_snoc. intros ->. lia.
Qed.

Lemma filter_update_graph name h g (gs : list OScriptGraph) :
  filter (λ gr, graph_name gr = g)
    ((λ gr, if bool_decide (graph_name gr = name)
            then with_graph_nodes (h (graph_nodes gr)) gr else gr) <$> gs)
  = (λ gr, if bool_decide (graph_name gr = name)
           then with_graph_nodes (h (graph_nodes gr)) gr else gr)
      <$> filter (λ gr, graph_name gr = g) gs.
Proof.
  induction gs as [|gr gs IH]; [done|].
  rewrite fmap_cons, !filter_cons, IH.
  destruct (bool_decide (graph_name gr = name)) eqn:Hb; simpl;
    destruct (decide (graph_name gr = g)); rewrite ?fmap_cons, ?Hb; done.
Qed.

Lemma sole_graph_update o name h g :
  sole_graph (update_graph name h o) g
  = (if bool_decide (g = name) then h else id) <$> sole_graph o g.
Proof.
  unfold sole_graph, update_graph. simpl. rewrite filter_update_graph.
  destruct (filter (λ gr, graph_name gr = g) (_graphs o)) as [|gr [|gr' l]] eqn:E;
    try done. simpl.
  assert (graph_name gr = g) as Hg.
  { assert (gr ∈ filter (λ gr, graph_name gr = g) (_graphs o)) as H
      by (rewrite E; apply elem_of_cons; by left).
    by apply list_elem_of_filter in H as [? _]. }
  rewrite Hg. by case_bool_decide.
Qed.

Lemma sole_graph_created o f flags :
  has_graph o f = false →
  sole_graph (set_graphs (_graphs o ++ [mkGraph f flags []]) o) f = Some [].
Proof.
  intros H. unfold sole_graph. simpl. rewrite filter_app.
  assert (filter (λ gr, graph_name gr = f) (_graphs o) = []) as ->.
  { unfold has_graph in H. apply bool_decide_eq_false in H.
    destruct (filter _ _) as [|gr l] eqn:E; [done|]. destruct H.
    assert (gr ∈ filter (λ gr, graph_name gr = f) (_graphs o)) as Hin
      by (rewrite E; apply elem_of_cons; by left).
    apply list_elem_of_filter in Hin as [<- Hin].
    apply list_elem_of_fmap. eauto. }
  rewrite filter_cons. simpl. by rewrite decide_True.
Qed.

Lemma get_nodes_sole o g ids :
  sole_graph o g = Some ids → get_nodes o g = omap (get_node o) ids.
Proof.
  unfold sole_graph, get_nodes.
  destruct (filter _ _) as [|gr [|gr' l]]; try done. intros [= <-].
  simpl. by rewrite app_nil_r.
Qed.

Lemma available_ext o o' :
  _nodes o' = _nodes o → get_available_id o' = get_available_id o.
Proof. unfold get_available_id. by intros ->. Qed.

Lemma sole_graph_ext o o' g :
  _graphs o' = _graphs o → sole_graph o' g = sole_graph o g.
Proof. unfold sole_graph. by intros ->. Qed.

Lemma create_node_facts g kind pos dup o n o' :
  create_node g kind pos dup o = (n, o') →
  n = mkNode (get_available_id o) pos kind [] [] dup
  ∧ _nodes o' = _nodes o ++ [n]
  ∧ _connections o' = _connections o
  ∧ _functions o' = _functions o
  ∧ get_available_id o' = get_available_id o + 1
  ∧ ∀ h, sole_graph o' h
         = (if bool_decide (h = g) then (λ ns, ns ++ [node_id n]) else id)
             <$> sole_graph o h.
Proof.
  unfold create_node. intros [= <- <-]. split_and!; try done.
  - rewrite (available_ext (set_nodes (_nodes o ++ [mkNode
      (get_available_id o) pos kind [] [] dup]) o)) by done.
    by apply available_snoc.
  - intros h. by rewrite sole_graph_update.
Qed.

(** What [_create_new_function] leaves behind when it succeeds. *)
Lemma create_new_function_done p_name v fname v1 :
  _create_new_function p_name true v = (Some fname, v1) →
  let o := _orchestration v in
  let o1 := _orchestration v1 in
  let a := get_available_id o in
  fname = p_name
  ∧ has_graph o p_name = false
  ∧ _nodes o1 = _nodes o ++ [entry_node a p_name; result_node (a + 1) p_name]
  ∧ _connections o1 = _connections o
  ∧ _functions o1 = _functions o ++ [mkFunction p_name a [] false 0]
  ∧ sole_graph o1 p_name = Some [a; a + 1]
  ∧ log v1 = log v ++ [FunctionsUpdate].
Proof.
  unfold _create_new_function.
  destruct (has_graph (_orchestration v) p_name) eqn:Hg; [done|].
  unfold create_graph. rewrite Hg. unfold create_function_entry.
  set (o := _orchestration v).
  set (og := set_graphs (_graphs o ++ [mkGraph p_name [GF_FUNCTION; GF_DEFAULT] []]) o).
  assert (Hag : get_available_id og = get_available_id o) by done.
  assert (Hsg : sole_graph og p_name = Some [])
    by (by apply sole_graph_created).
  destruct (create_node p_name (FunctionEntry p_name) Vector2_zero false og)
    as [e oe] eqn:He.
  apply create_node_facts in He as (He & Hn1 & Hc1 & Hf1 & Ha1 & Hg1).
  set (fn := mkFunction p_name (node_id e) [] false 0).
  set (ofn := set_functions (_functions oe ++ [fn]) oe).
  destruct (create_node p_name (FunctionResult p_name)
              (Vector2_add (node_position e) (mkVector2 300 0)) false ofn)
    as [r ores] eqn:Hr.
  apply create_node_facts in Hr as (Hr & Hn2 & Hc2 & Hf2 & Ha2 & Hg2).
  cbn [snd]. intros [= <- <-]. cbn [_orchestration log emit].
  assert (node_id e = get_available_id o) as Hide by (by rewrite He, <- Hag).
  assert (node_id r = get_available_id o + 1) as Hidr.
  { rewrite Hr. cbn [node_id].
    rewrite (available_ext oe ofn) by done. by rewrite Ha1, Hag. }
  split_and!; try done.
  - rewrite Hn2. change (_nodes ofn) with (_nodes oe). rewrite Hn1.
    change (_nodes og) with (_nodes o). rewrite <- app_assoc. simpl.
    do 2 f_equal.
    + rewrite He. unfold entry_node. by rewrite Hag.
    + f_equal. rewrite Hr, He. cbn [node_position]. unfold result_node.
      f_equal. rewrite (available_ext oe ofn) by done. by rewrite Ha1, Hag.
  - rewrite Hc2. change (_connections ofn) with (_connections oe).
    by rewrite Hc1.
  - rewrite Hf2. change (_functions ofn) with (_functions oe ++ [fn]).
    rewrite Hf1. unfold fn. by rewrite Hide.
  - rewrite Hg2, (sole_graph_ext oe ofn) by done. rewrite Hg1, Hsg.
    rewrite !bool_decide_eq_true_2 by done. simpl. by rewrite Hide, Hidr.
Qed.

Lemma unlink_all_facts g l : ∀ o,
  _nodes (unlink_all g l o) = _nodes o
  ∧ _graphs (unlink_all g l o) = _graphs o
  ∧ _functions (unlink_all g l o) = _functions o
  ∧ ∀ c, c ∈ _connections (unlink_all g l o) ↔ c ∈ _connections o ∧ c ∉ l.
Proof.
  induction l as [|E l IH]; intros o.
  - split_and!; try done. intros c. rewrite elem_of_nil. tauto.
  - unfold unlink_all in *. simpl.
    destruct (IH (unlink g (from_node E) (from_port E) (to_node E)
                         (to_port E) o)) as (-> & -> & -> & Hc).
    split_and!; try done. intros c. rewrite Hc. unfold unlink. simpl.
    rewrite list_elem_of_filter, not_elem_of_cons. destruct E. tauto.
Qed.

Lemma move_node_to_facts s id t o :
  _nodes (move_node_to s id t o) = _nodes o
  ∧ _connections (move_node_to s id t o) = _connections o
  ∧ _functions (move_node_to s id t o) = _functions o
  ∧ sole_graph (move_node_to s id t o) t
    = (λ ns, (if bool_decide (t = s) then filter (λ k, k ≠ id) ns else ns)
             ++ [id]) <$> sole_graph o t.
Proof.
  unfold move_node_to. split_and!; try done.
  rewrite !sole_graph_update, bool_decide_eq_true_2 by done.
  destruct (sole_graph o t); [|done]. simpl. by case_bool_decide.
Qed.

Lemma move_all_facts s t l : ∀ o x y rest,
  sole_graph o t = Some (x :: y :: rest) →
  (∀ n, n ∈ l → node_id n ≠ x ∧ node_id n ≠ y) →
  _nodes (move_all s l t o) = _nodes o
  ∧ _connections (move_all s l t o) = _connections o
  ∧ _functions (move_all s l t o) = _functions o
  ∧ ∃ rest', sole_graph (move_all s l t o) t = Some (x :: y :: rest')
             ∧ (s ≠ t → rest' = rest ++ (node_id <$> l)).
Proof.
  induction l as [|n l IH]; intros o x y rest Hg Hl.
  - split_and!; try done. exists rest. split; [done|].
    by rewrite app_nil_r.
  - unfold move_all in *. simpl.
    destruct (move_node_to_facts s (node_id n) t o) as (Hn & Hc & Hf & Hs).
    destruct (Hl n ltac:(apply elem_of_cons; by left)) as [Hx Hy].
    rewrite Hg in Hs. simpl in Hs.
    assert (∃ rest1, sole_graph (move_node_to s (node_id n) t o) t
                     = Some (x :: y :: rest1)
                     ∧ (s ≠ t → rest1 = rest ++ [node_id n])) as (r1 & Hs1 & Hr1).
    { rewrite Hs. case_bool_decide.
      - rewrite !filter_cons, !decide_True by done.
        eexists. split; [done|]. congruence.
      - eexists. split; [done|]. done. }
    destruct (IH _ _ _ _ Hs1) as (-> & -> & -> & r2 & Hs2 & Hr2).
    { intros m Hm. apply Hl, elem_of_cons. by right. }
    split_and!; try done. exists r2. split; [done|]. intros Hst.
    rewrite Hr2, Hr1 by done. by rewrite <- app_assoc.
Qed.

Lemma collapse_move_facts f src sel found o1 call o3 x y :
  collapse_move f src sel found o1 = (call, o3) →
  sole_graph o1 f = Some [x; y] →
  (∀ n, n ∈ sel → node_id n ≠ x ∧ node_id n ≠ y) →
  call = get_available_id o1
  ∧ _nodes o3
    = _nodes o1
      ++ [call_node call f (Rect2_get_center (_get_node_set_rect sel))]
  ∧ (∀ c, c ∈ _connections o3
          ↔ c ∈ _connections o1 ∧ (c ∉ inputs found) ∧ (c ∉ outputs found))
  ∧ _functions o3 = _functions o1
  ∧ ∃ rest, sole_graph o3 f = Some (x :: y :: rest)
            ∧ (src ≠ f → rest = node_id <$> sel).
Proof.
  unfold collapse_move. intros H Hg Hsel.
  set (oa := unlink_all src (inputs found) o1) in *.
  set (ob := unlink_all src (outputs found) oa) in *.
  set (oc := move_all src sel f ob) in *.
  destruct (create_node src (CallScriptFunction f) _ true oc)
    as [cn od] eqn:Hcn.
  injection H as Hcall Ho. subst call o3.
  apply create_node_facts in Hcn as (Hcn & Hn & Hc & Hf & _ & Hgr).
  destruct (unlink_all_facts src (inputs found) o1) as (Hna & Hga & Hfa & Hca).
  destruct (unlink_all_facts src (outputs found) oa) as (Hnb & Hgb & Hfb & Hcb).
  fold oa in Hna, Hga, Hfa, Hca. fold ob in Hnb, Hgb, Hfb, Hcb.
  destruct (move_all_facts src f sel ob x y []) as (Hnc & Hcc & Hfc & r & Hgc & Hr);
    [|done|].
  { by rewrite (sole_graph_ext oa ob), (sole_graph_ext o1 oa). }
  fold oc in Hnc, Hcc, Hfc, Hgc.
  assert (get_available_id oc = get_available_id o1) as Hav.
  { rewrite (available_ext ob oc), (available_ext oa ob),
      (available_ext o1 oa); done. }
  assert (node_id cn = get_available_id o1) as Hid by (by rewrite Hcn, <- Hav).
  split_and!.
  - done.
  - rewrite Hn, Hnc, Hnb, Hna. f_equal. by rewrite Hcn.
  - intros c. rewrite Hc, Hcc, Hcb, Hca. tauto.
  - congruence.
  - rewrite Hgr, Hgc. simpl. case_bool_decide.
    + eexists. split; [done|]. intros Hne. congruence.
    + exists r. split; [done|]. intros Hne. by rewrite Hr.
Qed.

(** The names of the graphs. *)
Lemma update_graph_names name h o :
  graph_name <$> _graphs (update_graph name h o) = graph_name <$> _graphs o.
Proof.
  unfold update_graph. cbn [_graphs set_graphs].
  rewrite <- list_fmap_compose. apply list_fmap_ext. intros i gr _. simpl.
  by case_bool_decide.
Qed.

Lemma move_all_names s t l : ∀ o,
  graph_name <$> _graphs (move_all s l t o) = graph_name <$> _graphs o.
Proof.
  unfold move_all. induction l as [|n l IH]; intros o; simpl; [done|].
  rewrite IH. unfold move_node_to. by rewrite !update_graph_names.
Qed.

Lemma collapse_move_names f src sel found o call o3 :
  collapse_move f src sel found o = (call, o3) →
  graph_name <$> _graphs o3 = graph_name <$> _graphs o.
Proof.
  unfold collapse_move, create_node. intros [= _ <-].
  rewrite update_graph_names. cbn [_graphs set_nodes].
  rewrite move_all_names.
  destruct (unlink_all_facts src (outputs found)
              (unlink_all src (inputs found) o)) as (_ & -> & _).
  by destruct (unlink_all_facts src (inputs found) o) as (_ & -> & _).
Qed.

Lemma create_new_function_names p_name v fname v1 :
  _create_new_function p_name true v = (Some fname, v1) →
  graph_name <$> _graphs (_orchestration v1)
  = (graph_name <$> _graphs (_orchestration v)) ++ [fname].
Proof.
  unfold _create_new_function.
  destruct (has_graph (_orchestration v) p_name) eqn:Hg; [done|].
  unfold create_graph. rewrite Hg. unfold create_function_entry, create_node.
  cbn [fst snd]. intros [= <- <-]. cbn [_orchestration emit].
  rewrite update_graph_names. cbn [_graphs set_nodes set_functions].
  rewrite update_graph_names. cbn [_graphs set_nodes set_graphs].
  by rewrite fmap_app.
Qed.

(** ** The direct link from the Entry node to the Result node *)

Lemma has_any_connections_false o n d i :
  OScriptNode.has_any_connections o n d i = false
  ↔ pin_free o (node_id n) d i.
Proof.
  unfold OScriptNode.has_any_connections, OScriptNode.get_connections,
    connected_pins, pin_free.
  destruct (filter _ (_connections o)) as [|c l] eqn:E; simpl.
  - split; [|done]. intros _ c Hc Hp.
    assert (c ∈ filter (λ c, inner_node d c = node_id n ∧ inner_port d c = i)
                       (_connections o)) as H
      by (by apply list_elem_of_filter).
    rewrite E in H. by apply elem_of_nil in H.
  - split; [done|]. intros H. exfalso.
    assert (c ∈ filter (λ c, inner_node d c = node_id n ∧ inner_port d c = i)
                       (_connections o)) as Hc
      by (rewrite E; apply elem_of_cons; by left).
    apply list_elem_of_filter in Hc as [Hp Hc]. by apply (H c).
Qed.

Lemma pin_free_dec o id d i : Decision (pin_free o id d i).
Proof.
  destruct (decide (Forall (λ c, ¬ (inner_node d c = id ∧ inner_port d c = i))
                           (_connections o))) as [H|H].
  - left. intros c Hc. by eapply Forall_forall in H.
  - right. intros H'. apply H, Forall_forall. intros c Hc. by apply H'.
Qed.

Section EntryToResult.

Context (f g tgt : string) (entry result : Z).

Lemma link_entry_to_result_facts o ev o1 ev1 en rn :
  get_node o entry = Some en → node_kind en = FunctionEntry f →
  get_node o result = Some rn → node_kind rn = FunctionResult g →
  link_entry_to_result tgt entry result (o, ev) = Some (o1, ev1) →
  frame f [entry; result] o o1
  ∧ _functions o1 = _functions o
  ∧ get_node o1 result = Some rn
  ∧ (pin_free o result PD_Input 0 ∧ pin_free o entry PD_Output 0 →
     (∀ c, c ∈ _connections o1
           ↔ c ∈ _connections o ∨ c = mkConnection entry 0 result 0)
     ∧ (function_arguments o f = [] →
        get_node o1 entry
        = Some (with_position
                  (Vector2_sub (node_position rn) (mkVector2 250 0)) en)))
  ∧ (¬ (pin_free o result PD_Input 0 ∧ pin_free o entry PD_Output 0) →
     o1 = o).
Proof.
  intros Hen Hek Hrn Hrk H. unfold link_entry_to_result in H.
  rewrite Hrn in H. simpl in H.
  assert (node_id rn = result) as Hrid
    by (by apply get_node_Some in Hrn as [_ ?]).
  assert (node_id en = entry) as Heid
    by (by apply get_node_Some in Hen as [_ ?]).
  unfold OScriptNode.find_pin, OScriptNode.find_pins in H.
  rewrite Hrk in H. simpl in H.
  destruct (OScriptNode.has_any_connections o rn PD_Input 0) eqn:Hr0;
    simpl in H.
  { injection H as <- <-. split_and!; try done; try apply frame_refl.
    intros [Hfree _]. rewrite <- Hrid in Hfree.
    apply has_any_connections_false in Hfree. congruence. }
  rewrite Hen in H. simpl in H. rewrite Hek in H. simpl in H.
  destruct (OScriptNode.has_any_connections o en PD_Output 0) eqn:He0;
    simpl in H.
  { injection H as <- <-. split_and!; try done; try apply frame_refl.
    intros [_ Hfree]. rewrite <- Heid in Hfree.
    apply has_any_connections_false in Hfree. congruence. }
  change (get_node (link ?a ?b ?c ?d ?e ?x) ?i) with (get_node x i) in H.
  rewrite Hen in H. simpl in H.
  unfold OScriptNode.find_pins in H. rewrite Hek in H.
  change (function_arguments (link ?a ?b ?c ?d ?e ?x) f)
    with (function_arguments x f) in H.
  case_bool_decide as Hlen.
  - rewrite Hrn in H. simpl in H.
    destruct (OScriptNode.set_position entry _ _) as [o2|] eqn:Hset;
      [|done].
    simpl in H. injection H as <- <-.
    destruct (set_position_fields _ _ _ _ Hset) as [Hc Hf].
    pose proof Hset as Hset'. unfold OScriptNode.set_position in Hset'.
    change (get_node (link ?a ?b ?c ?d ?e ?x) ?i) with (get_node x i)
      in Hset'.
    rewrite Hen in Hset'. injection Hset' as <-.
    split_and!.
    + eapply frame_trans; [apply frame_link|].
      eapply frame_set_position; [|exact Hset]. apply elem_of_cons. by left.
    + done.
    + rewrite get_node_update_node by done.
      change (get_node (link ?a ?b ?c ?d ?e ?x) ?i) with (get_node x i).
      rewrite Hrn. simpl. unfold has_id.
      rewrite bool_decide_eq_false_2; [done|]. congruence.
    + intros _. split.
      * intros c. simpl. by rewrite set_insert_elem.
      * intros _. rewrite get_node_update_node by done.
        change (get_node (link ?a ?b ?c ?d ?e ?x) ?i) with (get_node x i).
        rewrite Hen. simpl. unfold has_id.
        by rewrite bool_decide_eq_true_2.
    + intros Hnot. exfalso. apply Hnot. rewrite <- Hrid, <- Heid.
      split; by apply has_any_connections_false.
  - injection H as <- <-. split_and!; try done; try apply frame_link.
    + intros _. split.
      * intros c. simpl. by rewrite set_insert_elem.
      * intros Hargs. exfalso. apply Hlen. simpl. by rewrite Hargs.
    + intros Hnot. exfalso. apply Hnot. rewrite <- Hrid, <- Heid.
      split; by apply has_any_connections_false.
Qed.

End EntryToResult.

(** ** A completed extraction, step by step *)

Lemma collapse_done_inv cun p_graph v run :
  collapse cun p_graph v = Done run →
  let o := _orchestration v in
  let sel := get_selected_script_nodes o p_graph in
  let found := resolve o sel in
  ∃ f v1,
    sel ≠ []
    ∧ List.find (λ n, negb (can_duplicate n)) sel = None
    ∧ ¬ 1 < input_executions found
    ∧ ¬ 1 < output_executions found
    ∧ ¬ (2 < length (outputs found))%nat
    ∧ _create_new_function (cun "NewFunction" (get_function_names o)) true v
      = (Some f, v1)
    ∧ collapse_into f (owning_graph p_graph) sel found v1 = Some run.
Proof.
  intros H o sel found. unfold collapse in H. fold o sel found in H.
  destruct sel as [|n0 rest] eqn:Hsel; [done|].
  destruct (List.find _ (n0 :: rest)) eqn:Hdup; [done|].
  repeat case_bool_decide; try done.
  destruct (_create_new_function _ true v) as [[f|] v1] eqn:Hnew; [|done].
  destruct (collapse_into f _ _ _ v1) as [run'|] eqn:Hrun; [|done].
  injection H as <-. exists f, v1. split_and!; done.
Qed.

Lemma collapse_into_inv f src sel found v1 run :
  collapse_into f src sel found v1 = Some run →
  ∃ call o3 fn w4 o4 ev4 o5 ev5 o6 ev6 w7 o7,
    collapse_move f src sel found (_orchestration v1) = (call, o3)
    ∧ find_function o3 f = Some fn
    ∧ for_each (wire_input src f f call (owning_node_id fn))
               (mkInputWiring 1 1 false false false, o3, log v1)
               (inputs found) = Some (w4, o4, ev4)
    ∧ match node_id <$> get_return_node o3 f with
      | Some r =>
          (∃ w5, for_each (wire_result f f r)
                          (mkResultWiring false false false, o4, ev4)
                          (outputs found) = Some (w5, o5, ev5))
          ∧ link_entry_to_result f (owning_node_id fn) r (o5, ev5)
            = Some (o6, ev6)
      | None => o5 = o4 ∧ ev5 = ev4 ∧ o6 = o5 ∧ ev6 = ev5
      end
    ∧ for_each (wire_call_output src call) (mkCallOutputWiring 1 false, o6)
               (outputs found) = Some (w7, o7)
    ∧ run = mkCollapseRun f call (owning_node_id fn)
              (node_id <$> get_return_node o3 f) (inputs found)
              (outputs found) o5
              (mkView o7 (ev6 ++ [NodeChanged call; FunctionsFindAndEdit f])).
Proof.
  unfold collapse_into.
  destruct (collapse_move f src sel found (_orchestration v1))
    as [call o3] eqn:Hmove.
  destruct (find_function o3 f) as [fn|] eqn:Hfn; [|cbn [mbind option_bind]; intros D; discriminate D].
  cbn [mbind option_bind].
  destruct (for_each (wire_input src f f call (owning_node_id fn)) _ _)
    as [[[w4 o4] ev4]|] eqn:Hin; [|cbn [mbind option_bind]; intros D; discriminate D].
  cbn [mbind option_bind].
  destruct (node_id <$> get_return_node o3 f) as [r|] eqn:Hres; cbn [mbind option_bind].
  - destruct (for_each (wire_result f f r) _ _)
      as [[[w5 o5] ev5]|] eqn:Hout; [|cbn [mbind option_bind]; intros D; discriminate D].
  cbn [mbind option_bind].
    destruct (link_entry_to_result f (owning_node_id fn) r (o5, ev5))
      as [[o6 ev6]|] eqn:Hfix; [|cbn [mbind option_bind]; intros D; discriminate D].
  cbn [mbind option_bind].
    destruct (for_each (wire_call_output src call) _ _)
      as [[w7 o7]|] eqn:Hcall; [|cbn [mbind option_bind]; intros D; discriminate D].
  cbn [mbind option_bind].
    intros [= <-]. exists call, o3, fn, w4, o4, ev4, o5, ev5, o6, ev6, w7, o7.
    rewrite Hres. split_and!; try done. by exists w5.
  - destruct (for_each (wire_call_output src call) _ _)
      as [[w7 o7]|] eqn:Hcall; [|cbn [mbind option_bind]; intros D; discriminate D].
  cbn [mbind option_bind].
    intros [= <-]. exists call, o3, fn, w4, o4, ev4, o4, ev4, o4, ev4, w7, o7.
    rewrite Hres. split_and!; done.
Qed.

(** ** From the Orchestration before to the Orchestration after *)

Lemma find_app_l {A} (P : A → bool) (l l' : list A) :
  List.find P (l ++ l')
  = match List.find P l with Some x => Some x | None => List.find P l' end.
Proof. induction l as [|a l IH]; simpl; [done|]. by destruct (P a). Qed.

Lemma find_ext_in {A} (P Q : A → bool) (l : list A) :
  (∀ x, x ∈ l → P x = Q x) → List.find P l = List.find Q l.
Proof.
  induction l as [|a l IH]; intros H; simpl; [done|].
  rewrite (H a) by (apply elem_of_cons; by left).
  rewrite IH; [done|]. intros x Hx. apply H, elem_of_cons. by right.
Qed.

Lemma filter_ext_elem {A} (P Q : A → bool) (l : list A) :
  (∀ x, x ∈ l → P x = Q x) → List.filter P l = List.filter Q l.
Proof.
  intros H. apply List.filter_ext_in. intros x Hx. by apply H, list_elem_of_In.
Qed.

Lemma first_link_ext w P Q mk l :
  (∀ x, x ∈ l → P x = Q x) → first_link w P mk l = first_link w Q mk l.
Proof. intros H. unfold first_link. by rewrite (find_ext_in P Q l H). Qed.

Lemma numbered_links_ext k P Q mk l :
  (∀ x, x ∈ l → P x = Q x) →
  numbered_links k P mk l = numbered_links k Q mk l.
Proof. intros H. unfold numbered_links. by rewrite (filter_ext_elem P Q l H). Qed.

Lemma selected_resolved o p_graph n :
  n ∈ get_selected_script_nodes o p_graph → get_node o (node_id n) = Some n.
Proof.
  unfold get_selected_script_nodes. intros (id & _ & Hn)%list_elem_of_omap.
  pose proof (get_node_Some _ _ _ Hn) as [_ ->]. done.
Qed.

Lemma bucket_subset o sel E :
  E ∈ inputs (resolve o sel) ∨ E ∈ outputs (resolve o sel) →
  E ∈ _connections o.
Proof.
  destruct (resolve_buckets_elem (OScriptNode.find_pins o)
              (OScriptNode.get_connections o) (_connections o) sel)
    as (_ & Hi & Ho).
  intros [H|H]; [apply Hi in H|apply Ho in H]; tauto.
Qed.

(** An Orchestration that has grown by nodes and by the function [f]. *)
Section Grown.

Context (f : string) (o o' : Orchestration)
        (extra : list OScriptNode) (fn : OScriptFunction).
Context (Hnodes : _nodes o' = _nodes o ++ extra)
        (Hfuns : _functions o' = _functions o ++ [fn])
        (Hname : function_name fn = f)
        (Hfresh : find_function o f = None).

Lemma grown_get_node id n : get_node o id = Some n → get_node o' id = Some n.
Proof.
  unfold get_node. rewrite Hnodes, find_app_l. by intros ->.
Qed.

Lemma grown_find_function g :
  g ≠ f → find_function o' g = find_function o g.
Proof.
  intros Hg. unfold find_function. rewrite Hfuns, find_app_l.
  destruct (List.find _ (_functions o)); [done|]. simpl.
  rewrite bool_decide_eq_false_2; [done|]. congruence.
Qed.

Lemma grown_find_function_new : find_function o' f = Some fn.
Proof.
  unfold find_function in *. rewrite Hfuns, find_app_l, Hfresh. simpl.
  by rewrite bool_decide_eq_true_2.
Qed.

Lemma grown_find_pins n d :
  references n ≠ Some f →
  OScriptNode.find_pins o' n d = OScriptNode.find_pins o n d.
Proof.
  intros Href. unfold OScriptNode.find_pins, references in *.
  destruct (node_kind n) as [g|g|g|]; [| | |done];
    assert (g ≠ f) by congruence;
    unfold function_arguments, OScriptNode.return_pins;
    by rewrite (grown_find_function g).
Qed.

Context (Hwf : well_formed o).

Lemma old_node_reference n : n ∈ _nodes o → references n ≠ Some f.
Proof.
  intros Hn Href. apply (wf_references _ Hwf) in Href; [|done].
  by apply find_function_None in Hfresh.
Qed.

Lemma grown_pins E :
  E ∈ _connections o →
  source_pin o' E = source_pin o E ∧ target_pin o' E = target_pin o E.
Proof.
  intros HE. destruct (wf_connections _ Hwf E HE) as [Hs Ht].
  apply get_node_is_Some in Hs as [s Hs].
  apply get_node_is_Some in Ht as [t Ht].
  unfold source_pin, target_pin.
  rewrite (grown_get_node _ _ Hs), (grown_get_node _ _ Ht), Hs, Ht. simpl.
  rewrite !grown_find_pins; [done| |].
  - apply old_node_reference. by apply get_node_Some in Ht as [? _].
  - apply old_node_reference. by apply get_node_Some in Hs as [? _].
Qed.

Lemma grown_stable moved E :
  (∀ id, id ∈ moved → get_available_id o ≤ id) →
  E ∈ _connections o → stable_ends f moved o' E.
Proof.
  intros Hmoved HE. destruct (wf_connections _ Hwf E HE) as [Hs Ht].
  apply get_node_is_Some in Hs as [s Hs].
  apply get_node_is_Some in Ht as [t Ht].
  exists s, t. split_and!.
  - by apply grown_get_node.
  - by apply grown_get_node.
  - intros Hin%Hmoved. apply get_node_below in Hs. lia.
  - intros Hin%Hmoved. apply get_node_below in Ht. lia.
  - apply old_node_reference. by apply get_node_Some in Hs as [? _].
  - apply old_node_reference. by apply get_node_Some in Ht as [? _].
Qed.

End Grown.

Lemma max_id_ge (l : list Z) : -1 ≤ foldr Z.max (-1) l.
Proof. induction l as [|a l IH]; simpl; lia. Qed.

Lemma max_id_app (l l' : list Z) :
  foldr Z.max (-1) (l ++ l')
  = Z.max (foldr Z.max (-1) l) (foldr Z.max (-1) l').
Proof.
  induction l as [|a l IH]; simpl.
  - pose proof (max_id_ge l'). lia.
  - rewrite IH. lia.
Qed.

Lemma omap_ext_elem {A B} (g h : A → option B) (l : list A) :
  (∀ x, x ∈ l → g x = h x) → omap g l = omap h l.
Proof.
  induction l as [|a l IH]; intros H; [done|].
  assert (omap g l = omap h l) as IH'.
  { apply IH. intros x Hx. apply H, elem_of_cons. by right. }
  simpl. rewrite (H a) by (apply elem_of_cons; by left).
  destruct (h a); [f_equal|]; exact IH'.
Qed.

Lemma get_node_same_nodes o o' id :
  _nodes o' = _nodes o → get_node o' id = get_node o id.
Proof. unfold get_node. by intros ->. Qed.

Lemma shape_kind n m : node_shape n = node_shape m → node_kind n = node_kind m.
Proof. unfold node_shape, with_position. by intros [= _ ? _ _ _]. Qed.

(** The pins of the boundary connections read the same after the function
    and the Call node have been created. *)
Lemma grown_links f o o' extra fn l :
  _nodes o' = _nodes o ++ extra → _functions o' = _functions o ++ [fn] →
  function_name fn = f → find_function o f = None → well_formed o →
  (∀ E, E ∈ l → E ∈ _connections o) →
  (∀ w mk, first_link w (exec_source o') mk l
           = first_link w (exec_source o) mk l)
  ∧ (∀ w mk, first_link w (data_source o') mk l
             = first_link w (data_source o) mk l)
  ∧ (∀ w mk, first_link w (exec_target o') mk l
             = first_link w (exec_target o) mk l)
  ∧ (∀ k mk, numbered_links k (data_source o') mk l
             = numbered_links k (data_source o) mk l)
  ∧ (∀ k mk, numbered_links k (data_target o') mk l
             = numbered_links k (data_target o) mk l)
  ∧ inbound_arguments o' l = inbound_arguments o l
  ∧ outbound_return o' l = outbound_return o l
  ∧ (∀ E, E ∈ l → source_pin o' E = source_pin o E
                  ∧ target_pin o' E = target_pin o E).
Proof.
  intros Hn Hf Hname Hfresh Hwf Hl.
  assert (Hp : ∀ E, E ∈ l → source_pin o' E = source_pin o E
                            ∧ target_pin o' E = target_pin o E).
  { intros E HE. eapply grown_pins; eauto. }
  assert (Hes : ∀ E, E ∈ l → exec_source o' E = exec_source o E)
    by (intros E HE; unfold exec_source; by rewrite (proj1 (Hp E HE))).
  assert (Hds : ∀ E, E ∈ l → data_source o' E = data_source o E)
    by (intros E HE; unfold data_source; by rewrite (proj1 (Hp E HE))).
  assert (Het : ∀ E, E ∈ l → exec_target o' E = exec_target o E)
    by (intros E HE; unfold exec_target; by rewrite (proj2 (Hp E HE))).
  assert (Hdt : ∀ E, E ∈ l → data_target o' E = data_target o E)
    by (intros E HE; unfold data_target; by rewrite (proj2 (Hp E HE))).
  split_and!; try (intros; by apply first_link_ext);
    try (intros; by apply numbered_links_ext); try done.
  - unfold inbound_arguments. rewrite (filter_ext_elem _ _ l Hdt).
    apply omap_ext_elem. intros E HE.
    apply list_elem_of_In, filter_In in HE as [HE _].
    apply list_elem_of_In in HE. by rewrite (proj2 (Hp E HE)).
  - unfold outbound_return. rewrite (find_ext_in _ _ l Hds).
    destruct (List.find (data_source o) l) as [E|] eqn:HE; [|done].
    apply find_some in HE as [HE _]. apply list_elem_of_In in HE.
    by rewrite (proj1 (Hp E HE)).
Qed.

(** ** What a completed extraction has done *)

Lemma collapse_extracted cun p_graph v run :
  well_formed (_orchestration v) →
  collapse cun p_graph v = Done run →
  extracted (_orchestration v)
            (get_selected_script_nodes (_orchestration v) p_graph)
            (owning_graph p_graph) run.
Proof.
  intros Hwf Hrun.
  destruct (collapse_done_inv _ _ _ _ Hrun)
    as (f & v1 & Hne & Hdup & _ & _ & _ & Hnew & Hinto).
  set (o := _orchestration v) in *.
  set (sel := get_selected_script_nodes o p_graph) in *.
  set (found := resolve o sel) in *.
  set (src := owning_graph p_graph) in *.
  destruct (create_new_function_done _ _ _ _ Hnew)
    as (Hname & Hgraph & Hn1 & Hc1 & Hf1 & Hsg1 & Hlog1).
  pose proof (create_new_function_names _ _ _ _ Hnew) as Hnames1.
  rewrite <- Hname in Hgraph, Hn1, Hf1, Hsg1. clear Hname Hnew.
  fold o in Hgraph, Hn1, Hc1, Hf1, Hsg1.
  set (a := get_available_id o) in *.
  set (o1 := _orchestration v1) in *.
  destruct (collapse_into_inv _ _ _ _ _ _ Hinto)
    as (call & o3 & fn & w4 & o4 & ev4 & o5 & ev5 & o6 & ev6 & w7 & o7
        & Hmove & Hfn & Hin & Hres & Hcall & ->).
  fold o1 in Hmove.
  (* the selected nodes are old *)
  assert (Hsel : ∀ n, n ∈ sel → node_id n ≠ a ∧ node_id n ≠ a + 1).
  { intros n Hn%selected_resolved%get_node_below. fold a in Hn. lia. }
  destruct (collapse_move_facts _ _ _ _ _ _ _ a (a + 1) Hmove Hsg1 Hsel)
    as (Hcallid & Hn3 & Hc3 & Hf3 & rest & Hg3 & Hrest).
  assert (Hav1 : get_available_id o1 = a + 2).
  { unfold get_available_id. rewrite Hn1, fmap_app, max_id_app. simpl.
    unfold a, get_available_id. pose proof (max_id_ge (node_id <$> _nodes o)).
    lia. }
  rewrite Hav1 in Hcallid. subst call.
  rewrite Hn1, <- app_assoc in Hn3. simpl in Hn3.
  rewrite Hf1 in Hf3.
  (* the function is new *)
  assert (Hfresh : find_function o f = None).
  { destruct (find_function o f) as [fn'|] eqn:E; [|done].
    apply find_function_Some in E as [Hin' <-].
    apply (wf_functions _ Hwf) in Hin'. unfold has_graph in Hgraph.
    by apply bool_decide_eq_false in Hgraph. }
  assert (fn = mkFunction f a [] false 0) as ->.
  { pose proof (grown_find_function_new f o o3 (mkFunction f a [] false 0)
                  Hf3 eq_refl Hfresh). congruence. }
  cbn [owning_node_id] in *.
  (* the new nodes *)
  assert (Hnone : ∀ id, a ≤ id → List.find (has_id id) (_nodes o) = None).
  { intros id Hid. apply find_has_id_None. intros Hin'%available_above.
    fold a in Hin'. lia. }
  assert (He3 : get_node o3 a = Some (entry_node a f)).
  { unfold get_node. rewrite Hn3, find_app_l, Hnone by lia. simpl.
    unfold has_id. simpl. by rewrite bool_decide_eq_true_2. }
  assert (Hr3 : get_node o3 (a + 1) = Some (result_node (a + 1) f)).
  { unfold get_node. rewrite Hn3, find_app_l, Hnone by lia. simpl.
    unfold has_id. simpl. rewrite bool_decide_eq_false_2 by lia.
    by rewrite bool_decide_eq_true_2. }
  assert (Hcn3 : get_node o3 (a + 2)
                 = Some (call_node (a + 2) f
                           (Rect2_get_center (_get_node_set_rect sel)))).
  { unfold get_node. rewrite Hn3, find_app_l, Hnone by lia. simpl.
    unfold has_id. simpl. rewrite !bool_decide_eq_false_2 by lia.
    by rewrite bool_decide_eq_true_2. }
  assert (Hret3 : node_id <$> get_return_node o3 f = Some (a + 1)).
  { unfold get_return_node. rewrite (get_nodes_sole _ _ _ Hg3). simpl.
    rewrite He3, Hr3. done. }
  rewrite Hret3 in Hres |- *. destruct Hres as [[w5 Hout] Hfix].
  (* the loops *)
  set (moved := [a; a + 1]).
  assert (Hbase : is_Some (find_function o3 f)) by (by eexists).
  assert (Hsub : ∀ E, E ∈ inputs found ∨ E ∈ outputs found →
                      E ∈ _connections o)
    by (intros E HE; by apply (bucket_subset o sel)).
  assert (Hstable : ∀ E, E ∈ inputs found ∨ E ∈ outputs found →
                         stable_ends f moved o3 E).
  { intros E HE. eapply (grown_stable f o o3); eauto.
    intros id Hid. unfold moved in Hid.
    apply elem_of_cons in Hid as [->|Hid]; [fold a; lia|].
    apply list_elem_of_singleton in Hid as ->. fold a. lia. }
  assert (Ha_moved : a ∈ moved) by (apply elem_of_cons; by left).
  assert (Hr_moved : a + 1 ∈ moved)
    by (apply elem_of_cons; right; apply elem_of_cons; by left).
  destruct (wire_inputs f src f (a + 2) a moved o3 Ha_moved Hbase _ _ _ _ _ _ _
              (frame_refl _ _ _) (λ E HE, Hstable E (or_introl HE)) Hin)
    as (Hfr4 & Hpins4 & Hc4 & Harg4 & Hret4).
  destruct (wire_results f f (a + 1) moved o3 Hr_moved Hbase _ _ _ _ _ _ _
              Hfr4 (λ E HE, Hstable E (or_intror HE)) Hout)
    as (Hfr45 & Hpins5 & Hc5 & Harg5 & Hret5).
  assert (Hfr5 : frame f moved o3 o5) by (eapply frame_trans; eassumption).
  (* the Entry and Result nodes before the direct link *)
  assert (∃ en, get_node o5 a = Some en ∧ node_kind en = FunctionEntry f)
    as (en & Hen & Henk).
  { pose proof (frame_shape _ _ _ _ Hfr5 a) as Hs. rewrite He3 in Hs.
    destruct (get_node o5 a) as [en|]; [|done]. exists en. split; [done|].
    assert (node_shape en = node_shape (entry_node a f)) as Hs'
      by (simpl in Hs; congruence).
    by apply shape_kind in Hs'. }
  assert (∃ rn, get_node o5 (a + 1) = Some rn
                ∧ node_kind rn = FunctionResult f) as (rn & Hrn & Hrnk).
  { pose proof (frame_shape _ _ _ _ Hfr5 (a + 1)) as Hs. rewrite Hr3 in Hs.
    destruct (get_node o5 (a + 1)) as [rn|]; [|done]. exists rn.
    split; [done|].
    assert (node_shape rn = node_shape (result_node (a + 1) f)) as Hs'
      by (simpl in Hs; congruence).
    by apply shape_kind in Hs'. }
  destruct (link_entry_to_result_facts f f f a (a + 1) _ _ _ _ _ _
              Hen Henk Hrn Hrnk Hfix)
    as (Hfr56 & Hf6 & Hrn6 & Hfree & Hbusy).
  assert (Hfr6 : frame f moved o3 o6) by (eapply frame_trans; eassumption).
  destruct (wire_call_outputs f src (a + 2) moved o3 _ _ _ _ _
              Hfr6 (λ E HE, Hstable E (or_intror HE)) Hcall)
    as (Hn7 & Hg7 & Hf7 & Hpins7 & Hc7).
  destruct (grown_links f o o3 _ _ (inputs found) Hn3 Hf3 eq_refl Hfresh Hwf
              (λ E HE, Hsub E (or_introl HE)))
    as (Li1 & Li2 & Li3 & Li4 & Li5 & Li6 & _ & Lip).
  destruct (grown_links f o o3 _ _ (outputs found) Hn3 Hf3 eq_refl Hfresh Hwf
              (λ E HE, Hsub E (or_intror HE)))
    as (Lo1 & Lo2 & Lo3 & Lo4 & Lo5 & _ & Lo7 & Lop).
  assert (Harg3 : function_arguments o3 f = [])
    by (by rewrite (function_arguments_Some _ _ _ Hfn)).
  assert (Hargs5 : function_arguments o5 f = inbound_arguments o (inputs found)).
  { rewrite Harg5, Harg4, Harg3, <- Li6. done. }
  assert (Hn_old : ∀ id n, get_node o id = Some n → id ∉ moved).
  { intros id n Hn%get_node_below. fold a in Hn. unfold moved.
    rewrite !not_elem_of_cons. split_and!; try lia. apply not_elem_of_nil. }
  assert (Hcall_moved : a + 2 ∉ moved).
  { unfold moved. rewrite !not_elem_of_cons. split_and!; try lia.
    apply not_elem_of_nil. }
  split; cbn [run_function run_call_node run_entry run_result run_inputs
              run_outputs run_rewired run_final _orchestration]; fold a.
  - done.
  - done.
  - done.
  - done.
  - done.
  - done.
  - done.
  - intros E [HE|HE].
    + destruct (Hpins4 E HE) as [Hs Ht]. destruct (Lip E HE) as [<- <-]. done.
    + destruct (Lop E HE) as [<- <-]. split; [by apply Hpins5|by apply Hpins7].
  - intros c. rewrite Hc5, Hc4, Hc3. cbn [output_execution_wired
      output_data_wired call_execution_wired call_input_index
      input_execution_wired input_index].
    unfold call_input_links, entry_links, result_links.
    rewrite !elem_of_app, Li1, Li3, Li4, Li5, Lo1, Lo2.
    fold o1. rewrite Hc1. tauto.
  - intros c. rewrite Hc7. cbn [call_output_execution_wired call_output_index].
    unfold call_output_links. rewrite elem_of_app, Lo3, Lo5.
    destruct (pin_free_dec o5 (a + 1) PD_Input 0) as [Hf1'|Hf1'];
      [destruct (pin_free_dec o5 a PD_Output 0) as [Hf2'|Hf2']|].
    + destruct (Hfree (conj Hf1' Hf2')) as [Hc6 _]. rewrite Hc6. tauto.
    + rewrite (Hbusy ltac:(tauto)). tauto.
    + rewrite (Hbusy ltac:(tauto)). tauto.
  - destruct (frame_found f moved o3 o5 Hfr5 Hbase) as [fn5 Hfn5].
    exists fn5. split_and!.
    + unfold find_function in *. by rewrite Hf7, Hf6.
    + pose proof (frame_function _ _ _ _ Hfr5) as Hid.
      rewrite Hfn5, Hfn in Hid. by injection Hid as _ ->.
    + by rewrite <- Hargs5, (function_arguments_Some _ _ _ Hfn5).
    + rewrite <- Lo7.
      assert (return_info o5 f = outbound_return o3 (outputs found)) as <-.
      { rewrite Hret5. cbn [output_data_wired]. unfold outbound_return.
        destruct (List.find _ _); [done|]. rewrite Hret4.
        unfold return_info. by rewrite Hfn. }
      unfold return_info. by rewrite Hfn5.
  - intros g Hg. unfold find_function at 1. rewrite Hf7.
    change (List.find _ (_functions o6)) with (find_function o6 g).
    rewrite (frame_functions _ _ _ _ Hfr6 g Hg).
    by eapply grown_find_function.
  - rewrite Hn7, (frame_ids _ _ _ _ Hfr6), Hn3, fmap_app. done.
  - intros id n Hn. rewrite (get_node_same_nodes o6 o7) by done.
    rewrite (frame_fixed _ _ _ _ Hfr6) by (by eapply Hn_old).
    by eapply grown_get_node.
  - rewrite (get_node_same_nodes o6 o7) by done.
    by rewrite (frame_shape _ _ _ _ Hfr6), He3.
  - rewrite (get_node_same_nodes o6 o7) by done.
    by rewrite (frame_shape _ _ _ _ Hfr6), Hr3.
  - rewrite (get_node_same_nodes o6 o7) by done.
    by rewrite (frame_fixed _ _ _ _ Hfr6).
  - exists rest. split; [|done].
    rewrite (sole_graph_ext o6 o7) by done.
    by rewrite (sole_graph_ext o3 o6) by apply (frame_graphs _ _ _ _ Hfr6).
  - intros Hf1' Hf2' Hnoarg.
    destruct (Hfree (conj Hf1' Hf2')) as [_ Hpos].
    rewrite <- Hargs5 in Hnoarg. specialize (Hpos Hnoarg).
    eexists _, rn. rewrite !(get_node_same_nodes o6 o7) by done.
    split_and!; [exact Hpos|exact Hrn6|done].
  - rewrite Hg7, (frame_graphs _ _ _ _ Hfr6).
    by rewrite (collapse_move_names _ _ _ _ _ _ _ Hmove).
Qed.

(** ** Reading the links of an extraction *)

Lemma first_link_elem P mk l c :
  c ∈ first_link false P mk l ↔ ∃ E, List.find P l = Some E ∧ c = mk E.
Proof.
  unfold first_link. destruct (List.find P l) as [E|].
  - rewrite list_elem_of_singleton. split; [eauto|]. by intros (? & [= <-] & ->).
  - rewrite elem_of_nil. split; [done|]. by intros (? & [=] & _).
Qed.

Lemma numbered_links_elem k P mk l c :
  c ∈ numbered_links k P mk l
  ↔ ∃ i E, List.filter P l !! i = Some E ∧ c = mk (k + i)%nat E.
Proof.
  unfold numbered_links. rewrite elem_of_lookup_imap. split.
  - intros (i & E & -> & HE). eauto.
  - intros (i & E & HE & ->). eauto.
Qed.

Lemma find_elem {A} (P : A → bool) l x :
  List.find P l = Some x → x ∈ l.
Proof. intros [H _]%find_some. by apply list_elem_of_In. Qed.

Lemma filter_lookup_elem {A} (P : A → bool) l i x :
  List.filter P l !! i = Some x → x ∈ l ∧ P x = true.
Proof.
  intros H%list_elem_of_lookup_2%list_elem_of_In%filter_In.
  destruct H as [H ?]. split; [by apply list_elem_of_In|done].
Qed.



(** Where a connection of the Orchestration after the extraction comes
    from. *)
Lemma extracted_connection o sel src run c :
  well_formed o → extracted o sel src run →
  let a := get_available_id o in
  let ins := run_inputs run in
  let outs := run_outputs run in
  c ∈ _connections (_orchestration (run_final run)) →
  (c ∈ _connections o ∧ from_node c < a ∧ to_node c < a)
  ∨ (∃ E, List.find (exec_source o) ins = Some E ∧ c = link_into (a + 2) 0 E)
  ∨ (∃ i E, List.filter (data_source o) ins !! i = Some E
            ∧ c = link_into (a + 2) (S i) E)
  ∨ (∃ E, List.find (exec_target o) ins = Some E ∧ c = link_out_of a 0 E)
  ∨ (∃ i E, List.filter (data_target o) ins !! i = Some E
            ∧ c = link_out_of a (S i) E)
  ∨ (∃ E, List.find (exec_source o) outs = Some E
          ∧ c = link_into (a + 1) 0 E)
  ∨ (∃ E, List.find (data_source o) outs = Some E
          ∧ c = link_into (a + 1) 1 E)
  ∨ (pin_free (run_rewired run) (a + 1) PD_Input 0
     ∧ pin_free (run_rewired run) a PD_Output 0
     ∧ c = mkConnection a 0 (a + 1) 0)
  ∨ (∃ E, List.find (exec_target o) outs = Some E
          ∧ c = link_out_of (a + 2) 0 E)
  ∨ (∃ i E, List.filter (data_target o) outs !! i = Some E
            ∧ c = link_out_of (a + 2) (S i) E).
Proof.
  intros Hwf Hex a ins outs Hc.
  apply (ex_final _ _ _ _ Hex) in Hc.
  rewrite (ex_rewired _ _ _ _ Hex) in Hc.
  rewrite (ex_entry _ _ _ _ Hex), (ex_call_node _ _ _ _ Hex) in Hc.
  fold a ins outs in Hc.
  unfold call_input_links, entry_links, result_links, call_output_links in Hc.
  rewrite !elem_of_app, !first_link_elem, !numbered_links_elem in Hc.
  destruct Hc as [[(Hc & _)|[[?|?]|[[?|?]|[?|?]]]]|[?|[?|?]]]; auto 15.
  left. split; [done|].
  destruct (wf_connections _ Hwf c Hc) as [?%available_above ?%available_above].
  done.
Qed.

(** The ends of a boundary connection are nodes that were there before. *)
Lemma extracted_boundary o sel src run E :
  well_formed o → extracted o sel src run →
  E ∈ run_inputs run ∨ E ∈ run_outputs run →
  from_node E < get_available_id o ∧ to_node E < get_available_id o.
Proof.
  intros Hwf Hex HE.
  rewrite (ex_inputs _ _ _ _ Hex), (ex_outputs _ _ _ _ Hex) in HE.
  apply bucket_subset in HE.
  destruct (wf_connections _ Hwf E HE) as [?%available_above ?%available_above].
  done.
Qed.

(** ** The wiring of a completed extraction *)

Ltac bound_ends Hwf Hex :=
  repeat match goal with
  | H : List.find _ _ = Some ?E |- _ =>
      lazymatch goal with
      | _ : from_node E < _ ∧ to_node E < _ |- _ => fail
      | _ =>
          first
            [ pose proof (extracted_boundary _ _ _ _ E Hwf Hex
                            (or_introl (find_elem _ _ _ H)))
            | pose proof (extracted_boundary _ _ _ _ E Hwf Hex
                            (or_intror (find_elem _ _ _ H))) ]
      end
  | H : List.filter _ _ !! _ = Some ?E |- _ =>
      lazymatch goal with
      | _ : from_node E < _ ∧ to_node E < _ |- _ => fail
      | _ =>
          first
            [ pose proof (extracted_boundary _ _ _ _ E Hwf Hex
                            (or_introl (proj1 (filter_lookup_elem _ _ _ _ H))))
            | pose proof (extracted_boundary _ _ _ _ E Hwf Hex
                            (or_intror (proj1 (filter_lookup_elem _ _ _ _ H)))) ]
      end
  end.

(** Case analysis on where a connection of the final Orchestration comes
    from; the connection is replaced by what it is. *)
Ltac origin Hwf Hex Hc :=
  apply (extracted_connection _ _ _ _ _ Hwf Hex) in Hc;
  destruct Hc as [(Hc & ? & ?)|[(? & ? & Hc)|[(? & ? & ? & Hc)|[(? & ? & Hc)
    |[(? & ? & ? & Hc)|[(? & ? & Hc)|[(? & ? & Hc)|[(? & ? & Hc)
    |[(? & ? & Hc)|(? & ? & ? & Hc)]]]]]]]]];
  bound_ends Hwf Hex;
  try (rewrite Hc in *; unfold link_into, link_out_of in *;
       cbn [from_node from_port to_node to_port] in *);
  try lia.

Section Extracted.

Context (o : Orchestration) (sel : list OScriptNode) (src : string)
        (run : CollapseRun).
Context (Hwf : well_formed o) (Hex : extracted o sel src run).

Let a := get_available_id o.
Let final := _orchestration (run_final run).






End Extracted.

Lemma collapse_done_run cun p_graph v v' :
  _collapse_selected_to_function cun p_graph v = Done v' →
  ∃ run, collapse cun p_graph v = Done run ∧ run_final run = v'.
Proof.
  unfold _collapse_selected_to_function.
  destruct (collapse cun p_graph v) as [run| |]; try done.
  intros [= <-]. eauto.
Qed.








(** ** The scenario *)

Lemma scenario_well_formed : well_formed Scenario.script.
Proof.
  split.
  - intros fn H. by apply elem_of_nil in H.
  - intros n f H. simpl in H.
    repeat (apply elem_of_cons in H as [->|H]; [done|]).
    by apply elem_of_nil in H.
  - intros c H. simpl in H.
    repeat (apply elem_of_cons in H as [->|H];
            [split; apply list_elem_of_In; simpl; tauto|]).
    by apply elem_of_nil in H.
  - intros n H. simpl in H.
    repeat (apply elem_of_cons in H as [->|H]; [done|]).
    by apply elem_of_nil in H.
Qed.




(** ** Inlining *)

Lemma get_node_remove_node id o k :
  get_node (remove_node id o) k
  = if decide (k = id) then None else get_node o k.
Proof.
  unfold get_node, remove_node. cbn [_nodes].
  induction (_nodes o) as [|n l IH]; simpl.
  - by destruct (decide (k = id)).
  - rewrite filter_cons.
    destruct (decide (node_id n ≠ id)) as [Hn|Hn]; simpl.
    + rewrite IH. unfold has_id. case_bool_decide; [|done].
      destruct (decide (k = id)); [congruence|done].
    + apply dec_stable in Hn. rewrite IH. unfold has_id.
      destruct (decide (k = id)); [done|].
      rewrite bool_decide_eq_false_2 by congruence. done.
Qed.

Lemma relink_facts g m l : ∀ o,
  _nodes (relink g m l o) = _nodes o
  ∧ _graphs (relink g m l o) = _graphs o
  ∧ _functions (relink g m l o) = _functions o
  ∧ ∀ c', c' ∈ _connections (relink g m l o)
          ↔ c' ∈ _connections o ∨ ∃ c, c ∈ l ∧ c' = remapped m c.
Proof.
  unfold relink. induction l as [|E l IH]; intros o; simpl.
  - split_and!; try done. intros c'. split; [auto|].
    intros [?|(c & Hc & _)]; [done|]. by apply elem_of_nil in Hc.
  - destruct (IH (link g (remap m (from_node E)) (from_port E)
                       (remap m (to_node E)) (to_port E) o))
      as (Hn & Hg & Hf & Hc).
    split_and!; try done. intros c'. rewrite Hc. unfold link at 1.
    cbn [_connections set_connections]. rewrite set_insert_elem.
    split.
    + intros [[?| ->]|(c & Hin & ->)]; auto.
      * right. exists E. split; [apply elem_of_cons; by left|done].
      * right. exists c. split; [apply elem_of_cons; by right|done].
    + intros [?|(c & [->|Hin]%elem_of_cons & ->)]; auto.
      right. by exists c.
Qed.

Lemma duplicate_into_facts g δ m o n :
  get_node o (node_id n) = Some n →
  ∃ o1,
    duplicate_into g δ (m, o) n
    = Some (<[node_id n := get_available_id o]> m, o1)
    ∧ _nodes o1 = _nodes o ++ [copy_of (get_available_id o) δ n]
    ∧ _connections o1 = _connections o
    ∧ _functions o1 = _functions o
    ∧ _graphs o1
      = (λ gr, if bool_decide (graph_name gr = g)
               then with_graph_nodes (graph_nodes gr ++ [get_available_id o])
                                     gr
               else gr) <$> _graphs o.
Proof.
  intros Hn. unfold duplicate_into, duplicate_node. cbn [fst snd].
  rewrite Hn. cbn [mbind option_bind]. eexists. split; [reflexivity|].
  split_and!; done.
Qed.

Lemma owned_by_grown g o o1 (extra : list Z) :
  _graphs o1
  = (λ gr, if bool_decide (graph_name gr = g)
           then with_graph_nodes (graph_nodes gr ++ extra) gr
           else gr) <$> _graphs o →
  (∀ k, owned_by o g k → owned_by o1 g k)
  ∧ (∀ k, k ∈ extra → owned_by o1 g k)
  ∧ graph_name <$> _graphs o1 = graph_name <$> _graphs o.
Proof.
  intros Hg. unfold owned_by. rewrite Hg. split_and!.
  - intros k H gr (gr0 & -> & Hin)%list_elem_of_fmap Hname.
    case_bool_decide as Hb; [|done]. cbn [graph_nodes with_graph_nodes].
    apply elem_of_app. left. by apply H.
  - intros k H gr (gr0 & -> & Hin)%list_elem_of_fmap Hname.
    case_bool_decide as Hb; [|done]. cbn [graph_nodes with_graph_nodes].
    apply elem_of_app. by right.
  - rewrite <- list_fmap_compose. apply list_fmap_ext. intros i gr _. simpl.
    by case_bool_decide.
Qed.

Lemma duplicate_all g δ : ∀ sel m o,
  (∀ n, n ∈ sel → get_node o (node_id n) = Some n) →
  ∃ m' o',
    for_each (duplicate_into g δ) (m, o) sel = Some (m', o')
    ∧ _connections o' = _connections o
    ∧ _functions o' = _functions o
    ∧ graph_name <$> _graphs o' = graph_name <$> _graphs o
    ∧ (∀ id x, get_node o id = Some x → get_node o' id = Some x)
    ∧ (∀ k, owned_by o g k → owned_by o' g k)
    ∧ (∀ k, (k ∉ (node_id <$> sel)) → m' !! k = m !! k)
    ∧ (∀ n, n ∈ sel →
         ∃ k, m' !! node_id n = Some k ∧ get_available_id o ≤ k
              ∧ get_node o' k = Some (copy_of k δ n) ∧ owned_by o' g k)
    ∧ (NoDup (node_id <$> sel) →
       ∀ i n, sel !! i = Some n →
              m' !! node_id n = Some (get_available_id o + Z.of_nat i)).
Proof.
  induction sel as [|n sel IH]; intros m o Hsel.
  - exists m, o. split_and!; try done.
    + intros n Hn. by apply elem_of_nil in Hn.
  - assert (Hn : get_node o (node_id n) = Some n)
      by (apply Hsel, elem_of_cons; by left).
    destruct (duplicate_into_facts g δ m o n Hn)
      as (o1 & Hstep & Hn1 & Hc1 & Hf1 & Hg1).
    set (a := get_available_id o) in *.
    assert (Ha1 : get_available_id o1 = a + 1).
    { unfold get_available_id. rewrite Hn1, fmap_app, max_id_app. simpl.
      unfold a, get_available_id.
      pose proof (max_id_ge (node_id <$> _nodes o)). lia. }
    assert (Hold : ∀ id x, get_node o id = Some x → get_node o1 id = Some x).
    { intros id x Hx. unfold get_node in *. by rewrite Hn1, find_app_l, Hx. }
    assert (Hnew : get_node o1 a = Some (copy_of a δ n)).
    { unfold get_node. rewrite Hn1, find_snoc.
      assert (List.find (has_id a) (_nodes o) = None) as ->.
      { apply find_has_id_None. intros Hin%available_above. fold a in Hin.
        lia. }
      unfold has_id. simpl. by rewrite bool_decide_eq_true_2. }
    destruct (owned_by_grown g o o1 [a] Hg1) as (Hown1 & Hown1' & Hnames1).
    destruct (IH (<[node_id n := a]> m) o1) as
      (m' & o' & Hloop & Hc' & Hf' & Hnames' & Hold' & Hown' & Hkeep'
       & Hcopies' & Hindex').
    { intros n' Hn'. apply Hold, Hsel, elem_of_cons. by right. }
    exists m', o'. rewrite Ha1 in Hcopies', Hindex'. split_and!.
    + rewrite for_each_cons, Hstep. cbn [mbind option_bind]. exact Hloop.
    + congruence.
    + congruence.
    + congruence.
    + intros id x Hx. by apply Hold', Hold.
    + intros k Hk. by apply Hown', Hown1.
    + intros k Hk. rewrite fmap_cons, not_elem_of_cons in Hk.
      destruct Hk as [Hk1 Hk2]. rewrite (Hkeep' k Hk2).
      by rewrite lookup_insert_ne.
    + intros n0 Hn0.
      destruct (decide (node_id n0 ∈ node_id <$> sel)) as [Hin|Hout].
      * apply list_elem_of_fmap in Hin as (n' & Hid & Hn').
        assert (n0 = n') as ->.
        { pose proof (Hsel n0 Hn0) as H0.
          pose proof (Hsel n' (proj2 (elem_of_cons _ _ _) (or_intror Hn')))
            as H'.
          rewrite Hid in H0. congruence. }
        destruct (Hcopies' n' Hn') as (k & ? & ? & ? & ?).
        exists k. split_and!; try done. lia.
      * apply elem_of_cons in Hn0 as [->|Hn0].
        2:{ exfalso. apply Hout, list_elem_of_fmap. by exists n0. }
        exists a. split_and!.
        -- rewrite (Hkeep' _ Hout). by rewrite lookup_insert_eq.
        -- lia.
        -- by apply Hold'.
        -- apply Hown', Hown1'. apply elem_of_cons. by left.
    + intros Hnd i n0 Hi. rewrite fmap_cons in Hnd.
      apply NoDup_cons in Hnd as [Hhd Hnd].
      destruct i as [|i]; simpl in Hi.
      * injection Hi as <-. rewrite (Hkeep' _ Hhd), lookup_insert_eq.
        f_equal. lia.
      * rewrite (Hindex' Hnd i n0 Hi). f_equal. lia.
Qed.

Lemma body_nodes_resolved o function_graph n :
  n ∈ body_nodes o function_graph → get_node o (node_id n) = Some n.
Proof.
  unfold body_nodes, get_nodes.
  intros [Hn _]%list_elem_of_In%filter_In. apply list_elem_of_In in Hn.
  apply list_elem_of_bind in Hn as (gr & Hn & _).
  apply list_elem_of_omap in Hn as (id & _ & Hn).
  pose proof (get_node_Some _ _ _ Hn) as [_ ->]. done.
Qed.

Lemma internal_bucket o sel c :
  c ∈ connections (resolve o sel) ↔ c ∈ _connections o ∧ internal sel c.
Proof.
  unfold resolve, internal.
  destruct (resolve_buckets_elem (OScriptNode.find_pins o)
              (OScriptNode.get_connections o) (get_connections o) sel)
    as (H & _). apply H.
Qed.

Lemma expand_inlined p_node_id p_graph v call fname function :
  get_node (_orchestration v) p_node_id = Some call →
  node_kind call = CallScriptFunction fname →
  find_function (_orchestration v) fname = Some function →
  body_nodes (_orchestration v) (function_name function) ≠ [] →
  ∃ run,
    expand p_node_id p_graph v = Done run
    ∧ log (expand_final run) = log v
    ∧ inlined (_orchestration v) call (function_name function)
              (owning_graph p_graph) run.
Proof.
  intros Hcall Hkind Hfn Hbody. unfold expand.
  rewrite Hcall, Hkind, Hfn. cbv zeta.
  set (o := _orchestration v) in *.
  remember (body_nodes o (function_name function)) as sel eqn:Hsel.
  assert (Hmatch : ∀ (a b : outcome ExpandRun),
            match sel with [] => a | _ :: _ => b end = b)
    by (intros; by destruct sel).
  rewrite Hmatch. clear Hmatch.
  set (delta := Vector2_sub (node_position call)
                  (Rect2_get_center (_get_node_set_rect sel))).
  set (target := owning_graph p_graph).
  destruct (duplicate_all target delta sel ∅ o) as
    (m & o' & Hloop & Hc' & Hf' & Hnames' & Hold' & _ & _ & Hcopies & Hindex).
  { intros n Hn. rewrite Hsel in Hn. by eapply body_nodes_resolved. }
  rewrite Hloop.
  destruct (relink_facts target m (connections (resolve o' sel)) o')
    as (Hn2 & Hg2 & Hf2 & Hc2).
  set (o2 := relink target m (connections (resolve o' sel)) o') in *.
  assert (Hid : node_id call = p_node_id)
    by (by apply get_node_Some in Hcall as [_ ?]).
  assert (Hbelow : p_node_id < get_available_id o)
    by (by eapply get_node_below).
  assert (Hends : ∀ c, internal sel c →
            remap m (from_node c) ≠ p_node_id
            ∧ remap m (to_node c) ≠ p_node_id).
  { intros c [(n1 & E1 & Hn1)%list_elem_of_fmap
                (n2 & E2 & Hn2')%list_elem_of_fmap].
    destruct (Hcopies n1 Hn1) as (k1 & Hk1 & ? & _).
    destruct (Hcopies n2 Hn2') as (k2 & Hk2 & ? & _).
    unfold remap. rewrite E1, E2, Hk1, Hk2. simpl. lia. }
  assert (Hbucket : ∀ c, c ∈ connections (resolve o' sel)
                         ↔ c ∈ _connections o ∧ internal sel c).
  { intros c. rewrite internal_bucket. by rewrite Hc'. }
  assert (Hfinal : ∀ c', c' ∈ _connections (remove_node (node_id call) o2)
            ↔ (c' ∈ _connections o ∧ from_node c' ≠ node_id call
               ∧ to_node c' ≠ node_id call)
              ∨ ∃ c, c ∈ _connections o ∧ internal sel c
                     ∧ c' = remapped m c).
  { intros c'. unfold remove_node. cbn [_connections].
    rewrite list_elem_of_filter, Hc2, Hc', Hid. split.
    - intros [[? ?] [?|(c & Hc%Hbucket & ->)]]; [by left|].
      right. exists c. tauto.
    - intros [(? & ? & ?)|(c & Hc & Hint & ->)]; [tauto|].
      destruct (Hends c Hint). split; [done|]. right. exists c.
      split; [|done]. by apply Hbucket. }
  eexists. split; [reflexivity|]. split; [done|].
  split; cbn [expand_selected expand_pos_delta expand_node_remap expand_final
              _orchestration]; fold o o2.
  - done.
  - done.
  - intros n Hn. destruct (Hcopies n Hn) as (k & Hk & Hge & Hcopy & Hown).
    exists k. split_and!; [done|done| |].
    + rewrite get_node_remove_node, decide_False by lia.
      by rewrite (get_node_same_nodes o' o2).
    + intros gr Hgr Hname. unfold remove_node in Hgr. cbn [_graphs] in Hgr.
      apply list_elem_of_fmap in Hgr as (gr0 & -> & Hgr0).
      cbn [graph_nodes with_graph_nodes]. apply list_elem_of_filter.
      split; [lia|]. rewrite Hg2 in Hgr0. by apply Hown.
  - intros Hnd n n' Hn Hn' Heq.
    apply list_elem_of_lookup in Hn as [i Hi].
    apply list_elem_of_lookup in Hn' as [j Hj].
    unfold remap in Heq.
    rewrite (Hindex Hnd i n Hi), (Hindex Hnd j n' Hj) in Heq. simpl in Heq.
    assert (i = j) as -> by lia. congruence.
  - intros c Hc Hint. apply Hfinal. right. by exists c.
  - exact Hfinal.
  - rewrite get_node_remove_node. by rewrite decide_True.
  - intros id n Hn Hne. rewrite get_node_remove_node, decide_False by congruence.
    rewrite (get_node_same_nodes o' o2) by done. by apply Hold'.
  - unfold remove_node. cbn [_graphs]. rewrite Hg2, <- Hnames'.
    rewrite <- list_fmap_compose. by apply list_fmap_ext.
  - unfold remove_node. cbn [_functions]. by rewrite Hf2.
Qed.

(** C6: when the id resolves to a Call node, the function of the Call node
    resolves, and the graph of the function holds a node to copy (one that
    can be duplicated and is neither the Entry nor the Result node), the
    inlining runs to its end; every such body node has a copy under a fresh
    id in the target graph, at the position of the node moved by the position
    of the Call node minus the center of the bounding rectangle of the body
    nodes; every connection between two body nodes has its counterpart
    between the ids that the old-id-to-new-id map gives; and the Call node is
    gone. *)
Theorem expand_node_inlines (p_node_id : Z) (p_graph : OrchestratorGraphEdit)
    (v : View) (call : OScriptNode) (fname : string)
    (function : OScriptFunction) :
  get_node (_orchestration v) p_node_id = Some call →
  node_kind call = CallScriptFunction fname →
  find_function (_orchestration v) fname = Some function →
  body_nodes (_orchestration v) (function_name function) ≠ [] →
  ∃ run,
    expand p_node_id p_graph v = Done run
    ∧ _expand_node p_node_id p_graph v = Done (expand_final run)
    ∧ inlined (_orchestration v) call (function_name function)
              (owning_graph p_graph) run.
Proof.
  intros Hcall Hkind Hfn Hbody.
  destruct (expand_inlined p_node_id p_graph v call fname function
              Hcall Hkind Hfn Hbody) as (run & Hrun & _ & Hil).
  exists run. split_and!; try done. unfold _expand_node. by rewrite Hrun.
Qed.

Lemma expand_node_inlines_witness :
  ∃ run,
    expand 8 Scenario.tab (extraction_of Scenario.tab) = Done run
    ∧ _expand_node 8 Scenario.tab (extraction_of Scenario.tab)
      = Done (expand_final run)
    ∧ inlined (_orchestration (extraction_of Scenario.tab)) extracted_call
              "NewFunction" "EventGraph" run.
Proof.
  apply (expand_node_inlines 8 Scenario.tab (extraction_of Scenario.tab)
           extracted_call "NewFunction" extracted_function).
  - vm_compute. reflexivity.
  - reflexivity.
  - vm_compute. reflexivity.
  - vm_compute. discriminate.
Defined.

(** ** Extraction followed by inlining *)

Lemma omap_get_node_ids o (l : list OScriptNode) :
  (∀ n, n ∈ l → get_node o (node_id n) = Some n) →
  omap (get_node o) (node_id <$> l) = l.
Proof.
  induction l as [|n l IH]; intros H; [done|].
  rewrite fmap_cons. simpl. rewrite (H n) by (apply elem_of_cons; by left).
  f_equal. apply IH. intros m Hm. apply H, elem_of_cons. by right.
Qed.

Lemma filter_all {A} (P : A → bool) (l : list A) :
  (∀ x, x ∈ l → P x = true) → List.filter P l = l.
Proof.
  induction l as [|x l IH]; intros H; [done|]. simpl.
  rewrite (H x) by (apply elem_of_cons; by left). f_equal.
  apply IH. intros y Hy. apply H, elem_of_cons. by right.
Qed.

Lemma selected_ids_NoDup o p_graph :
  NoDup (selected_ids p_graph) →
  NoDup (node_id <$> get_selected_script_nodes o p_graph).
Proof.
  unfold get_selected_script_nodes.
  induction (selected_ids p_graph) as [|i l IH]; intros Hnd; [constructor|].
  apply NoDup_cons in Hnd as [Hi Hnd]. simpl.
  destruct (get_node o i) as [n|] eqn:Hn; [|by apply IH].
  rewrite fmap_cons. apply NoDup_cons. split; [|by apply IH].
  apply get_node_Some in Hn as [_ ->].
  intros (n' & Hid & Hn')%list_elem_of_fmap.
  apply list_elem_of_omap in Hn' as (j & Hj & Hn').
  apply get_node_Some in Hn' as [_ Hn']. congruence.
Qed.

(** The ends of the connections after an extraction. *)
Lemma extracted_ends o sel src run c :
  well_formed o → extracted o sel src run →
  c ∈ _connections (_orchestration (run_final run)) →
  from_node c < get_available_id o + 3 ∧ to_node c < get_available_id o + 3
  ∧ (c ∈ _connections o ∨ get_available_id o ≤ from_node c
     ∨ get_available_id o ≤ to_node c).
Proof.
  intros Hwf Hex Hc. origin Hwf Hex Hc;
    (split_and!; [lia|lia|]); first [by left|right; lia].
Qed.

(** The body of the function that an extraction has made is the
    selection. *)
Lemma extracted_body o sel src run :
  well_formed o → extracted o sel src run →
  src ≠ run_function run →
  (∀ n, n ∈ sel → get_node o (node_id n) = Some n) →
  (∀ n, n ∈ sel → can_duplicate n = true) →
  body_nodes (_orchestration (run_final run)) (run_function run) = sel.
Proof.
  intros Hwf Hex Hsrc Hres Hdup.
  destruct (ex_graph _ _ _ _ Hex) as (rest & Hg & Hrest).
  rewrite (Hrest Hsrc) in Hg. unfold body_nodes.
  rewrite (get_nodes_sole _ _ _ Hg).
  pose proof (ex_entry_node _ _ _ _ Hex) as He.
  rewrite (ex_entry _ _ _ _ Hex) in He.
  pose proof (ex_result_node _ _ _ _ Hex) as Hr.
  cbn [omap list_omap].
  destruct (get_node _ (get_available_id o)) as [en|]; [|done].
  destruct (get_node _ (get_available_id o + 1)) as [rn|]; [|done].
  assert (node_kind en = FunctionEntry (run_function run)) as Hek
    by (simpl in He; injection He; auto).
  assert (node_kind rn = FunctionResult (run_function run)) as Hrk
    by (simpl in Hr; injection Hr; auto).
  clear He Hr. rename Hek into He. rename Hrk into Hr.
  rewrite omap_get_node_ids
    by (intros n Hn; by apply (ex_old _ _ _ _ Hex), Hres).
  cbn [List.filter]. unfold is_entry at 1, is_result at 1.
  rewrite He. cbn [node_kind entry_node negb andb].
  unfold is_entry at 1, is_result at 1.
  rewrite Hr. cbn [node_kind result_node negb andb].
  apply filter_all. intros n Hn. rewrite (Hdup n Hn).
  pose proof (Hres n Hn) as [Hin _]%get_node_Some.
  pose proof (wf_terminators _ Hwf n Hin) as Ht. rewrite (Hdup n Hn) in Ht.
  destruct (is_entry n), (is_result n); try done; by specialize (Ht eq_refl).
Qed.

Lemma collapse_then_expand cun p_graph v run1 :
  well_formed (_orchestration v) →
  NoDup (selected_ids p_graph) →
  has_graph (_orchestration v) (owning_graph p_graph) = true →
  collapse cun p_graph v = Done run1 →
  ∃ run2,
    expand (run_call_node run1) p_graph (run_final run1) = Done run2
    ∧ round_trip (_orchestration v)
        (get_selected_script_nodes (_orchestration v) p_graph)
        (owning_graph p_graph) run2.
Proof.
  intros Hwf Hnd Hsrc Hrun1.
  pose proof (collapse_extracted _ _ _ _ Hwf Hrun1) as Hex.
  destruct (collapse_done_inv _ _ _ _ Hrun1)
    as (f0 & v0 & Hne & Hdupf & _).
  set (o := _orchestration v) in *.
  set (sel := get_selected_script_nodes o p_graph) in *.
  set (src := owning_graph p_graph) in *.
  set (f := run_function run1) in *.
  set (a := get_available_id o) in *.
  set (o1 := _orchestration (run_final run1)) in *.
  assert (Hres : ∀ n, n ∈ sel → get_node o (node_id n) = Some n)
    by (intros n Hn; by eapply selected_resolved).
  assert (Hdup : ∀ n, n ∈ sel → can_duplicate n = true).
  { intros n Hn%list_elem_of_In.
    pose proof (find_none _ _ Hdupf n Hn) as H. simpl in H.
    by destruct (can_duplicate n). }
  assert (Hsrcne : src ≠ f).
  { intros Heq. pose proof (ex_fresh_graph _ _ _ _ Hex) as H.
    fold f in H. rewrite <- Heq in H. congruence. }
  pose proof (extracted_body o sel src run1 Hwf Hex Hsrcne Hres Hdup) as Hbody.
  fold f o1 in Hbody.
  destruct (ex_function _ _ _ _ Hex) as (fn & Hfn & _).
  pose proof (find_function_Some _ _ _ Hfn) as [_ Hfname]. fold f in Hfname.
  destruct (expand_inlined (run_call_node run1) p_graph (run_final run1)
              _ f fn (ex_call _ _ _ _ Hex) eq_refl Hfn)
    as (run2 & Hrun2 & _ & Hil).
  { rewrite Hfname. fold o1. by rewrite Hbody. }
  rewrite Hfname in Hil. fold o1 src in Hil.
  exists run2. split; [done|].
  set (final := _orchestration (expand_final run2)) in *.
  set (m := expand_node_remap run2) in *.
  assert (Hsel2 : expand_selected run2 = sel)
    by (by rewrite (il_selected _ _ _ _ _ Hil)).
  assert (Hcid : run_call_node run1 = a + 2) by apply (ex_call_node _ _ _ _ Hex).
  assert (Hav1 : get_available_id o1 = a + 3).
  { unfold get_available_id, o1. rewrite (ex_ids _ _ _ _ Hex), max_id_app.
    fold a. simpl. unfold a, get_available_id.
    pose proof (max_id_ge (node_id <$> _nodes o)). lia. }
  assert (Hold : ∀ n, n ∈ sel → node_id n < a).
  { intros n Hn. by eapply get_node_below, Hres. }
  assert (Hnew : ∀ n, n ∈ sel →
            a + 3 ≤ remap m (node_id n)
            ∧ get_node final (remap m (node_id n))
              = Some (copy_of (remap m (node_id n)) (expand_pos_delta run2) n)
            ∧ owned_by final src (remap m (node_id n))).
  { intros n Hn. rewrite <- Hsel2 in Hn.
    destruct (il_copies _ _ _ _ _ Hil n Hn) as (k & Hk & Hge & Hcopy & Hown).
    unfold remap. fold m in Hk. rewrite Hk. simpl. rewrite <- Hav1. done. }
  assert (Hinj : ∀ n n', n ∈ sel → n' ∈ sel →
                         remap m (node_id n) = remap m (node_id n') → n = n').
  { intros n n' Hn Hn'. rewrite <- Hsel2 in Hn, Hn'.
    apply (il_distinct _ _ _ _ _ Hil); try done.
    rewrite Hsel2. by apply selected_ids_NoDup. }
  assert (Hfresh : ∀ c, c ∈ _connections o1 →
            ∀ n, n ∈ sel → from_node c ≠ remap m (node_id n)
                           ∧ to_node c ≠ remap m (node_id n)).
  { intros c Hc n Hn.
    destruct (extracted_ends o sel src run1 c Hwf Hex Hc) as (? & ? & _).
    destruct (Hnew n Hn) as (? & _). unfold a in *. lia. }
  unfold round_trip. fold final m. split_and!.
  - done.
  - intros n Hn. destruct (Hnew n Hn) as (Hge & Hcopy & Hown).
    split_and!; try done. apply get_node_None.
    intros Hin%available_above. fold a in Hin. lia.
  - done.
  - unfold has_graph. apply bool_decide_eq_true. unfold final.
    rewrite (il_graphs _ _ _ _ _ Hil). unfold o1.
    rewrite (ex_graphs _ _ _ _ Hex). apply elem_of_app. left.
    unfold has_graph in Hsrc. by apply bool_decide_eq_true in Hsrc.
  - rewrite (il_pos_delta _ _ _ _ _ Hil), Hsel2. simpl. unfold Qminus.
    apply Qplus_opp_r.
  - rewrite (il_pos_delta _ _ _ _ _ Hil), Hsel2. simpl. unfold Qminus.
    apply Qplus_opp_r.
  - intros n n' p q Hn Hn'. split.
    + intros Hc. apply (il_connections _ _ _ _ _ Hil) in Hc.
      destruct Hc as [(Hc & _)|(c & Hc & [Hi1 Hi2] & Heq)].
      { destruct (Hfresh _ Hc n Hn) as [H _]. by destruct H. }
      rewrite Hsel2 in Hi1, Hi2. fold m in Heq.
      apply list_elem_of_fmap in Hi1 as (n1 & E1 & Hn1).
      apply list_elem_of_fmap in Hi2 as (n2 & E2 & Hn2).
      injection Heq as Hf Hp Ht Hq. rewrite E1 in Hf. rewrite E2 in Ht.
      apply Hinj in Hf; [|done|done]. apply Hinj in Ht; [|done|done].
      subst n1 n2.
      assert (c = mkConnection (node_id n) p (node_id n') q) as <-.
      { destruct c. simpl in *. congruence. }
      destruct (extracted_ends o sel src run1 c Hwf Hex Hc)
        as (_ & _ & [?|Hge]); [done|].
      pose proof (Hold n Hn). pose proof (Hold n' Hn'). fold a in Hge.
      rewrite E1, E2 in Hge. lia.
    + intros Hc.
      assert (internal sel (mkConnection (node_id n) p (node_id n') q)) as Hint.
      { split; apply list_elem_of_fmap; eauto. }
      assert (mkConnection (node_id n) p (node_id n') q ∈ _connections o1)
        as Hc1.
      { apply (ex_final _ _ _ _ Hex). left.
        apply (ex_rewired _ _ _ _ Hex). left.
        rewrite (ex_inputs _ _ _ _ Hex), (ex_outputs _ _ _ _ Hex).
        destruct (resolve_buckets_elem (OScriptNode.find_pins o)
                    (OScriptNode.get_connections o) (_connections o) sel)
          as (_ & Hi & Ho).
        destruct Hint as [Hi1 Hi2].
        split_and!; [done| |].
        - intros H%Hi. tauto.
        - intros H%Ho. tauto. }
      rewrite <- Hsel2 in Hint.
      apply (il_links _ _ _ _ _ Hil _ Hc1 Hint).
  - intros c Hc. apply (il_connections _ _ _ _ _ Hil) in Hc.
    destruct Hc as [(Hc & _)|(c0 & Hc & [Hi1 Hi2] & ->)].
    + unfold restored. fold m.
      split; intros (n & Hn & Heq); destruct (Hfresh _ Hc n Hn); done.
    + rewrite Hsel2 in Hi1, Hi2. fold m.
      apply list_elem_of_fmap in Hi1 as (n1 & E1 & Hn1).
      apply list_elem_of_fmap in Hi2 as (n2 & E2 & Hn2).
      unfold restored, remapped. fold m. cbn [from_node to_node].
      split; intros _; [exists n2|exists n1]; split; congruence.
Qed.

(** C5: on a well-formed Orchestration, when the extraction of a selection
    (a set of nodes of an existing graph) has run to its end, the inlining of
    the Call node it has made runs to its end too, and gives the graph one
    copy of each selected node under a fresh id, every copy at the position
    of its original moved by one common offset (which is zero); two copies
    are connected at given ports exactly when their originals were; and no
    connection joins a copy and a node that is not a copy: the wiring across
    the boundary of the selection does not come back. *)
Theorem extract_then_inline_round_trip
    (create_unique_name : string → list string → string)
    (p_graph : OrchestratorGraphEdit) (v v1 : View) :
  well_formed (_orchestration v) →
  NoDup (selected_ids p_graph) →
  has_graph (_orchestration v) (owning_graph p_graph) = true →
  _collapse_selected_to_function create_unique_name p_graph v = Done v1 →
  ∃ run1 run2,
    collapse create_unique_name p_graph v = Done run1
    ∧ run_final run1 = v1
    ∧ expand (run_call_node run1) p_graph v1 = Done run2
    ∧ _expand_node (run_call_node run1) p_graph v1
      = Done (expand_final run2)
    ∧ round_trip (_orchestration v)
        (get_selected_script_nodes (_orchestration v) p_graph)
        (owning_graph p_graph) run2.
Proof.
  intros Hwf Hnd Hsrc (run1 & Hrun1 & <-)%collapse_done_run.
  destruct (collapse_then_expand _ _ _ _ Hwf Hnd Hsrc Hrun1)
    as (run2 & Hrun2 & Hrt).
  exists run1, run2. split_and!; try done.
  unfold _expand_node. by rewrite Hrun2.
Qed.

Lemma extract_then_inline_round_trip_witness :
  ∃ run1 run2,
    collapse Scenario.unique_name Scenario.tab Scenario.view = Done run1
    ∧ run_final run1 = extraction_of Scenario.tab
    ∧ expand (run_call_node run1) Scenario.tab (extraction_of Scenario.tab)
      = Done run2
    ∧ _expand_node (run_call_node run1) Scenario.tab
        (extraction_of Scenario.tab)
      = Done (expand_final run2)
    ∧ round_trip Scenario.script
        (get_selected_script_nodes Scenario.script Scenario.tab)
        "EventGraph" run2.
Proof.
  apply (extract_then_inline_round_trip Scenario.unique_name Scenario.tab
           Scenario.view (extraction_of Scenario.tab)).
  - exact scenario_well_formed.
  - apply NoDup_cons. split; [|apply NoDup_singleton].
    intros H%list_elem_of_singleton. discriminate H.
  - reflexivity.
  - vm_compute. reflexivity.
Defined.

(** ** More on the bounds calculator *)

Lemma node_set_rect_size l : nonnegative_size (_get_node_set_rect l).
Proof.
  destruct l as [|first rest]; [split; simpl; lra|].
  unfold _get_node_set_rect. apply expand_all_size. split; simpl; lra.
Qed.








(** X1: the rectangle of the bounds calculator never has a negative width
    or height, and its center lies inside it. *)
Theorem node_set_rect_contains_center (p_nodes : list OScriptNode) :
  nonnegative_size (_get_node_set_rect p_nodes)
  ∧ Rect2_covers (_get_node_set_rect p_nodes)
                 (Rect2_get_center (_get_node_set_rect p_nodes)).
Proof.
  pose proof (node_set_rect_size p_nodes) as Hs. split; [done|].
  destruct (_get_node_set_rect p_nodes) as [[x y] [w h]].
  unfold nonnegative_size, Rect2_covers, Rect2_get_end, Rect2_get_center in *.
  simpl in *. destruct Hs. split_and!; lra.
Qed.







(** ** More on inlining *)





(** Every node after the duplication loop is an old node or has the kind and
    the duplicability of an old node. *)
Lemma duplicate_all_kinds g δ : ∀ sel m o m' o',
  for_each (duplicate_into g δ) (m, o) sel = Some (m', o') →
  ∀ x, x ∈ _nodes o' →
       ∃ n, n ∈ _nodes o ∧ node_kind x = node_kind n
            ∧ can_duplicate x = can_duplicate n.
Proof.
  induction sel as [|n sel IH]; intros m o m' o' Hrun x Hx.
  - injection Hrun as <- <-. eauto.
  - rewrite for_each_cons in Hrun.
    destruct (duplicate_into g δ (m, o) n) as [[m1 o1]|] eqn:Hstep;
      [|discriminate Hrun].
    cbn [mbind option_bind] in Hrun.
    destruct (IH _ _ _ _ Hrun x Hx) as (x1 & Hx1 & Hk & Hd).
    unfold duplicate_into, duplicate_node in Hstep. cbn [fst snd] in Hstep.
    destruct (get_node o (node_id n)) as [n0|] eqn:Hn;
      [|discriminate Hstep].
    cbn [mbind option_bind] in Hstep. injection Hstep as _ <-.
    cbn [_nodes update_graph set_graphs set_nodes] in Hx1.
    apply elem_of_app in Hx1 as [?|Hnew]; [eauto|].
    apply list_elem_of_singleton in Hnew as ->.
    apply get_node_Some in Hn as [Hin _]. exists n0. split_and!; done.
Qed.

Lemma expand_done_kinds p_node_id p_graph v run :
  expand p_node_id p_graph v = Done run →
  ∀ x, x ∈ _nodes (_orchestration (expand_final run)) →
       ∃ n, n ∈ _nodes (_orchestration v) ∧ node_kind x = node_kind n
            ∧ can_duplicate x = can_duplicate n.
Proof.
  unfold expand.
  destruct (get_node (_orchestration v) p_node_id) as [call|]; [|done].
  destruct (node_kind call); try done.
  destruct (find_function (_orchestration v) fn) as [function|]; [|done].
  destruct (body_nodes (_orchestration v) (function_name function))
    as [|n0 rest] eqn:Hsel; [done|].
  destruct (for_each _ _ _) as [[m o']|] eqn:Hloop; [|done].
  intros [= <-] x Hx. cbn [expand_final _orchestration] in Hx.
  unfold remove_node in Hx. cbn [_nodes] in Hx.
  apply list_elem_of_filter in Hx as [_ Hx].
  destruct (relink_facts (owning_graph p_graph) m
              (connections (resolve o' (n0 :: rest))) o') as (Hn & _).
  rewrite Hn in Hx. by eapply duplicate_all_kinds.
Qed.

(** X6: a completed inlining cannot be repeated: the Call node is gone, and
    inlining the same id again, from any tab, returns at once and leaves the
    view as it is. *)
Theorem expand_node_twice (p_node_id : Z) (p_graph : OrchestratorGraphEdit)
    (v : View) (call : OScriptNode) (fname : string)
    (function : OScriptFunction) :
  get_node (_orchestration v) p_node_id = Some call →
  node_kind call = CallScriptFunction fname →
  find_function (_orchestration v) fname = Some function →
  body_nodes (_orchestration v) (function_name function) ≠ [] →
  ∃ v1,
    _expand_node p_node_id p_graph v = Done v1
    ∧ get_node (_orchestration v1) p_node_id = None
    ∧ ∀ p_graph', _expand_node p_node_id p_graph' v1 = Return v1.
Proof.
  intros Hcall Hkind Hfn Hbody.
  destruct (expand_inlined p_node_id p_graph v call fname function
              Hcall Hkind Hfn Hbody) as (run & Hrun & _ & Hil).
  pose proof (il_removed _ _ _ _ _ Hil) as Hgone.
  apply get_node_Some in Hcall as [_ Hid]. rewrite Hid in Hgone.
  exists (expand_final run). split_and!; [|done|].
  - unfold _expand_node. by rewrite Hrun.
  - intros g'. unfold _expand_node, expand. by rewrite Hgone.
Qed.

Lemma expand_node_twice_witness :
  ∃ v1,
    _expand_node 8 Scenario.tab (extraction_of Scenario.tab) = Done v1
    ∧ get_node (_orchestration v1) 8 = None
    ∧ ∀ p_graph', _expand_node 8 p_graph' v1 = Return v1.
Proof.
  apply (expand_node_twice 8 Scenario.tab (extraction_of Scenario.tab)
           extracted_call "NewFunction" extracted_function).
  - vm_compute. reflexivity.
  - reflexivity.
  - vm_compute. reflexivity.
  - vm_compute. discriminate.
Defined.

(** X7: inlining copies the body of the function and takes nothing away
    but the Call node: every other node is left as it was, the functions and
    the names of the graphs are left as they were, and every connection that
    does not touch the Call node is still there. *)
Theorem expand_node_keeps_the_rest (p_node_id : Z)
    (p_graph : OrchestratorGraphEdit) (v : View) (call : OScriptNode)
    (fname : string) (function : OScriptFunction) :
  get_node (_orchestration v) p_node_id = Some call →
  node_kind call = CallScriptFunction fname →
  find_function (_orchestration v) fname = Some function →
  body_nodes (_orchestration v) (function_name function) ≠ [] →
  ∃ v1,
    _expand_node p_node_id p_graph v = Done v1
    ∧ (∀ id n, id ≠ p_node_id → get_node (_orchestration v) id = Some n →
               get_node (_orchestration v1) id = Some n)
    ∧ _functions (_orchestration v1) = _functions (_orchestration v)
    ∧ graph_name <$> _graphs (_orchestration v1)
      = graph_name <$> _graphs (_orchestration v)
    ∧ (∀ c, c ∈ _connections (_orchestration v) →
            from_node c ≠ p_node_id → to_node c ≠ p_node_id →
            c ∈ _connections (_orchestration v1)).
Proof.
  intros Hcall Hkind Hfn Hbody.
  destruct (expand_inlined p_node_id p_graph v call fname function
              Hcall Hkind Hfn Hbody) as (run & Hrun & Hlog & Hil).
  apply get_node_Some in Hcall as [_ Hid].
  exists (expand_final run). split_and!.
  - unfold _expand_node. by rewrite Hrun.
  - intros id n Hne Hn. apply (il_others _ _ _ _ _ Hil); congruence.
  - apply (il_functions _ _ _ _ _ Hil).
  - apply (il_graphs _ _ _ _ _ Hil).
  - intros c Hc Hf Ht. apply (il_connections _ _ _ _ _ Hil). left.
    rewrite Hid. done.
Qed.

Lemma expand_node_keeps_the_rest_witness :
  ∃ v1,
    _expand_node 8 Scenario.tab (extraction_of Scenario.tab) = Done v1
    ∧ (∀ id n, id ≠ 8 →
               get_node (_orchestration (extraction_of Scenario.tab)) id
               = Some n →
               get_node (_orchestration v1) id = Some n)
    ∧ _functions (_orchestration v1)
      = _functions (_orchestration (extraction_of Scenario.tab))
    ∧ graph_name <$> _graphs (_orchestration v1)
      = graph_name <$> _graphs (_orchestration (extraction_of Scenario.tab))
    ∧ (∀ c, c ∈ _connections (_orchestration (extraction_of Scenario.tab)) →
            from_node c ≠ 8 → to_node c ≠ 8 →
            c ∈ _connections (_orchestration v1)).
Proof.
  apply (expand_node_keeps_the_rest 8 Scenario.tab
           (extraction_of Scenario.tab) extracted_call "NewFunction"
           extracted_function).
  - vm_compute. reflexivity.
  - reflexivity.
  - vm_compute. reflexivity.
  - vm_compute. discriminate.
Defined.


(** X9: inlining keeps the Orchestration well-formed: after a completed
    inlining every function still has its graph, every node refers to a
    function that exists, no connection dangles, and Entry and Result nodes
    still cannot be duplicated. *)
Theorem expand_node_keeps_well_formed (p_node_id : Z)
    (p_graph : OrchestratorGraphEdit) (v v1 : View) :
  well_formed (_orchestration v) →
  _expand_node p_node_id p_graph v = Done v1 →
  well_formed (_orchestration v1).
Proof.
  intros Hwf Hdone. unfold _expand_node in Hdone.
  destruct (expand p_node_id p_graph v) as [run| |] eqn:Hrun; try done.
  injection Hdone as <-.
  pose proof (expand_done_kinds _ _ _ _ Hrun) as Hkinds.
  assert (∃ call fname function,
            get_node (_orchestration v) p_node_id = Some call
            ∧ node_kind call = CallScriptFunction fname
            ∧ find_function (_orchestration v) fname = Some function
            ∧ body_nodes (_orchestration v) (function_name function) ≠ [])
    as (call & fname & function & Hcall & Hkind & Hfn & Hbody).
  { unfold expand in Hrun.
    destruct (get_node (_orchestration v) p_node_id) as [call|]; [|done].
    destruct (node_kind call) as [| |fname|] eqn:Hkind; try done.
    destruct (find_function (_orchestration v) fname) as [function|] eqn:Hfn;
      [|done].
    exists call, fname, function. split_and!; try done.
    intros Hb. by rewrite Hb in Hrun. }
  destruct (expand_inlined p_node_id p_graph v call fname function
              Hcall Hkind Hfn Hbody) as (run' & Hrun' & _ & Hil).
  rewrite Hrun in Hrun'. injection Hrun' as <-.
  apply get_node_Some in Hcall as [_ Hid].
  set (o := _orchestration v) in *.
  set (final := _orchestration (expand_final run)) in *.
  split.
  - intros fn Hin. unfold final in *.
    rewrite (il_functions _ _ _ _ _ Hil) in Hin.
    rewrite (il_graphs _ _ _ _ _ Hil). by apply (wf_functions _ Hwf).
  - intros x f Hx Href. destruct (Hkinds x Hx) as (n & Hn & Hk & _).
    unfold get_function_names, final.
    rewrite (il_functions _ _ _ _ _ Hil).
    apply (wf_references _ Hwf n f Hn). unfold references in *.
    by rewrite <- Hk.
  - intros c Hc. apply (il_connections _ _ _ _ _ Hil) in Hc.
    destruct Hc as [(Hc & Hf & Ht)|(c0 & Hc0 & [Hi1 Hi2] & ->)].
    + destruct (wf_connections _ Hwf c Hc) as [H1 H2].
      apply get_node_is_Some in H1 as [n1 H1].
      apply get_node_is_Some in H2 as [n2 H2].
      split; apply get_node_is_Some; eexists;
        apply (il_others _ _ _ _ _ Hil); eauto.
    + apply list_elem_of_fmap in Hi1 as (n1 & E1 & Hn1).
      apply list_elem_of_fmap in Hi2 as (n2 & E2 & Hn2).
      destruct (il_copies _ _ _ _ _ Hil n1 Hn1) as (k1 & Hk1 & _ & Hc1 & _).
      destruct (il_copies _ _ _ _ _ Hil n2 Hn2) as (k2 & Hk2 & _ & Hc2 & _).
      unfold remapped, remap. cbn [from_node to_node].
      rewrite E1, E2, Hk1, Hk2. simpl.
      split; apply get_node_is_Some; eauto.
  - intros x Hx Hterm. destruct (Hkinds x Hx) as (n & Hn & Hk & Hd).
    rewrite Hd. apply (wf_terminators _ Hwf n Hn).
    unfold is_entry, is_result in *. by rewrite <- Hk.
Qed.

(** ** More on function creation *)

Lemma update_graphs_absent name (h : list Z → list Z)
    (gs : list OScriptGraph) :
  name ∉ (graph_name <$> gs) →
  (λ g, if bool_decide (graph_name g = name)
        then with_graph_nodes (h (graph_nodes g)) g else g) <$> gs = gs.
Proof.
  induction gs as [|g gs IH]; intros Hn; [done|].
  rewrite fmap_cons, not_elem_of_cons in Hn. destruct Hn as [Hg Hn].
  rewrite fmap_cons, IH by done.
  by rewrite bool_decide_eq_false_2 by congruence.
Qed.

Lemma create_node_closed p kind pos dup x gs fl ids :
  _graphs x = gs ++ [mkGraph p fl ids] → p ∉ (graph_name <$> gs) →
  create_node p kind pos dup x
  = (mkNode (get_available_id x) pos kind [] [] dup,
     mkOrchestration
       (_nodes x ++ [mkNode (get_available_id x) pos kind [] [] dup])
       (_connections x)
       (gs ++ [mkGraph p fl (ids ++ [get_available_id x])])
       (_functions x)).
Proof.
  intros Hg Hp. unfold create_node, update_graph, set_graphs, set_nodes.
  cbn [_graphs _nodes _connections _functions]. rewrite Hg, fmap_app.
  rewrite (update_graphs_absent p (λ ns, ns ++ [get_available_id x]))
    by done.
  simpl. by rewrite bool_decide_eq_true_2.
Qed.

Lemma available_after_one o n cs gs fs :
  node_id n = get_available_id o →
  get_available_id (mkOrchestration (_nodes o ++ [n]) cs gs fs)
  = get_available_id o + 1.
Proof.
  intros Hn. unfold get_available_id. cbn [_nodes].
  rewrite fmap_app, max_id_app. simpl. rewrite Hn. unfold get_available_id.
  pose proof (max_id_ge (node_id <$> _nodes o)). lia.
Qed.

(** What a successful [_create_new_function] leaves behind, in closed
    form. *)
Lemma create_new_function_closed p_name p_add_return_node v :
  has_graph (_orchestration v) p_name = false →
  _create_new_function p_name p_add_return_node v
  = (Some p_name,
     mkView
       (mkOrchestration
          (_nodes (_orchestration v)
             ++ entry_node (get_available_id (_orchestration v)) p_name
             :: (if p_add_return_node
                 then [result_node (get_available_id (_orchestration v) + 1)
                                   p_name]
                 else []))
          (_connections (_orchestration v))
          (_graphs (_orchestration v)
             ++ [mkGraph p_name [GF_FUNCTION; GF_DEFAULT]
                   (get_available_id (_orchestration v)
                    :: (if p_add_return_node
                        then [get_available_id (_orchestration v) + 1]
                        else []))])
          (_functions (_orchestration v)
             ++ [mkFunction p_name (get_available_id (_orchestration v))
                            [] false 0]))
       (log v ++ [FunctionsUpdate])).
Proof.
  intros Hg. unfold _create_new_function. rewrite Hg.
  unfold create_graph. rewrite Hg.
  set (o := _orchestration v) in *. set (a := get_available_id o).
  assert (Habs : p_name ∉ (graph_name <$> _graphs o)).
  { unfold has_graph in Hg. by apply bool_decide_eq_false in Hg. }
  assert (Hnext : ∀ x, _nodes x = _nodes o ++ [entry_node a p_name] →
                       get_available_id x = a + 1).
  { intros x Hx. unfold get_available_id. rewrite Hx, fmap_app, max_id_app.
    simpl. unfold a, get_available_id.
    pose proof (max_id_ge (node_id <$> _nodes o)). lia. }
  unfold create_function_entry.
  set (og := set_graphs _ o).
  rewrite (create_node_closed p_name _ _ _ _ (_graphs o)
             [GF_FUNCTION; GF_DEFAULT] []) by done.
  rewrite (available_ext o og) by done. fold a.
  cbn [_nodes _connections _functions node_id app node_position].
  destruct p_add_return_node.
  - rewrite (create_node_closed p_name _ _ _ _ (_graphs o)
               [GF_FUNCTION; GF_DEFAULT] [a]) by done.
    rewrite !(Hnext (set_functions _ _)) by done.
    unfold emit. cbn [_orchestration log snd set_functions _nodes
                      _connections _functions app].
    change (_nodes og) with (_nodes o). rewrite <- app_assoc. done.
  - done.
Qed.

Lemma get_node_fresh o id : get_available_id o ≤ id → get_node o id = None.
Proof.
  intros Hid. apply get_node_None. intros Hin%available_above. lia.
Qed.

Lemma create_new_function_facts p_name p_add_return_node v :
  has_graph (_orchestration v) p_name = false →
  let o := _orchestration v in
  let a := get_available_id o in
  ∃ v1,
    _create_new_function p_name p_add_return_node v = (Some p_name, v1)
    ∧ _nodes (_orchestration v1)
      = _nodes o ++ new_function_nodes a p_name p_add_return_node
    ∧ _connections (_orchestration v1) = _connections o
    ∧ _functions (_orchestration v1)
      = _functions o ++ [mkFunction p_name a [] false 0]
    ∧ graph_name <$> _graphs (_orchestration v1)
      = (graph_name <$> _graphs o) ++ [p_name]
    ∧ get_nodes (_orchestration v1) p_name
      = new_function_nodes a p_name p_add_return_node
    ∧ log v1 = log v ++ [FunctionsUpdate].
Proof.
  intros Hg o a. eexists. split; [by apply create_new_function_closed|].
  cbn [_orchestration log _nodes _connections _functions _graphs].
  fold o a. split_and!; try done.
  - by rewrite fmap_app.
  - unfold get_nodes. cbn [_graphs]. rewrite filter_app.
    assert (filter (λ g, graph_name g = p_name) (_graphs o) = []) as ->.
    { unfold has_graph in Hg. apply bool_decide_eq_false in Hg.
      destruct (filter _ _) as [|gr l] eqn:E; [done|]. destruct Hg.
      assert (gr ∈ filter (λ gr, graph_name gr = p_name) (_graphs o)) as Hin
        by (rewrite E; apply elem_of_cons; by left).
      apply list_elem_of_filter in Hin as [<- Hin].
      apply list_elem_of_fmap. eauto. }
    rewrite filter_cons, decide_True by done. rewrite filter_nil.
    cbn [app mbind list_bind graph_nodes]. rewrite app_nil_r.
    assert (Hnone : ∀ id, a ≤ id → List.find (has_id id) (_nodes o) = None)
      by (intros id Hid; by apply get_node_fresh).
    unfold new_function_nodes.
    destruct p_add_return_node; cbn [omap list_omap];
      unfold get_node; cbn [_nodes]; rewrite !find_app_l, !Hnone by lia;
      unfold has_id; simpl; rewrite ?bool_decide_eq_true_2 by done;
      rewrite ?bool_decide_eq_false_2 by lia;
      rewrite ?bool_decide_eq_true_2 by done; done.
Qed.

(** X10: a function cannot take the name of a graph that exists: function
    creation then returns no function, reports one error, and leaves the
    Orchestration as it was. *)
Theorem create_new_function_rejects_existing_graph
    (p_name : string) (p_add_return_node : bool) (v : View) :
  has_graph (_orchestration v) p_name = true →
  ∃ v1,
    _create_new_function p_name p_add_return_node v = (None, v1)
    ∧ _orchestration v1 = _orchestration v
    ∧ ∃ e, is_error e = true ∧ log v1 = log v ++ [e].
Proof.
  intros Hg. unfold _create_new_function. rewrite Hg.
  eexists. split; [reflexivity|]. split; [done|]. eexists. split; [|done].
  done.
Qed.

Lemma create_new_function_rejects_existing_graph_witness :
  ∃ v1,
    _create_new_function "EventGraph" true Scenario.view = (None, v1)
    ∧ _orchestration v1 = _orchestration Scenario.view
    ∧ ∃ e, is_error e = true ∧ log v1 = log Scenario.view ++ [e].
Proof.
  apply create_new_function_rejects_existing_graph. reflexivity.
Defined.



Lemma create_new_function_well_formed p_name p_add_return_node v f v1 :
  well_formed (_orchestration v) →
  _create_new_function p_name p_add_return_node v = (Some f, v1) →
  well_formed (_orchestration v1).
Proof.
  intros Hwf Hrun.
  destruct (has_graph (_orchestration v) p_name) eqn:Hg.
  { unfold _create_new_function in Hrun. by rewrite Hg in Hrun. }
  destruct (create_new_function_facts p_name p_add_return_node v Hg)
    as (v1' & Hrun' & Hn & Hc & Hf & Hnames & _).
  rewrite Hrun in Hrun'. injection Hrun' as -> <-.
  set (o := _orchestration v) in *. set (a := get_available_id o) in *.
  assert (Hnew : ∀ x, x ∈ new_function_nodes a p_name p_add_return_node →
            references x = Some p_name ∧ can_duplicate x = false).
  { intros x Hx. unfold new_function_nodes in Hx.
    apply elem_of_cons in Hx as [->|Hx]; [done|].
    destruct p_add_return_node; [|by apply elem_of_nil in Hx].
    by apply list_elem_of_singleton in Hx as ->. }
  split.
  - intros fn Hin. rewrite Hf in Hin. rewrite Hnames.
    apply elem_of_app in Hin as [Hin|Hin].
    + apply elem_of_app. left. by apply (wf_functions _ Hwf).
    + apply list_elem_of_singleton in Hin as ->. apply elem_of_app. right.
      by apply list_elem_of_singleton.
  - intros x g Hx Href. rewrite Hn in Hx. unfold get_function_names.
    rewrite Hf, fmap_app. apply elem_of_app in Hx as [Hx|Hx].
    + apply elem_of_app. left. by apply (wf_references _ Hwf x).
    + destruct (Hnew x Hx) as [Href' _]. rewrite Href in Href'.
      injection Href' as ->. apply elem_of_app. right.
      by apply list_elem_of_singleton.
  - intros c Hin. rewrite Hc in Hin. rewrite Hn, fmap_app.
    destruct (wf_connections _ Hwf c Hin). split; apply elem_of_app; by left.
  - intros x Hx Hterm. rewrite Hn in Hx. apply elem_of_app in Hx as [Hx|Hx].
    + by apply (wf_terminators _ Hwf).
    + by destruct (Hnew x Hx).
Qed.

(** X12: function creation keeps the Orchestration well-formed: the new
    function has its graph, the new Entry and Result nodes refer to it and
    cannot be duplicated, and nothing dangles. *)
Theorem create_new_function_keeps_well_formed
    (p_name : string) (p_add_return_node : bool) (v v1 : View) (f : string) :
  well_formed (_orchestration v) →
  _create_new_function p_name p_add_return_node v = (Some f, v1) →
  f = p_name
  ∧ well_formed (_orchestration v1)
  ∧ find_function (_orchestration v1) f
    = Some (mkFunction p_name (get_available_id (_orchestration v))
                       [] false 0).
Proof.
  intros Hwf Hrun.
  pose proof (create_new_function_well_formed _ _ _ _ _ Hwf Hrun) as Hwf1.
  destruct (has_graph (_orchestration v) p_name) eqn:Hg.
  { unfold _create_new_function in Hrun. by rewrite Hg in Hrun. }
  destruct (create_new_function_facts p_name p_add_return_node v Hg)
    as (v1' & Hrun' & _ & _ & Hf & _).
  rewrite Hrun in Hrun'. injection Hrun' as -> <-.
  split_and!; try done.
  unfold find_function. rewrite Hf, find_app_l.
  assert (List.find (λ f, bool_decide (function_name f = p_name))
            (_functions (_orchestration v)) = None) as ->.
  { destruct (List.find _ _) as [fn|] eqn:E; [|done].
    apply find_function_Some in E as [Hin <-].
    apply (wf_functions _ Hwf) in Hin. unfold has_graph in Hg.
    by apply bool_decide_eq_false in Hg. }
  simpl. by rewrite bool_decide_eq_true_2.
Qed.

Lemma create_new_function_keeps_well_formed_witness :
  "NewFunction" = "NewFunction"
  ∧ well_formed
      (_orchestration (_create_new_function "NewFunction" true
                         Scenario.view).2)
  ∧ find_function
      (_orchestration (_create_new_function "NewFunction" true
                         Scenario.view).2) "NewFunction"
    = Some (mkFunction "NewFunction" (get_available_id Scenario.script)
                       [] false 0).
Proof.
  apply (create_new_function_keeps_well_formed "NewFunction" true
           Scenario.view _ "NewFunction").
  - exact scenario_well_formed.
  - reflexivity.
Defined.

(** X13: a name can be used once: after a function has been created, a
    second creation under the same name returns no function and leaves the
    Orchestration as the first one left it. *)
Theorem create_new_function_twice
    (p_name : string) (first second : bool) (v v1 : View) (f : string) :
  _create_new_function p_name first v = (Some f, v1) →
  ∃ v2,
    _create_new_function p_name second v1 = (None, v2)
    ∧ _orchestration v2 = _orchestration v1.
Proof.
  intros Hrun.
  destruct (has_graph (_orchestration v) p_name) eqn:Hg.
  { unfold _create_new_function in Hrun. by rewrite Hg in Hrun. }
  destruct (create_new_function_facts p_name first v Hg)
    as (v1' & Hrun' & _ & _ & _ & Hnames & _).
  rewrite Hrun in Hrun'. injection Hrun' as -> <-.
  assert (has_graph (_orchestration v1) p_name = true) as Hg1.
  { unfold has_graph. apply bool_decide_eq_true. rewrite Hnames.
    apply elem_of_app. right. by apply list_elem_of_singleton. }
  unfold _create_new_function. rewrite Hg1. eauto.
Qed.

Lemma create_new_function_twice_witness :
  ∃ v2,
    _create_new_function "NewFunction" false
      (_create_new_function "NewFunction" true Scenario.view).2
    = (None, v2)
    ∧ _orchestration v2
      = _orchestration (_create_new_function "NewFunction" true
                          Scenario.view).2.
Proof.
  apply (create_new_function_twice "NewFunction" true false Scenario.view
           _ "NewFunction").
  reflexivity.
Defined.

(** ** What the wiring loops of an extraction leave alone *)

Lemma same_shapes_refl o : same_shapes o o.
Proof. by split_and!. Qed.

Lemma same_shapes_trans o1 o2 o3 :
  same_shapes o1 o2 → same_shapes o2 o3 → same_shapes o1 o3.
Proof. intros (?&?&?) (?&?&?). split_and!; congruence. Qed.

Lemma same_shapes_link o o1 g a ap b bp :
  same_shapes o o1 → same_shapes o (link g a ap b bp o1).
Proof. done. Qed.

Lemma same_shapes_update_function o o1 name h :
  (∀ fn, function_name (h fn) = function_name fn) →
  same_shapes o o1 → same_shapes o (update_function name h o1).
Proof.
  intros Hh (Hn & Hg & Hf). split_and!; try done.
  unfold update_function. cbn [_functions set_functions]. rewrite <- Hf.
  rewrite <- list_fmap_compose. apply list_fmap_ext. intros i fn _. simpl.
  by case_bool_decide.
Qed.

Lemma same_shapes_set_position o o1 id p o2 :
  same_shapes o o1 → OScriptNode.set_position id p o1 = Some o2 →
  same_shapes o o2.
Proof.
  intros (Hn & Hg & Hf). unfold OScriptNode.set_position.
  destruct (get_node o1 id); [|done]. intros [= <-]. split_and!; try done.
  unfold update_node. cbn [_nodes set_nodes]. rewrite <- Hn.
  rewrite <- list_fmap_compose. apply list_fmap_ext. intros i n _. simpl.
  by destruct (has_id id n).
Qed.

Lemma only_changes_refl ev : only_changes ev ev.
Proof. exists []. by rewrite app_nil_r. Qed.

Lemma only_changes_snoc ev ev1 id :
  only_changes ev ev1 → only_changes ev (ev1 ++ [NodeChanged id]).
Proof.
  intros (evs & -> & H). exists (evs ++ [NodeChanged id]).
  rewrite app_assoc. split; [done|]. apply Forall_app. split; [done|].
  apply Forall_singleton. eauto.
Qed.

Lemma only_changes_trans ev1 ev2 ev3 :
  only_changes ev1 ev2 → only_changes ev2 ev3 → only_changes ev1 ev3.
Proof.
  intros (e1 & -> & H1) (e2 & -> & H2). exists (e1 ++ e2).
  rewrite app_assoc. split; [done|]. by apply Forall_app.
Qed.

Ltac footprint :=
  repeat first
    [ apply same_shapes_refl
    | apply only_changes_refl
    | apply only_changes_snoc
    | apply same_shapes_link
    | apply same_shapes_update_function; [done|]
    | eapply same_shapes_set_position; [|eassumption] ].

Lemma wire_input_footprint src tgt f call entry w o ev E w1 o1 ev1 :
  wire_input src tgt f call entry (w, o, ev) E = Some (w1, o1, ev1) →
  same_shapes o o1 ∧ only_changes ev ev1.
Proof.
  unfold wire_input, resize_argument_list, set_argument_name,
    set_argument_type. intros H.
  repeat (simplify_option_eq || case_match); split; footprint.
Qed.

Lemma wire_result_footprint tgt f result w o ev E w1 o1 ev1 :
  wire_result tgt f result (w, o, ev) E = Some (w1, o1, ev1) →
  same_shapes o o1 ∧ only_changes ev ev1.
Proof.
  unfold wire_result, set_has_return_value, set_return_type. intros H.
  repeat (simplify_option_eq || case_match); split; footprint.
Qed.

Lemma link_entry_to_result_footprint tgt entry result o ev o1 ev1 :
  link_entry_to_result tgt entry result (o, ev) = Some (o1, ev1) →
  same_shapes o o1 ∧ only_changes ev ev1.
Proof.
  unfold link_entry_to_result. intros H.
  repeat (simplify_option_eq || case_match); split; footprint.
Qed.

Lemma wire_call_output_footprint src call w o E w1 o1 :
  wire_call_output src call (w, o) E = Some (w1, o1) → same_shapes o o1.
Proof.
  unfold wire_call_output. intros H.
  repeat (simplify_option_eq || case_match); footprint.
Qed.

(** A relation that every step of a loop keeps is kept by the loop. *)
Lemma for_each_preserves {A S} (body : S → A → option S)
    (R : S → S → Prop) :
  (∀ s, R s s) → (∀ s1 s2 s3, R s1 s2 → R s2 s3 → R s1 s3) →
  (∀ s x s', body s x = Some s' → R s s') →
  ∀ l s s', for_each body s l = Some s' → R s s'.
Proof.
  intros Hrefl Htrans Hstep. induction l as [|x l IH]; intros s s' H.
  - injection H as <-. apply Hrefl.
  - rewrite for_each_cons in H.
    destruct (body s x) as [s1|] eqn:Hx; [|discriminate H].
    cbn [mbind option_bind] in H. eapply Htrans; [by eapply Hstep|by apply IH].
Qed.

Lemma wire_inputs_footprint src tgt f call entry l w o ev w1 o1 ev1 :
  for_each (wire_input src tgt f call entry) (w, o, ev) l
  = Some (w1, o1, ev1) →
  same_shapes o o1 ∧ only_changes ev ev1.
Proof.
  apply (for_each_preserves _
           (λ s s' : InputWiring * Orchestration * list Event,
              same_shapes s.1.2 s'.1.2 ∧ only_changes s.2 s'.2)).
  - intros s. split; [apply same_shapes_refl|apply only_changes_refl].
  - intros s1 s2 s3 [? ?] [? ?].
    split; [by eapply same_shapes_trans|by eapply only_changes_trans].
  - intros [[w0 o0] ev0] x [[w2 o2] ev2]. apply wire_input_footprint.
Qed.

Lemma wire_results_footprint tgt f result l w o ev w1 o1 ev1 :
  for_each (wire_result tgt f result) (w, o, ev) l = Some (w1, o1, ev1) →
  same_shapes o o1 ∧ only_changes ev ev1.
Proof.
  apply (for_each_preserves _
           (λ s s' : ResultWiring * Orchestration * list Event,
              same_shapes s.1.2 s'.1.2 ∧ only_changes s.2 s'.2)).
  - intros s. split; [apply same_shapes_refl|apply only_changes_refl].
  - intros s1 s2 s3 [? ?] [? ?].
    split; [by eapply same_shapes_trans|by eapply only_changes_trans].
  - intros [[w0 o0] ev0] x [[w2 o2] ev2]. apply wire_result_footprint.
Qed.

Lemma wire_call_outputs_footprint src call l w o w1 o1 :
  for_each (wire_call_output src call) (w, o) l = Some (w1, o1) →
  same_shapes o o1.
Proof.
  apply (for_each_preserves _
           (λ s s' : CallOutputWiring * Orchestration,
              same_shapes s.2 s'.2)).
  - intros s. apply same_shapes_refl.
  - intros s1 s2 s3 ? ?. by eapply same_shapes_trans.
  - intros [w0 o0] x [w2 o2]. apply wire_call_output_footprint.
Qed.

(** The nodes, the functions, the graphs and the log after a completed
    extraction. *)
Lemma collapse_footprint cun p_graph v run :
  collapse cun p_graph v = Done run →
  let o := _orchestration v in
  let sel := get_selected_script_nodes o p_graph in
  let a := get_available_id o in
  let f := run_function run in
  let final := _orchestration (run_final run) in
  node_shape <$> _nodes final
  = (node_shape <$> _nodes o)
    ++ [entry_node a f; node_shape (result_node (a + 1) f);
        node_shape (call_node (a + 2) f
                      (Rect2_get_center (_get_node_set_rect sel)))]
  ∧ function_name <$> _functions final
    = (function_name <$> _functions o) ++ [f]
  ∧ graph_name <$> _graphs final = (graph_name <$> _graphs o) ++ [f]
  ∧ has_graph o f = false
  ∧ ∃ evs,
      log (run_final run)
      = log v ++ [FunctionsUpdate] ++ evs
        ++ [NodeChanged (run_call_node run); FunctionsFindAndEdit f]
      ∧ Forall (λ e, ∃ id, e = NodeChanged id) evs.
Proof.
  intros Hrun o sel a f final.
  destruct (collapse_done_inv _ _ _ _ Hrun)
    as (f0 & v1 & Hne & Hdup & _ & _ & _ & Hnew & Hinto).
  fold o sel in Hnew, Hinto.
  pose proof (create_new_function_names _ _ _ _ Hnew) as Hnames1.
  destruct (create_new_function_done _ _ _ _ Hnew)
    as (Hname & Hgraph & Hn1 & Hc1 & Hf1 & Hsg1 & Hlog1).
  rewrite <- Hname in Hgraph, Hn1, Hf1, Hsg1. clear Hname Hnew.
  fold o a in Hgraph, Hn1, Hc1, Hf1, Hsg1, Hnames1.
  destruct (collapse_into_inv _ _ _ _ _ _ Hinto)
    as (call & o3 & fn & w4 & o4 & ev4 & o5 & ev5 & o6 & ev6 & w7 & o7
        & Hmove & Hfn & Hin & Hres & Hcall & ->).
  assert (Hsel : ∀ n, n ∈ sel → node_id n ≠ a ∧ node_id n ≠ a + 1).
  { intros n Hn%selected_resolved%get_node_below. fold a in Hn. lia. }
  pose proof (collapse_move_names _ _ _ _ _ _ _ Hmove) as Hnames3.
  destruct (collapse_move_facts _ _ _ _ _ _ _ a (a + 1) Hmove Hsg1 Hsel)
    as (Hcallid & Hn3 & Hc3 & Hf3 & _).
  assert (Hav1 : get_available_id (_orchestration v1) = a + 2).
  { unfold get_available_id. rewrite Hn1, fmap_app, max_id_app. simpl.
    unfold a, get_available_id. pose proof (max_id_ge (node_id <$> _nodes o)).
    lia. }
  rewrite Hav1 in Hcallid. subst call.
  destruct (wire_inputs_footprint _ _ _ _ _ _ _ _ _ _ _ _ Hin) as [Hs4 He4].
  assert (same_shapes o4 o6 ∧ only_changes ev4 ev6) as [Hs6 He6].
  { destruct (node_id <$> get_return_node o3 f0) as [r|].
    - destruct Hres as [[w5 Hout] Hfix].
      destruct (wire_results_footprint _ _ _ _ _ _ _ _ _ _ Hout) as [? ?].
      destruct (link_entry_to_result_footprint _ _ _ _ _ _ _ Hfix) as [? ?].
      split; [by eapply same_shapes_trans|by eapply only_changes_trans].
    - destruct Hres as (-> & -> & -> & ->).
      split; [apply same_shapes_refl|apply only_changes_refl]. }
  pose proof (wire_call_outputs_footprint _ _ _ _ _ _ _ Hcall) as Hs7.
  destruct (same_shapes_trans _ _ _ (same_shapes_trans _ _ _ Hs4 Hs6) Hs7)
    as (Hnodes & Hgraphs & Hfuns).
  unfold f, final. cbn [run_function run_final run_call_node _orchestration
                        log].
  split_and!.
  - rewrite Hnodes, Hn3, Hn1, <- app_assoc, fmap_app. done.
  - rewrite Hfuns, Hf3, Hf1, fmap_app. done.
  - rewrite Hgraphs, Hnames3, Hnames1. done.
  - done.
  - destruct (only_changes_trans _ _ _ He4 He6) as (evs & -> & Hevs).
    exists evs. split; [|done]. rewrite Hlog1, <- !app_assoc. done.
Qed.

(** ** More on extraction *)




(** X15: the name of the new function is checked against the names of the
    graphs: when the selection passes every precondition but the generated
    name is the name of a graph, the extraction stops with one error and
    the Orchestration is left as it was. *)
Theorem collapse_rejects_taken_name
    (create_unique_name : string → list string → string)
    (p_graph : OrchestratorGraphEdit) (v : View) :
  let o := _orchestration v in
  let sel := get_selected_script_nodes o p_graph in
  sel ≠ [] →
  (∀ n, n ∈ sel → can_duplicate n = true) →
  input_executions (resolve o sel) ≤ 1 →
  output_executions (resolve o sel) ≤ 1 →
  (length (outputs (resolve o sel)) ≤ 2)%nat →
  has_graph o (create_unique_name "NewFunction" (get_function_names o))
  = true →
  rejected_with_error v
    (_collapse_selected_to_function create_unique_name p_graph v).
Proof.
  intros o sel Hne Hdup Hie Hoe Hout Hg.
  unfold _collapse_selected_to_function, collapse. fold o sel.
  destruct sel as [|n0 rest] eqn:Hsel; [done|]. rewrite <- Hsel in *.
  assert (List.find (λ n, negb (can_duplicate n)) sel = None) as ->.
  { destruct (List.find _ sel) as [n|] eqn:E; [|done].
    apply find_some in E as [Hin Hn]. apply list_elem_of_In in Hin.
    by rewrite (Hdup n Hin) in Hn. }
  rewrite !bool_decide_eq_false_2 by lia.
  unfold _create_new_function. fold o. rewrite Hg. simpl.
  eexists. split; [reflexivity|]. split; [done|]. eexists.
  split; [|reflexivity]. reflexivity.
Qed.

Lemma collapse_rejects_taken_name_witness :
  rejected_with_error taken_view
    (_collapse_selected_to_function Scenario.unique_name Scenario.tab
       taken_view).
Proof.
  apply (collapse_rejects_taken_name Scenario.unique_name Scenario.tab
           taken_view).
  - discriminate.
  - intros n Hn.
    change (n ∈ [Scenario.print; Scenario.add]) in Hn.
    apply elem_of_cons in Hn as [->|Hn]; [done|].
    by apply list_elem_of_singleton in Hn as ->.
  - apply Z.leb_le. vm_compute. reflexivity.
  - apply Z.leb_le. vm_compute. reflexivity.
  - apply Nat.leb_le. vm_compute. reflexivity.
  - vm_compute. reflexivity.
Defined.

(** The new links of an extraction touch the new nodes. *)
Lemma new_links_touch o call entry result ins outs c :
  (c ∈ call_input_links o call ins → to_node c = call)
  ∧ (c ∈ entry_links o entry ins → from_node c = entry)
  ∧ (c ∈ result_links o result outs → to_node c = result)
  ∧ (c ∈ call_output_links o call outs → from_node c = call).
Proof.
  unfold call_input_links, entry_links, result_links, call_output_links.
  rewrite !elem_of_app, !first_link_elem, !numbered_links_elem.
  split_and!; intros [(E & _ & ->)|H]; try done;
    try (by destruct H as (i & E & _ & ->));
    try (by destruct H as (E & _ & ->)).
Qed.

(** The ends of the connections after an extraction are nodes. *)
Lemma extracted_ends_exist o sel src run c :
  well_formed o → extracted o sel src run →
  c ∈ _connections (_orchestration (run_final run)) →
  from_node c ∈ node_id <$> _nodes (_orchestration (run_final run))
  ∧ to_node c ∈ node_id <$> _nodes (_orchestration (run_final run)).
Proof.
  intros Hwf Hex Hc. rewrite (ex_ids _ _ _ _ Hex).
  assert (Hold : ∀ E, E ∈ run_inputs run ∨ E ∈ run_outputs run →
            from_node E ∈ node_id <$> _nodes o
            ∧ to_node E ∈ node_id <$> _nodes o).
  { intros E HE. apply (wf_connections _ Hwf).
    rewrite (ex_inputs _ _ _ _ Hex), (ex_outputs _ _ _ _ Hex) in HE.
    by apply (bucket_subset o sel). }
  assert (Hnew : ∀ k, k ∈ created_ids o →
            k ∈ (node_id <$> _nodes o) ++ created_ids o)
    by (intros k Hk; apply elem_of_app; by right).
  assert (Hkeep : ∀ k, k ∈ node_id <$> _nodes o →
            k ∈ (node_id <$> _nodes o) ++ created_ids o)
    by (intros k Hk; apply elem_of_app; by left).
  change [get_available_id o; get_available_id o + 1; get_available_id o + 2]
    with (created_ids o).
  assert (H0 : get_available_id o ∈ created_ids o)
    by (apply elem_of_cons; by left).
  assert (H1 : get_available_id o + 1 ∈ created_ids o)
    by (apply elem_of_cons; right; apply elem_of_cons; by left).
  assert (H2 : get_available_id o + 2 ∈ created_ids o)
    by (do 2 (apply elem_of_cons; right); apply elem_of_cons; by left).
  apply (extracted_connection _ _ _ _ _ Hwf Hex) in Hc.
  destruct Hc as [(Hc & _)|[(E & HE & ->)|[(i & E & HE & ->)|[(E & HE & ->)
    |[(i & E & HE & ->)|[(E & HE & ->)|[(E & HE & ->)|[(_ & _ & ->)
    |[(E & HE & ->)|(i & E & HE & ->)]]]]]]]]];
    unfold link_into, link_out_of; cbn [from_node to_node];
    try (destruct (wf_connections _ Hwf c Hc); split; by apply Hkeep);
    try (apply find_elem in HE);
    try (apply filter_lookup_elem in HE as [HE _]);
    try (first [destruct (Hold E (or_introl HE)) as [Hf Ht]
               |destruct (Hold E (or_intror HE)) as [Hf Ht]]);
    split; auto.
Qed.

Lemma shape_duplicable n m :
  node_shape n = node_shape m → can_duplicate n = can_duplicate m.
Proof. unfold node_shape, with_position. by intros [= _ _ _ _ ?]. Qed.

Lemma collapse_well_formed cun p_graph v run :
  well_formed (_orchestration v) →
  collapse cun p_graph v = Done run →
  well_formed (_orchestration (run_final run)).
Proof.
  intros Hwf Hrun.
  pose proof (collapse_extracted _ _ _ _ Hwf Hrun) as Hex.
  destruct (collapse_footprint _ _ _ _ Hrun)
    as (Hnodes & Hfuns & Hgraphs & _).
  set (o := _orchestration v) in *.
  set (final := _orchestration (run_final run)) in *.
  set (f := run_function run) in *.
  assert (Hshape : ∀ x, x ∈ _nodes final →
            (∃ n, n ∈ _nodes o ∧ node_kind x = node_kind n
                  ∧ can_duplicate x = can_duplicate n)
            ∨ (references x = Some f
               ∧ (is_entry x || is_result x = true →
                  can_duplicate x = false))).
  { intros x Hx.
    assert (node_shape x ∈ node_shape <$> _nodes final) as Hs
      by (apply list_elem_of_fmap; eauto).
    rewrite Hnodes in Hs. apply elem_of_app in Hs as [Hs|Hs].
    - left. apply list_elem_of_fmap in Hs as (n & Hn & Hin). exists n.
      split_and!; [done|by apply shape_kind|by apply shape_duplicable].
    - right.
      assert (∃ m, m ∈ [entry_node (get_available_id o) f;
                        result_node (get_available_id o + 1) f;
                        call_node (get_available_id o + 2) f
                          (Rect2_get_center
                             (_get_node_set_rect
                                (get_selected_script_nodes o p_graph)))]
                   ∧ node_shape x = node_shape m) as (m & Hm & Hxm).
      { repeat (apply elem_of_cons in Hs as [Hs|Hs]);
          [eexists; split; [apply elem_of_cons; left; reflexivity|done]
          |eexists; split; [apply elem_of_cons; right; apply elem_of_cons;
                            left; reflexivity|done]
          |eexists; split; [do 2 (apply elem_of_cons; right);
                            apply elem_of_cons; left; reflexivity|done]
          |by apply elem_of_nil in Hs]. }
      pose proof (shape_kind _ _ Hxm) as Hk.
      pose proof (shape_duplicable _ _ Hxm) as Hd.
      unfold references, is_entry, is_result. rewrite Hk, Hd.
      repeat (apply elem_of_cons in Hm as [->|Hm]); try done.
      by apply elem_of_nil in Hm. }
  split.
  - intros fn Hin.
    assert (function_name fn ∈ function_name <$> _functions final) as Hn
      by (apply list_elem_of_fmap; eauto).
    rewrite Hfuns in Hn. rewrite Hgraphs.
    apply elem_of_app in Hn as [Hn|Hn]; apply elem_of_app; [left|by right].
    apply list_elem_of_fmap in Hn as (fn0 & -> & Hin0).
    by apply (wf_functions _ Hwf).
  - intros x g Hx Href. unfold get_function_names. rewrite Hfuns.
    destruct (Hshape x Hx) as [(n & Hn & Hk & _)|[Href' _]].
    + apply elem_of_app. left. apply (wf_references _ Hwf n g Hn).
      unfold references in *. by rewrite <- Hk.
    + rewrite Href in Href'. injection Href' as ->. apply elem_of_app.
      right. by apply list_elem_of_singleton.
  - intros c Hc. by eapply extracted_ends_exist.
  - intros x Hx Hterm.
    destruct (Hshape x Hx) as [(n & Hn & Hk & Hd)|[_ Hnew]]; [|by apply Hnew].
    rewrite Hd. apply (wf_terminators _ Hwf n Hn).
    unfold is_entry, is_result in *. by rewrite <- Hk.
Qed.


Lemma scenario_extraction_well_formed :
  well_formed (_orchestration (extraction_of Scenario.tab)).
Proof.
  destruct (collapse Scenario.unique_name Scenario.tab Scenario.view)
    as [run| |] eqn:Hrun; try (vm_compute in Hrun; discriminate Hrun).
  assert (extraction_of Scenario.tab = run_final run) as ->.
  { unfold extraction_of, _collapse_selected_to_function. by rewrite Hrun. }
  eapply collapse_well_formed; [|exact Hrun]. exact scenario_well_formed.
Qed.


Lemma expand_node_keeps_well_formed_witness :
  well_formed
    (_orchestration
       (match _expand_node 8 Scenario.tab (extraction_of Scenario.tab) with
        | Done v1 => v1
        | _ => Scenario.view
        end)).
Proof.
  apply (expand_node_keeps_well_formed 8 Scenario.tab
           (extraction_of Scenario.tab)).
  - exact scenario_extraction_well_formed.
  - vm_compute. reflexivity.
Defined.

(** X17: a completed extraction severs the boundary and nothing else: no
    inbound or outbound connection of the selection is left, every other
    connection that was there is still there, and every connection that is
    new has the Entry, the Result or the Call node at one end. *)
Theorem collapse_severs_the_boundary
    (create_unique_name : string → list string → string)
    (p_graph : OrchestratorGraphEdit) (v v1 : View) :
  well_formed (_orchestration v) →
  _collapse_selected_to_function create_unique_name p_graph v = Done v1 →
  let o := _orchestration v in
  let found := resolve o (get_selected_script_nodes o p_graph) in
  (∀ c, c ∈ inputs found ∨ c ∈ outputs found →
        c ∉ _connections (_orchestration v1))
  ∧ (∀ c, c ∈ _connections o → c ∉ inputs found → c ∉ outputs found →
          c ∈ _connections (_orchestration v1))
  ∧ (∀ c, c ∈ _connections (_orchestration v1) → c ∉ _connections o →
          from_node c ∈ created_ids o ∨ to_node c ∈ created_ids o).
Proof.
  intros Hwf (run & Hrun & <-)%collapse_done_run o found.
  pose proof (collapse_extracted _ _ _ _ Hwf Hrun) as Hex. fold o in Hex.
  assert (Hids : ∀ k, get_available_id o ≤ k < get_available_id o + 3 →
                      k ∈ created_ids o).
  { intros k Hk. unfold created_ids. rewrite !elem_of_cons. lia. }
  split_and!.
  - intros c Hc Hin.
    assert (from_node c < get_available_id o
            ∧ to_node c < get_available_id o) as [Hf Ht].
    { apply (extracted_boundary o _ _ run c Hwf Hex).
      by rewrite (ex_inputs _ _ _ _ Hex), (ex_outputs _ _ _ _ Hex). }
    apply (ex_final _ _ _ _ Hex) in Hin.
    rewrite (ex_rewired _ _ _ _ Hex) in Hin.
    rewrite (ex_inputs _ _ _ _ Hex), (ex_outputs _ _ _ _ Hex) in Hin.
    rewrite (ex_entry _ _ _ _ Hex), (ex_call_node _ _ _ _ Hex) in Hin.
    destruct (new_links_touch o (get_available_id o + 2)
                (get_available_id o) (get_available_id o + 1)
                (inputs found) (outputs found) c) as (T1 & T2 & T3 & T4).
    destruct Hin as [[(_ & Hi & Ho)|[H|[H|H]]]|[(_ & _ & ->)|H]].
    + fold found in Hi, Ho. tauto.
    + apply T1 in H. lia.
    + apply T2 in H. lia.
    + apply T3 in H. lia.
    + simpl in Hf. lia.
    + apply T4 in H. lia.
  - intros c Hc Hi Ho. apply (ex_final _ _ _ _ Hex). left.
    apply (ex_rewired _ _ _ _ Hex). left.
    by rewrite (ex_inputs _ _ _ _ Hex), (ex_outputs _ _ _ _ Hex).
  - intros c Hc Hnew.
    destruct (extracted_ends o _ _ run c Hwf Hex Hc) as (Hf & Ht & [?|[?|?]]);
      [done|left|right]; apply Hids; lia.
Qed.

Lemma collapse_severs_the_boundary_witness :
  let found := resolve Scenario.script
                 (get_selected_script_nodes Scenario.script Scenario.tab) in
  (∀ c, c ∈ inputs found ∨ c ∈ outputs found →
        c ∉ _connections (_orchestration (extraction_of Scenario.tab)))
  ∧ (∀ c, c ∈ _connections Scenario.script →
          c ∉ inputs found → c ∉ outputs found →
          c ∈ _connections (_orchestration (extraction_of Scenario.tab)))
  ∧ (∀ c, c ∈ _connections (_orchestration (extraction_of Scenario.tab)) →
          c ∉ _connections Scenario.script →
          from_node c ∈ created_ids Scenario.script
          ∨ to_node c ∈ created_ids Scenario.script).
Proof.
  apply (collapse_severs_the_boundary Scenario.unique_name Scenario.tab
           Scenario.view (extraction_of Scenario.tab)).
  - exact scenario_well_formed.
  - vm_compute. reflexivity.
Defined.





(** ** An extraction runs to its end *)




Section Succeeds.

Context (f src tgt : string) (call entry result : Z) (moved : list Z)
        (base : Orchestration).
Context (Hentry : entry ∈ moved) (Hresult : result ∈ moved).
Context (Hbase : is_Some (find_function base f)).
Context (Hen : is_Some (get_node base entry))
        (Hrn : is_Some (get_node base result)).








End Succeeds.





(** ** More on the boundary classifier *)

Section ClassifierMore.

Context (find_pins : OScriptNode → EPinDirection → list OScriptNodePin)
        (get_connections : OScriptNode → EPinDirection → nat → list PinRef)
        (conns : list OScriptConnection).

Lemma resolve_accumulates p r :
  let res := _resolve_node_set_connections find_pins get_connections conns p in
  (∀ d e, counter d e (res r)
          = counter d e r + counter d e (res NodeSetConnections_default))
  ∧ (∀ c, c ∈ connections (res r)
          ↔ c ∈ connections r
            ∨ c ∈ connections (res NodeSetConnections_default))
  ∧ (∀ c, c ∈ inputs (res r)
          ↔ c ∈ inputs r ∨ c ∈ inputs (res NodeSetConnections_default))
  ∧ (∀ c, c ∈ outputs (res r)
          ↔ c ∈ outputs r ∨ c ∈ outputs (res NodeSetConnections_default)).
Proof.
  intros res. unfold res, _resolve_node_set_connections.
  destruct (resolve_nodes_buckets find_pins get_connections p p ∅ r)
    as (B1 & B2 & B3).
  destruct (resolve_nodes_buckets find_pins get_connections p p ∅
              NodeSetConnections_default) as (D1 & D2 & D3).
  simpl in D1, D2, D3.
  assert (Hhas : ∀ r' id,
    map_has (foldl (resolve_node find_pins get_connections p) (∅, r') p).1 id
    = nodes_has p id) by (intros; apply resolve_nodes_has).
  split_and!.
  - intros d e. rewrite !resolve_connections_counters, !resolve_nodes_counter.
    replace (counter d e NodeSetConnections_default) with 0
      by (by destruct d, e).
    lia.
  - intros c.
    rewrite (proj1 (resolve_connections_elem _ _ _ c)).
    rewrite (proj1 (resolve_connections_elem _ conns
      (foldl (resolve_node find_pins get_connections p)
             (∅, NodeSetConnections_default) p).2 c)).
    rewrite B1, D1, !Hhas, elem_of_nil. tauto.
  - intros c.
    rewrite (proj1 (proj2 (resolve_connections_elem _ _ _ c))).
    rewrite (proj1 (proj2 (resolve_connections_elem _ conns
      (foldl (resolve_node find_pins get_connections p)
             (∅, NodeSetConnections_default) p).2 c))).
    rewrite B2, D2, !Hhas, elem_of_nil. tauto.
  - intros c.
    rewrite (proj2 (proj2 (resolve_connections_elem _ _ _ c))).
    rewrite (proj2 (proj2 (resolve_connections_elem _ conns
      (foldl (resolve_node find_pins get_connections p)
             (∅, NodeSetConnections_default) p).2 c))).
    rewrite B3, D3, !Hhas, elem_of_nil. tauto.
Qed.

Lemma resolve_connection_ext m m' r E :
  (∀ id, map_has m id = map_has m' id) →
  resolve_connection m r E = resolve_connection m' r E.
Proof. intros H. unfold resolve_connection. by rewrite !H. Qed.

Lemma resolve_connections_ext m m' l r :
  (∀ id, map_has m id = map_has m' id) →
  foldl (resolve_connection m) r l = foldl (resolve_connection m') r l.
Proof.
  intros H. revert r. induction l as [|E l IH]; intros r; [done|]. simpl.
  by rewrite IH, (resolve_connection_ext m m').
Qed.

Lemma node_crossings_ext p p' d e n :
  (∀ id, id ∈ node_id <$> p ↔ id ∈ node_id <$> p') →
  node_crossings find_pins get_connections p d e n
  = node_crossings find_pins get_connections p' d e n.
Proof.
  intros H. unfold node_crossings. apply sum_list_with_ext_in.
  intros ip _. case_bool_decide; [|done]. unfold outside_peers. f_equal.
  apply list_filter_iff. intros E. by rewrite H.
Qed.

Lemma resolve_permutation p p' :
  p ≡ₚ p' →
  _resolve_node_set_connections find_pins get_connections conns p
    NodeSetConnections_default
  = _resolve_node_set_connections find_pins get_connections conns p'
      NodeSetConnections_default.
Proof.
  intros Hp. unfold _resolve_node_set_connections.
  assert (Hids : ∀ id, id ∈ node_id <$> p ↔ id ∈ node_id <$> p')
    by (intros id; by rewrite Hp).
  set (st := foldl (resolve_node find_pins get_connections p)
                   (∅, NodeSetConnections_default) p).
  set (st' := foldl (resolve_node find_pins get_connections p')
                    (∅, NodeSetConnections_default) p').
  assert (st.2 = st'.2) as Hrec.
  { destruct (resolve_nodes_buckets find_pins get_connections p p ∅
                NodeSetConnections_default) as (B1 & B2 & B3).
    destruct (resolve_nodes_buckets find_pins get_connections p' p' ∅
                NodeSetConnections_default) as (D1 & D2 & D3).
    fold st in B1, B2, B3. fold st' in D1, D2, D3.
    assert (Hc : ∀ d e, counter d e st.2 = counter d e st'.2).
    { intros d e. unfold st, st'. rewrite !resolve_nodes_counter. f_equal.
      f_equal.
      rewrite (sum_list_with_ext_in _
                 (node_crossings find_pins get_connections p' d e) p)
        by (intros n _; by apply node_crossings_ext).
      exact (sum_list_with_Permutation_proper _ _ _ Hp). }
    pose proof (Hc PD_Input true) as C1. pose proof (Hc PD_Input false) as C2.
    pose proof (Hc PD_Output true) as C3.
    pose proof (Hc PD_Output false) as C4.
    destruct st.2, st'.2. simpl in *. congruence. }
  rewrite Hrec. apply resolve_connections_ext. intros id.
  unfold st, st'. rewrite !resolve_nodes_has. unfold nodes_has.
  apply bool_decide_ext, Hids.
Qed.

End ClassifierMore.

(** X21: the classifier adds to the record it is given and never resets
    it: started on a record that is not empty, it returns counters that are
    the sums, and sets that are the unions, of what the record held and of
    what the classifier finds. *)
Theorem classifier_accumulates
    (find_pins : OScriptNode → EPinDirection → list OScriptNodePin)
    (get_connections : OScriptNode → EPinDirection → nat → list PinRef)
    (conns : list OScriptConnection) (p_nodes : list OScriptNode)
    (r_connections : NodeSetConnections) :
  let run := _resolve_node_set_connections find_pins get_connections conns
               p_nodes in
  let found := run NodeSetConnections_default in
  input_executions (run r_connections)
  = input_executions r_connections + input_executions found
  ∧ input_data (run r_connections)
    = input_data r_connections + input_data found
  ∧ output_executions (run r_connections)
    = output_executions r_connections + output_executions found
  ∧ output_data (run r_connections)
    = output_data r_connections + output_data found
  ∧ (∀ c, c ∈ connections (run r_connections)
          ↔ c ∈ connections r_connections ∨ c ∈ connections found)
  ∧ (∀ c, c ∈ inputs (run r_connections)
          ↔ c ∈ inputs r_connections ∨ c ∈ inputs found)
  ∧ (∀ c, c ∈ outputs (run r_connections)
          ↔ c ∈ outputs r_connections ∨ c ∈ outputs found).
Proof.
  intros run found.
  destruct (resolve_accumulates find_pins get_connections conns p_nodes
              r_connections) as (Hc & H1 & H2 & H3).
  split_and!; try done.
  - apply (Hc PD_Input true).
  - apply (Hc PD_Input false).
  - apply (Hc PD_Output true).
  - apply (Hc PD_Output false).
Qed.

(** X22: the classification does not depend on the order in which the
    selected nodes are listed: two selections that are permutations of each
    other give the same three sets, in the same order, and the same four
    counters. *)
Theorem classifier_order_independent
    (find_pins : OScriptNode → EPinDirection → list OScriptNodePin)
    (get_connections : OScriptNode → EPinDirection → nat → list PinRef)
    (conns : list OScriptConnection) (p_nodes p_nodes' : list OScriptNode) :
  p_nodes ≡ₚ p_nodes' →
  _resolve_node_set_connections find_pins get_connections conns p_nodes
    NodeSetConnections_default
  = _resolve_node_set_connections find_pins get_connections conns p_nodes'
      NodeSetConnections_default.
Proof. apply resolve_permutation. Qed.

Lemma classifier_order_independent_witness :
  resolve Scenario.script [Scenario.print; Scenario.add]
  = resolve Scenario.script [Scenario.add; Scenario.print].
Proof.
  apply classifier_order_independent. apply perm_swap.
Defined.

(** ** The tabs of the script view *)

Lemma omap_delete_None {A B} (h : A → option B) (l : list A) k x :
  l !! k = Some x → h x = None → omap h (delete k l) = omap h l.
Proof.
  revert k. induction l as [|a l IH]; intros k Hk Hx; [done|].
  destruct k as [|k].
  - simpl in *. injection Hk as ->. by rewrite Hx.
  - specialize (IH k Hk Hx). simpl. destruct (h a); [f_equal|]; exact IH.
Qed.

Section TabFacts.

Context (String_match : string → string → bool)
        (new_graph_edit : OScriptGraph → GraphTab)
        (is_function : GraphTab → bool).

Lemma tab_index_from_spec i l name :
  (tab_index_from String_match i l name = -1
   ∧ ∀ g, IsGraphEdit g ∈ l → String_match name (tab_name g) = false)
  ∨ (∃ k g,
       tab_index_from String_match i l name = i + Z.of_nat k
       ∧ l !! k = Some (IsGraphEdit g)
       ∧ String_match name (tab_name g) = true
       ∧ ∀ j g', (j < k)%nat → l !! j = Some (IsGraphEdit g') →
                 String_match name (tab_name g') = false).
Proof.
  revert i. induction l as [|c l IH]; intros i.
  - left. split; [done|]. intros g Hg. by apply elem_of_nil in Hg.
  - assert (Hskip : ∀ r,
      (∀ g, c = IsGraphEdit g → String_match name (tab_name g) = false) →
      r = tab_index_from String_match (i + 1) l name →
      (r = -1
       ∧ ∀ g, IsGraphEdit g ∈ c :: l →
              String_match name (tab_name g) = false)
      ∨ (∃ k g, r = i + Z.of_nat k ∧ (c :: l) !! k = Some (IsGraphEdit g)
                ∧ String_match name (tab_name g) = true
                ∧ ∀ j g', (j < k)%nat → (c :: l) !! j = Some (IsGraphEdit g') →
                          String_match name (tab_name g') = false)).
    { intros r Hc ->.
      destruct (IH (i + 1)) as [[Hr Hno]|(k & g & Hr & Hk & Hm & Hfirst)].
      - left. split; [done|]. intros g [Heq|Hg]%elem_of_cons; auto.
      - right. exists (S k), g. split_and!; try done; [lia|].
        intros [|j] g' Hj Hg'; simpl in Hg'.
        + injection Hg' as ->. auto.
        + apply (Hfirst j); [lia|done]. }
    destruct c as [g|]; simpl.
    + destruct (String_match name (tab_name g)) eqn:Hm.
      * right. exists 0%nat, g. split_and!; try done; [lia|].
        intros j g' Hj. lia.
      * apply Hskip; [|done]. by intros g' [= <-].
    + apply Hskip; [|done]. intros g' Hg'. discriminate Hg'.
Qed.

Lemma get_tab_index_cases t name :
  (_get_tab_index_by_name String_match t name = -1
   ∧ ∀ g, IsGraphEdit g ∈ tab_children t →
          String_match name (tab_name g) = false)
  ∨ (∃ g,
       0 ≤ _get_tab_index_by_name String_match t name < get_tab_count t
       ∧ get_tab_control t (_get_tab_index_by_name String_match t name)
         = Some (IsGraphEdit g)
       ∧ String_match name (tab_name g) = true
       ∧ ∀ j g', 0 ≤ j < _get_tab_index_by_name String_match t name →
                 get_tab_control t j = Some (IsGraphEdit g') →
                 String_match name (tab_name g') = false).
Proof.
  unfold _get_tab_index_by_name, get_tab_control, get_tab_count.
  destruct (tab_index_from_spec 0 (tab_children t) name)
    as [[Hr Hno]|(k & g & Hr & Hk & Hm & Hfirst)]; [by left|right].
  exists g. rewrite Hr. split_and!.
  - lia.
  - apply lookup_lt_Some in Hk. lia.
  - rewrite bool_decide_eq_true_2 by lia.
    replace (Z.to_nat (0 + Z.of_nat k)) with k by lia. done.
  - done.
  - intros j g' Hj. rewrite bool_decide_eq_true_2 by lia. intros Hg'.
    apply (Hfirst (Z.to_nat j)); [lia|done].
Qed.

Lemma close_tab_cases t i :
  _close_tab String_match t i = t
  ∨ (∃ g, get_tab_control t i = Some (IsGraphEdit g)
          ∧ String_match (tab_name g) "EventGraph" = false
          ∧ 0 ≤ i < get_tab_count t
          ∧ _close_tab String_match t i = remove_child i t).
Proof.
  unfold _close_tab.
  destruct (get_tab_control t i) as [[g|]|] eqn:Hc; simpl; try by left.
  destruct (String_match (tab_name g) "EventGraph") eqn:Hm; [by left|].
  right. exists g. split_and!; try done.
  - unfold get_tab_control in Hc. by case_bool_decide.
  - unfold get_tab_control, get_tab_count in *. case_bool_decide; [|done].
    apply lookup_lt_Some in Hc. lia.
Qed.

Lemma close_cases t r :
  close String_match t r = t
  ∨ (∃ i g, get_tab_control t i = Some (IsGraphEdit g)
            ∧ String_match (tab_name g) "EventGraph" = false
            ∧ 0 ≤ i < get_tab_count t
            ∧ close String_match t r = remove_child i t).
Proof.
  destruct r as [i|name]; simpl.
  - unfold _on_close_tab_requested.
    destruct (bool_decide (0 ≤ i) && bool_decide (i < get_tab_count t));
      [|by left].
    destruct (close_tab_cases t i) as [?|(g & ?)]; [by left|right; eauto].
  - unfold _on_close_graph. case_bool_decide; [|by left].
    destruct (close_tab_cases t (_get_tab_index_by_name String_match t name))
      as [?|(g & ?)]; [by left|right; eauto].
Qed.

Lemma remove_child_event_graph_tabs t i g :
  get_tab_control t i = Some (IsGraphEdit g) →
  String_match (tab_name g) "EventGraph" = false →
  event_graph_tabs String_match (remove_child i t)
  = event_graph_tabs String_match t.
Proof.
  intros Hc Hm. unfold event_graph_tabs, remove_child. cbn [tab_children].
  unfold get_tab_control in Hc. case_bool_decide; [|done].
  eapply omap_delete_None; [exact Hc|]. simpl. by rewrite Hm.
Qed.

Lemma get_or_create_tab_cases o t name focus create :
  let found := _get_tab_index_by_name String_match t name in
  let out := _get_or_create_tab String_match new_graph_edit is_function
               o t name focus create in
  (0 ≤ found
   ∧ (∃ g, get_tab_control t found = Some (IsGraphEdit g)
           ∧ String_match name (tab_name g) = true ∧ out.1 = Some g)
   ∧ tab_children out.2 = tab_children t)
  ∨ (found = -1 ∧ out.1 = None ∧ out.2 = t
     ∧ (create = false ∨ get_graph o name = None))
  ∨ (found = -1 ∧ create = true
     ∧ ∃ sg, get_graph o name = Some sg
             ∧ out.1 = Some (new_graph_edit sg)
             ∧ tab_children out.2
               = tab_children t ++ [IsGraphEdit (new_graph_edit sg)]).
Proof.
  intros found out. unfold out, _get_or_create_tab. fold found.
  destruct (get_tab_index_cases t name)
    as [[Hr Hno]|(g & Hr & Hg & Hm & _)]; fold found in Hr.
  - rewrite bool_decide_eq_false_2 by lia.
    destruct create; simpl; [|right; left; auto].
    destruct (get_graph o name) as [sg|] eqn:Hsg;
      [|right; left; auto].
    right. right. split_and!; try done. exists sg. split_and!; try done.
    by destruct focus.
  - left. rewrite bool_decide_eq_true_2 by lia. split; [lia|].
    fold found in Hg.
    assert (∀ t', tab_children t' = tab_children t →
                  get_tab_control t' found = Some (IsGraphEdit g)) as Hsame
      by (intros t' Ht'; unfold get_tab_control in *; by rewrite Ht').
    split; [|by destruct focus].
    exists g. split_and!; try done. cbn [fst].
    rewrite Hsame; [done|]. by destruct focus.
Qed.

End TabFacts.

Section TabTheorems.

Context (String_match : string → string → bool)
        (new_graph_edit : OScriptGraph → GraphTab)
        (is_function : GraphTab → bool).

(** X23: the tab lookup returns -1 exactly when the name matches the name
    of no graph tab, and otherwise the index, within range, of the first
    graph tab whose name it matches. *)
Theorem get_tab_index_by_name_finds_first (t : Tabs) (p_name : string) :
  let index := _get_tab_index_by_name String_match t p_name in
  (index = -1
   ∧ ∀ g, IsGraphEdit g ∈ tab_children t →
          String_match p_name (tab_name g) = false)
  ∨ (∃ g,
       0 ≤ index < get_tab_count t
       ∧ get_tab_control t index = Some (IsGraphEdit g)
       ∧ String_match p_name (tab_name g) = true
       ∧ ∀ j g', 0 ≤ j < index →
                 get_tab_control t j = Some (IsGraphEdit g') →
                 String_match p_name (tab_name g') = false).
Proof. apply get_tab_index_cases. Qed.

(** X24: no request closes the event graph: whatever tabs are asked to be
    closed, by index or by name, the tabs whose name matches "EventGraph"
    all stay, in their order; a request closes at most one tab, one with an
    index out of range closes none, and closing makes no call into the tab
    bar. *)
Theorem close_requests_keep_event_graph (t : Tabs)
    (requests : list CloseRequest) :
  let t' := foldl (close String_match) t requests in
  event_graph_tabs String_match t' = event_graph_tabs String_match t
  ∧ ui_calls t' = ui_calls t
  ∧ (length (tab_children t') ≤ length (tab_children t))%nat
  ∧ (length (tab_children t)
     ≤ length (tab_children t') + length requests)%nat
  ∧ (∀ i, ¬ (0 ≤ i < get_tab_count t) →
          _on_close_tab_requested String_match t i = t).
Proof.
  intros t'. split_and!.
  5:{ intros i Hi. unfold _on_close_tab_requested.
      destruct (bool_decide (0 ≤ i)) eqn:H1,
               (bool_decide (i < get_tab_count t)) eqn:H2; try done.
      apply bool_decide_eq_true in H1, H2. lia. }
  all: unfold t'; clear t'; revert t;
    (induction requests as [|r rs IH]; intros t; simpl; [done || lia|]);
    destruct (close_cases String_match t r) as [->|(i & g & Hc & Hm & Hi & ->)];
    try apply IH.
  - rewrite IH. by eapply remove_child_event_graph_tabs.
  - by rewrite IH.
  - etrans; [apply IH|]. unfold remove_child. cbn [tab_children].
    rewrite length_delete; [lia|].
    unfold get_tab_control in Hc. case_bool_decide; [|done]. by eexists.
  - specialize (IH t). lia.
  - specialize (IH (remove_child i t)). unfold remove_child in *.
    cbn [tab_children] in *. rewrite length_delete in IH; [lia|].
    unfold get_tab_control in Hc. case_bool_decide; [|done]. by eexists.
Qed.

(** X25: a graph gets one tab: when the lookup-or-create returns a tab,
    every later call for the same name returns that tab and adds none,
    provided the constructor names a new tab so that the name of its graph
    matches it; a call that must not create, or that returns no tab, adds
    none either. *)
Theorem get_or_create_tab_opens_once (o : Orchestration) (t : Tabs)
    (p_tab_name : string) (p_focus p_create : bool) :
  (∀ sg, get_graph o p_tab_name = Some sg →
         String_match p_tab_name (tab_name (new_graph_edit sg)) = true) →
  let out := _get_or_create_tab String_match new_graph_edit is_function
               o t p_tab_name p_focus p_create in
  (p_create = false → tab_children out.2 = tab_children t)
  ∧ (out.1 = None → out.2 = t)
  ∧ (length (tab_children out.2) ≤ length (tab_children t) + 1)%nat
  ∧ ∀ graph, out.1 = Some graph →
      ∀ p_focus' p_create',
        let again := _get_or_create_tab String_match new_graph_edit
                       is_function o out.2 p_tab_name p_focus' p_create' in
        again.1 = Some graph ∧ tab_children again.2 = tab_children out.2.
Proof.
  intros Hctor out.
  destruct (get_or_create_tab_cases String_match new_graph_edit is_function
              o t p_tab_name p_focus p_create)
    as [(Hf & (g & Hg & Hm & Hout) & Hch)
       |[(Hf & Hout & Ht & Hwhy)|(Hf & Hcreate & sg & Hsg & Hout & Hch)]];
    fold out in Hout; try fold out in Hch; try fold out in Ht.
  - split_and!; try done.
    + intros Hn. by rewrite Hout in Hn.
    + rewrite Hch. lia.
    + intros graph Hgraph pf pc again. rewrite Hout in Hgraph.
      injection Hgraph as <-.
      assert (_get_tab_index_by_name String_match out.2 p_tab_name
              = _get_tab_index_by_name String_match t p_tab_name) as Hsame
        by (unfold _get_tab_index_by_name; by rewrite Hch).
      destruct (get_or_create_tab_cases String_match new_graph_edit
                  is_function o out.2 p_tab_name pf pc)
        as [(_ & (g' & Hg' & _ & Hout') & Hch')|[(Hf' & _)|(Hf' & _)]];
        try fold again in Hout'; try fold again in Hch';
        rewrite ?Hsame in *; try lia.
      split; [|done]. rewrite Hout'. f_equal.
      unfold get_tab_control in *. rewrite Hch in Hg'. congruence.
  - split_and!; try done.
    + intros _. by rewrite Ht.
    + rewrite Ht. lia.
    + intros graph Hgraph. by rewrite Hout in Hgraph.
  - split_and!.
    + intros Hn. congruence.
    + intros Hn. by rewrite Hout in Hn.
    + rewrite Hch, length_app. simpl. lia.
    + intros graph Hgraph pf pc again. rewrite Hout in Hgraph.
      injection Hgraph as <-.
      destruct (get_tab_index_cases String_match t p_tab_name)
        as [[_ Hno]|(g0 & Hr0 & _)]; [|lia].
      destruct (get_or_create_tab_cases String_match new_graph_edit
                  is_function o out.2 p_tab_name pf pc)
        as [(Hf' & (g' & Hg' & Hm' & Hout') & Hch')
           |[(Hf' & _)|(Hf' & _)]];
        try fold again in Hout'; try fold again in Hch'.
      * split; [|done]. rewrite Hout'. f_equal.
        unfold get_tab_control in Hg'. case_bool_decide; [|done].
        rewrite Hch in Hg'. apply lookup_app_Some in Hg' as [Hold|[_ Hnew]].
        -- apply list_elem_of_lookup_2 in Hold. apply Hno in Hold.
           congruence.
        -- apply list_lookup_singleton_Some in Hnew as [_ Hnew].
           by injection Hnew.
      * exfalso.
        destruct (get_tab_index_cases String_match out.2 p_tab_name)
          as [[_ Hno']|(g1 & Hr1 & _)]; [|lia].
        specialize (Hno' (new_graph_edit sg)). rewrite Hch in Hno'.
        rewrite (Hctor sg Hsg) in Hno'. discriminate Hno'.
        apply elem_of_app. right. by apply list_elem_of_singleton.
      * exfalso.
        destruct (get_tab_index_cases String_match out.2 p_tab_name)
          as [[_ Hno']|(g1 & Hr1 & _)]; [|lia].
        specialize (Hno' (new_graph_edit sg)). rewrite Hch in Hno'.
        rewrite (Hctor sg Hsg) in Hno'. discriminate Hno'.
        apply elem_of_app. right. by apply list_elem_of_singleton.
Qed.

End TabTheorems.

Lemma get_or_create_tab_opens_once_witness :
  let out := _get_or_create_tab plain_match plain_graph_edit
               plain_is_function Scenario.script (mkTabs [] [])
               "EventGraph" true true in
  (true = false → tab_children out.2 = tab_children (mkTabs [] []))
  ∧ (out.1 = None → out.2 = mkTabs [] [])
  ∧ (length (tab_children out.2)
     ≤ length (tab_children (mkTabs [] [])) + 1)%nat
  ∧ ∀ graph, out.1 = Some graph →
      ∀ p_focus' p_create',
        let again := _get_or_create_tab plain_match plain_graph_edit
                       plain_is_function Scenario.script out.2 "EventGraph"
                       p_focus' p_create' in
        again.1 = Some graph ∧ tab_children again.2 = tab_children out.2.
Proof.
  apply (get_or_create_tab_opens_once plain_match plain_graph_edit
           plain_is_function Scenario.script (mkTabs [] []) "EventGraph"
           true true).
  intros sg Hsg. vm_compute in Hsg. injection Hsg as <-. reflexivity.
Defined.

Section GotoNode.

Context (String_match : string → string → bool)
        (new_graph_edit : OScriptGraph → GraphTab)
        (is_function : GraphTab → bool).

Lemma goto_node_in_cases o id : ∀ graphs t,
  let t' := goto_node_in String_match new_graph_edit is_function
              o graphs t id in
  (tab_children t' = tab_children t
   ∨ ∃ c, tab_children t' = tab_children t ++ [c])
  ∧ ((∀ g, g ∈ graphs → has_node g id = false) → t' = t).
Proof.
  induction graphs as [|g graphs IH]; intros t; simpl; [by split; [left|]|].
  destruct (has_node g id) eqn:Hg.
  - destruct (get_or_create_tab_cases String_match new_graph_edit is_function
                o t (graph_name g) true true)
      as [(_ & (g0 & _ & _ & Hout) & Hch)
         |[(_ & Hout & Ht & _)|(_ & _ & sg & _ & Hout & Hch)]];
      destruct (_get_or_create_tab _ _ _ o t (graph_name g) true true)
        as [r t1]; simpl in *; subst.
    + split; [by left|]. intros Hno.
      rewrite (Hno g) in Hg; [done|apply elem_of_cons; by left].
    + destruct (IH t) as [IH1 IH2]. split; [done|]. intros Hno.
      rewrite (Hno g) in Hg; [done|apply elem_of_cons; by left].
    + split; [right; eauto|]. intros Hno.
      rewrite (Hno g) in Hg; [done|apply elem_of_cons; by left].
  - destruct (IH t) as [IH1 IH2]. split; [done|]. intros Hno. apply IH2.
    intros g' Hg'. apply Hno, elem_of_cons. by right.
Qed.

(** X26: going to a node opens at most one tab and closes none; when the
    id resolves to no node, or no graph has the node, nothing happens: no
    tab is opened and no call is made. *)
Theorem goto_node_opens_at_most_one_tab (o : Orchestration) (t : Tabs)
    (p_node_id : Z) :
  let t' := goto_node String_match new_graph_edit is_function
              o t p_node_id in
  (tab_children t' = tab_children t
   ∨ ∃ c, tab_children t' = tab_children t ++ [c])
  ∧ (get_node o p_node_id = None → t' = t)
  ∧ ((∀ g, g ∈ _graphs o → has_node g p_node_id = false) → t' = t).
Proof.
  intros t'. unfold t', goto_node.
  destruct (get_node o p_node_id) as [node|].
  - destruct (goto_node_in_cases o p_node_id (_graphs o) t) as [H1 H2].
    split_and!; done.
  - split_and!; try done. by left.
Qed.

End GotoNode.

Section ShowThenClose.

Context (String_match : string → string → bool)
        (new_graph_edit : OScriptGraph → GraphTab)
        (is_function : GraphTab → bool).

(** X27: showing a graph and then closing it gives the tabs back: when
    the name matches no open tab, the graph exists, the constructor names
    the new tab so that the name matches it, and that name does not match
    "EventGraph", the tab that [_on_show_graph] opens is the one that
    [_on_close_graph] closes, and the tabs are again what they were. *)
Theorem show_then_close_graph (o : Orchestration) (t : Tabs)
    (p_graph_name : string) (sg : OScriptGraph) :
  (∀ g, IsGraphEdit g ∈ tab_children t →
        String_match p_graph_name (tab_name g) = false) →
  get_graph o p_graph_name = Some sg →
  String_match p_graph_name (tab_name (new_graph_edit sg)) = true →
  String_match (tab_name (new_graph_edit sg)) "EventGraph" = false →
  let shown := _on_show_graph String_match new_graph_edit is_function
                 o t p_graph_name in
  tab_children shown = tab_children t ++ [IsGraphEdit (new_graph_edit sg)]
  ∧ tab_children (_on_close_graph String_match shown p_graph_name)
    = tab_children t.
Proof.
  intros Hno Hsg Hctor Hev shown.
  assert (Hshown : tab_children shown
                   = tab_children t ++ [IsGraphEdit (new_graph_edit sg)]).
  { unfold shown, _on_show_graph.
    destruct (get_or_create_tab_cases String_match new_graph_edit is_function
                o t p_graph_name true true)
      as [(_ & (g & Hg & Hm & _) & _)
         |[(_ & _ & _ & [?|Hnone])|(_ & _ & sg' & Hsg' & _ & Hch)]].
    - unfold get_tab_control in Hg. case_bool_decide; [|done].
      apply list_elem_of_lookup_2, Hno in Hg. congruence.
    - done.
    - congruence.
    - rewrite Hch. congruence. }
  split; [done|]. unfold _on_close_graph.
  destruct (get_tab_index_cases String_match shown p_graph_name)
    as [[_ Hno']|(g & Hr & Hg & Hm & _)].
  { specialize (Hno' (new_graph_edit sg)). rewrite Hshown in Hno'.
    rewrite Hctor in Hno'. discriminate Hno'.
    apply elem_of_app. right. by apply list_elem_of_singleton. }
  rewrite bool_decide_eq_true_2 by lia.
  set (i := _get_tab_index_by_name String_match shown p_graph_name) in *.
  assert (Z.to_nat i = length (tab_children t) ∧ g = new_graph_edit sg)
    as [Hi ->].
  { unfold get_tab_control in Hg. case_bool_decide; [|done].
    rewrite Hshown in Hg. apply lookup_app_Some in Hg as [Hold|[Hge Hnew]].
    - apply list_elem_of_lookup_2, Hno in Hold. congruence.
    - apply list_lookup_singleton_Some in Hnew as [Hz Hnew].
      split; [lia|by injection Hnew]. }
  unfold _close_tab. rewrite Hg. cbn [cast_to_graph_edit]. rewrite Hev.
  unfold remove_child. cbn [tab_children]. rewrite Hshown, Hi.
  rewrite delete_middle. by rewrite app_nil_r.
Qed.

End ShowThenClose.

Lemma show_then_close_graph_witness :
  let shown := _on_show_graph plain_match plain_graph_edit plain_is_function
                 (_orchestration (extraction_of Scenario.tab))
                 (mkTabs [IsGraphEdit (mkGraphTab "EventGraph" Scenario.tab)]
                         [])
                 "NewFunction" in
  tab_children shown
  = tab_children (mkTabs [IsGraphEdit (mkGraphTab "EventGraph" Scenario.tab)]
                         [])
    ++ [IsGraphEdit
          (plain_graph_edit
             (mkGraph "NewFunction" [GF_FUNCTION; GF_DEFAULT] [6; 7; 2; 4]))]
  ∧ tab_children (_on_close_graph plain_match shown "NewFunction")
    = tab_children (mkTabs [IsGraphEdit (mkGraphTab "EventGraph"
                                                    Scenario.tab)] []).
Proof.
  apply (show_then_close_graph plain_match plain_graph_edit plain_is_function
           (_orchestration (extraction_of Scenario.tab))
           (mkTabs [IsGraphEdit (mkGraphTab "EventGraph" Scenario.tab)] [])
           "NewFunction"
           (mkGraph "NewFunction" [GF_FUNCTION; GF_DEFAULT] [6; 7; 2; 4])).
  - intros g Hg. apply list_elem_of_singleton in Hg. injection Hg as ->.
    reflexivity.
  - vm_compute. reflexivity.
  - reflexivity.
  - reflexivity.
Defined.
